(** * The replay-buffer test bench ([tb/axis_replay_buffer.py])

    The test bench is a set of cocotb coroutines: [send_packet] drives the
    ingress side of the buffer, and [recv] (a closure of [test_replay])
    consumes the egress side, pulses [replay] twice and raises [done].

    A coroutine is embedded as an interaction tree over the events a
    coroutine can perform: reading a signal, assigning a signal, awaiting a
    trigger, raising an exception, starting another coroutine.  The device
    under test is not part of this file.  A coroutine only meets it through
    the values it samples and the signals it assigns, so the device (and
    every other coroutine, none of which assigns a signal that this one
    reads) is a [device]: a waveform, the value a read of a signal returns
    at each clock edge, and the width of each signal, which decides what an
    assignment to it accepts.  Theorems quantify over all devices.

    Taken as given: a sampled signal resolves to an integer (no X or Z
    bits), assertions are enabled, and every edge awaited is an edge of the
    one clock [buf.clk].  An assignment through [.value] is cocotb's: it
    raises [TypeError] for [None] and [OverflowError] for an int outside the
    range of the signal.  The [timeout] decorator of [test_replay] and the
    [ClockEnable] coroutine come from [tb/util.py] and are not modelled. *)

From Stdlib Require Import ZArith List Bool Lia String.
From stdpp Require Import base option list strings gmap.
From ITree Require Import ITree Eq.Shallow.
Import ListNotations.

Local Open Scope Z_scope.

Notation "x <- t ;; k" := (ITree.bind t (fun x => k))
  (at level 100, t at level 20, k at level 200, right associativity, only parsing).
Notation "t ;;; k" := (ITree.bind t (fun _ => k))
  (at level 100, k at level 200, right associativity, only parsing).

(** * The test bench and its runs *)

(** ** Values and events *)

(** What Python assigns to a signal: [None], an [int] or a [bool]. *)
Inductive pyval : Type :=
| PNone
| PInt (z : Z)
| PBool (b : bool).

(** Truth value of a sampled signal ([if sig.value], [assert sig.value]). *)
Definition truthy (z : Z) : bool := negb (z =? 0).

(** [sig == b] for a Python bool [b], on a handle or on its value: the value
    is compared, and [True] is the integer 1. *)
Definition eq_bool (z : Z) (b : bool) : bool := z =? Z.b2z b.

Inductive exn : Type :=
| AssertionError
| KeyError (key : string)
| TypeError
| OverflowError.

(** The ints a signal of [w] bits takes through [.value]: those from
    [-2^(w-1)] to [2^w - 1].  0 and 1 fit every signal, which the first case
    makes plain to evaluation ([accepts_range] shows that it is the same
    range). *)
Definition accepts (w : positive) (z : Z) : bool :=
  match z with
  | 0 | 1 => true
  | _ => (- 2 ^ (Z.pos w - 1) <=? z) && (z <=? 2 ^ Z.pos w - 1)
  end.

(** What [sig.value = v] raises on a signal of [w] bits, if anything: a
    [bool] is an [int], [None] is not a value. *)
Definition rejects (w : positive) (v : pyval) : option exn :=
  match v with
  | PNone => Some TypeError
  | PInt z => if accepts w z then None else Some OverflowError
  | PBool _ => None
  end.

Section Events.
Context {H : Type}.

(** The triggers a coroutine awaits.  Every edge trigger of this test bench
    is an edge of the one clock of the device. *)
Inductive trigger : Type :=
| RisingEdge (c : H)
| FallingEdge (c : H)
| ClockCycles (c : H) (num_cycles : Z) (rising : bool)
| Timer (time : Z).

(** Coroutines handed to [cocotb.start]. *)
Inductive task : Type :=
| Clock (c : H) (period : Z)
| ClockEnable (c en : H) (ratio : Z)
| Send (in_ratio : Z).

Inductive tbE : Type -> Type :=
| GetValue (s : H) : tbE Z
| SetValue (s : H) (v : pyval) : tbE unit
| Await (g : trigger) : tbE unit
| Start (c : task) : tbE unit
| Raise (e : exn) : tbE Empty_set.

(** What a run leaves behind, in order.  Times are clock-edge indices. *)
Inductive action : Type :=
| Sample (t : nat) (s : H) (z : Z)
| Drive (t : nat) (s : H) (v : pyval)
| Wait (t t' : nat) (g : trigger)
| Spawn (t : nat) (c : task).

Definition get_value (s : H) : itree tbE Z := ITree.trigger (GetValue s).
Definition set_value (s : H) (v : pyval) : itree tbE unit := ITree.trigger (SetValue s v).
Definition await (g : trigger) : itree tbE unit := ITree.trigger (Await g).
Definition start (c : task) : itree tbE unit := ITree.trigger (Start c).
Definition raise {R} (e : exn) : itree tbE R :=
  Vis (Raise e) (fun v : Empty_set => match v with end).

(** [assert b] *)
Definition py_assert (b : bool) : itree tbE unit :=
  if b then Ret tt else raise AssertionError.

(** [signals[key]] on a dict of handles. *)
Definition getitem (signals : gmap string H) (key : string) : itree tbE H :=
  match signals !! key with
  | Some h => Ret h
  | None => raise (KeyError key)
  end.

(** [for x in l: body x] *)
Fixpoint for_each {A} (l : list A) (body : A -> itree tbE unit) : itree tbE unit :=
  match l with
  | [] => Ret tt
  | x :: l' => body x ;;; for_each l' body
  end.

(** [while True: body; if <body's result>: break] *)
Definition loop_until (body : itree tbE bool) : itree tbE unit :=
  ITree.iter (fun _ : unit =>
    b <- body ;; if (b : bool) then Ret (inr tt) else Ret (inl tt)) tt.

(** [while cond: body] *)
Definition while (cond : itree tbE bool) (body : itree tbE unit) : itree tbE unit :=
  ITree.iter (fun _ : unit =>
    b <- cond ;; if (b : bool) then body ;;; Ret (inl tt) else Ret (inr tt)) tt.

End Events.

Arguments trigger : clear implicits.
Arguments task : clear implicits.
Arguments tbE : clear implicits.
Arguments action : clear implicits.

(** ** Running a coroutine against a waveform *)

(** Clock edges are numbered; the even ones are rising (the clock is started
    high), the odd ones falling. *)
Definition next_rising (now : nat) : nat :=
  if Nat.even now then (now + 2)%nat else (now + 1)%nat.
Definition next_falling (now : nat) : nat :=
  if Nat.even now then (now + 1)%nat else (now + 2)%nat.

(** The edge at which a coroutine suspended at [now] on [g] resumes.
    [ClockCycles] awaits its edge [num_cycles] times (none when that is not
    positive); [Timer] is only used before the clock is started. *)
Definition resume {H} (g : trigger H) (now : nat) : nat :=
  match g with
  | RisingEdge _ => next_rising now
  | FallingEdge _ => next_falling now
  | ClockCycles _ n rising =>
      Nat.iter (Z.to_nat n) (if rising then next_rising else next_falling) now
  | Timer _ => now
  end.

(** The device as a coroutine meets it: the value each signal holds at each
    clock edge, and the width of each signal. *)
Record device (H : Type) : Type := Device {
  value :> nat -> H -> Z;
  width : H -> positive
}.
Arguments Device {H}.
Arguments value {H}.
Arguments width {H}.

Inductive outcome (R : Type) : Type :=
| Done (r : R) (now : nat) (fuel : nat)
| Raised (e : exn) (now : nat)
| OutOfFuel.
Arguments Done {R}.
Arguments Raised {R}.
Arguments OutOfFuel {R}.

Definition is_done {R} (o : outcome R) : bool :=
  match o with Done _ _ _ => true | _ => false end.

Section Run.
Context {H : Type} (env : device H).

(** One event: the action it leaves, the time after it, and the answer
    handed to the continuation (the exception when the event raises). *)
Definition perform {X} (e : tbE H X) (now : nat)
  : list (action H) * (exn + nat * X) :=
  match e in tbE _ X return list (action H) * (exn + nat * X) with
  | GetValue s => ([Sample now s (env now s)], inr (now, env now s))
  | SetValue s v =>
      match rejects (width env s) v with
      | Some err => ([], inl err)
      | None => ([Drive now s v], inr (now, tt))
      end
  | Await g => ([Wait now (resume g now) g], inr (resume g now, tt))
  | Start c => ([Spawn now c], inr (now, tt))
  | Raise e => ([], inl e)
  end.

(** [run fuel t now]: the coroutine [t], resumed at edge [now], run for at
    most [fuel] steps.  A step is an event that is answered, or a silent turn
    of a loop; returning and raising take none.  [Done] carries the fuel that
    is left. *)
Fixpoint run {R} (fuel : nat) (t : itree (tbE H) R) (now : nat)
  : list (action H) * outcome R :=
  match observe t with
  | RetF r => ([], Done r now fuel)
  | TauF t' =>
      match fuel with
      | O => ([], OutOfFuel)
      | S f => run f t' now
      end
  | VisF e k =>
      match perform e now with
      | (tr, inl err) => (tr, Raised err now)
      | (tr, inr (now', x)) =>
          match fuel with
          | O => ([], OutOfFuel)
          | S f => let '(tr', o) := run f (k x) now' in (tr ++ tr', o)
          end
      end
  end.

End Run.

(** ** Python list helpers *)

Definition len {A} (l : list A) : Z := Z.of_nat (length l).

(** [l[:n]]: a negative [n] counts from the end. *)
Definition slice_to {A} (l : list A) (n : Z) : list A :=
  if n <? 0 then take (Z.to_nat (len l + n)) l else take (Z.to_nat n) l.

(** [enumerate(l)] *)
Definition enumerate {A} (l : list A) : list (Z * A) :=
  imap (fun i x => (Z.of_nat i, x)) l.

(** [list(range(a, b))] *)
Definition range (a b : Z) : list Z :=
  map (fun i => a + Z.of_nat i) (seq 0 (Z.to_nat (b - a))).

(** Modelled from the spec: [lookahead] is imported from [tb/util.py], which
    is not among the sources.  The spec has the harness send a packet as
    [word_0 ... word_{k-1}] "with [last] true only on the final word";
    [lookahead] pairs each element with that flag.  What it does on an empty
    list is not said; here it yields nothing. *)
Fixpoint lookahead {A} (l : list A) : list (A * bool) :=
  match l with
  | [] => []
  | [x] => [(x, true)]
  | x :: l' => (x, false) :: lookahead l'
  end.

(** ** The coroutines of the test bench *)

Definition BUF_SIZE : Z := 54.

Section SendPacket.
Context {H : Type}.

(** [signals[key].value = v] *)
Definition assign (signals : gmap string H) (key : string) (v : pyval)
  : itree (tbE H) unit :=
  h <- getitem signals key ;; set_value h v.

(** [send_packet(signals, packet, ratio=1)], one statement a line. *)
Definition send_packet (signals : gmap string H) (packet : list pyval) (ratio : Z)
  : itree (tbE H) unit :=
  for_each (lookahead packet) (fun '(val, last) =>
    (if bool_decide (is_Some (signals !! "err"%string)) then
       match val with
       | PNone =>
           assign signals "data" (PInt 0) ;;;
           assign signals "err" (PInt 1)
       | _ =>
           assign signals "data" val ;;;
           assign signals "err" (PInt 0)
       end
     else
       assign signals "data" val) ;;;
    assign signals "valid" (PInt 1) ;;;
    assign signals "last" (PBool last) ;;;
    (c <- getitem signals "clk" ;; await (RisingEdge c)) ;;;
    loop_until (
      (c <- getitem signals "clk" ;; await (FallingEdge c)) ;;;
      (r <- getitem signals "ready" ;; z <- get_value r ;; Ret (truthy z))) ;;;
    assign signals "valid" (PInt 0) ;;;
    if negb (ratio =? 1) then
      c <- getitem signals "clk" ;; await (ClockCycles c (ratio - 1) false)
    else Ret tt).

End SendPacket.

(** The signals of the buffer that [test_replay] touches. *)
Module buf.
Inductive handle : Type :=
| clk
| s_axis_data | s_axis_valid | s_axis_last | s_axis_ready
| m_axis_data | m_axis_valid | m_axis_last | m_axis_ready
| replay | done | replayable.

End buf.

Abbreviation coroutine := (itree (tbE buf.handle)).

(** [handshake()] inside [recv] *)
Definition handshake : coroutine unit :=
  while (v <- get_value buf.m_axis_valid ;;
         if negb (truthy v) then Ret true
         else r <- get_value buf.m_axis_ready ;; Ret (negb (truthy r)))
        (await (RisingEdge buf.clk)).

(** [recv_len(length)] inside [recv(packet)] *)
Definition recv_len (packet : list Z) (length : Z) : coroutine unit :=
  for_each (enumerate (slice_to packet length)) (fun '(i, val) =>
    handshake ;;;
    (d <- get_value buf.m_axis_data ;; py_assert (d =? val)) ;;;
    (l <- get_value buf.m_axis_last ;; py_assert (eq_bool l (i =? len packet - 1))) ;;;
    await (RisingEdge buf.clk)).

(** [restart()] inside [recv] *)
Definition restart : coroutine unit :=
  await (FallingEdge buf.clk) ;;;
  (r <- get_value buf.replayable ;; py_assert (truthy r)) ;;;
  set_value buf.replay (PInt 1) ;;;
  await (FallingEdge buf.clk) ;;;
  set_value buf.replay (PInt 0).

(** [recv(packet)] inside [test_replay] *)
Definition recv (packet : list Z) : coroutine unit :=
  set_value buf.done (PInt 0) ;;;
  let replayable := Z.min (len packet) BUF_SIZE in
  recv_len packet (replayable - 3) ;;;
  restart ;;;
  recv_len packet (replayable - 2) ;;;
  (if len packet <=? BUF_SIZE then await (ClockCycles buf.clk 3 true) else Ret tt) ;;;
  restart ;;;
  set_value buf.done (PInt 1) ;;;
  recv_len packet (len packet).

Definition packets : list (list Z) := [range 0 54; range 64 128; range 128 512].

(** The dict [send()] hands to [send_packet]: the ingress side, no ['err']. *)
Definition ingress_signals : gmap string buf.handle :=
  {[ "clk"%string := buf.clk; "data"%string := buf.s_axis_data;
     "valid"%string := buf.s_axis_valid; "last"%string := buf.s_axis_last;
     "ready"%string := buf.s_axis_ready ]}.

(** [send()] inside [test_replay]: the coroutine started next to the
    receiver.  The elements of the test packets are ints. *)
Definition send (in_ratio : Z) : coroutine unit :=
  for_each packets (fun packet =>
    send_packet ingress_signals (map PInt packet) in_ratio).

(** [test_replay(buf, in_ratio, out_ratio)]: the coroutine of the test
    itself.  What it starts runs beside it and is not followed here. *)
Definition test_replay (in_ratio out_ratio : Z) : coroutine unit :=
  set_value buf.s_axis_valid (PInt 0) ;;;
  set_value buf.s_axis_last (PInt 0) ;;;
  set_value buf.m_axis_ready (PInt 1) ;;;
  set_value buf.replay (PInt 0) ;;;
  set_value buf.done (PInt 0) ;;;
  await (Timer 1) ;;;
  start (Clock buf.clk 8) ;;;
  await (FallingEdge buf.clk) ;;;
  start (ClockEnable buf.clk buf.m_axis_ready out_ratio) ;;;
  start (Send in_ratio) ;;;
  for_each packets recv.

(** ** What a run shows through a view *)

Section RunFacts.
Context {H : Type} (env : device H).
Abbreviation E := (tbE H).

(** How a run goes on after a first part: its trace is prepended, and only
    [Done] hands over. *)
Definition and_then {R S} (p : list (action H) * outcome R)
    (k : R -> nat -> nat -> list (action H) * outcome S)
  : list (action H) * outcome S :=
  match p with
  | (tr, Done r now fuel) => let '(tr', o) := k r now fuel in (tr ++ tr', o)
  | (tr, Raised e now) => (tr, Raised e now)
  | (tr, OutOfFuel) => (tr, OutOfFuel)
  end.

End RunFacts.

Section Tracks.
Context {H X : Type} (view1 : action H -> list X) (obs : X -> Prop).
Abbreviation E := (tbE H).

(** A view keeps, of each action, what does not depend on the waveform's
    timing: [view1] maps an action to the items it shows. *)
Definition view (tr : list (action H)) : list X := flat_map view1 tr.

(** [l] follows [xs] up to its last item, an observation, which differs. *)
Definition mismatch (l xs : list X) : Prop :=
  exists pre x y rest, l = pre ++ [x] /\ xs = pre ++ y :: rest /\ x <> y /\ obs x.

(** What a run with outcome [o] has shown, [l], against the expected [xs]:
    all of it when the run completed, a prefix of it before that; and a run
    raises only [AssertionError], only when the last item it has shown is an
    observation other than the expected one. *)
Definition agree {R} (o : outcome R) (l xs : list X) : Prop :=
  match o with
  | Done _ _ _ => l = xs
  | Raised e _ => e = AssertionError /\ mismatch l xs
  | OutOfFuel => l `prefix_of` xs
  end.

(** Every run of [t], against every waveform, agrees with [xs]. *)
Definition tracks {R} (t : itree E R) (xs : list X) : Prop :=
  forall env fuel now tr o, run env fuel t now = (tr, o) -> agree o (view tr) xs.

End Tracks.

(** The view used throughout.  An assignment shows as [Drove]; a
    [ClockCycles] wait as [Paused]; a sample shows as [Saw] when [seen] lets
    it through.  Edge waits and the samples a polling loop discards are not
    shown: how many there are is up to the waveform. *)
Inductive step (H : Type) : Type :=
| Drove (s : H) (v : pyval)
| Saw (s : H) (z : Z)
| Paused (n : Z) (rising : bool).
Arguments Drove {H}.
Arguments Saw {H}.
Arguments Paused {H}.

Definition show {H} (seen : H -> Z -> option Z) (a : action H) : list (step H) :=
  match a with
  | Drive _ s v => [Drove s v]
  | Sample _ s z => match seen s z with Some z' => [Saw s z'] | None => [] end
  | Wait _ _ (ClockCycles _ n rising) => [Paused n rising]
  | Wait _ _ _ => []
  | Spawn _ _ => []
  end.

Definition is_saw {H} (x : step H) : Prop :=
  match x with Saw _ _ => True | _ => False end.

(** The receiver's view of the egress side: the data and last flag of a
    consumed beat as sampled, [replayable] by its truth value; the polls of
    valid and ready inside [handshake] are not shown. *)
Definition egress (s : buf.handle) (z : Z) : option Z :=
  match s with
  | buf.m_axis_data | buf.m_axis_last => Some z
  | buf.replayable => Some (Z.b2z (truthy z))
  | _ => None
  end.

(** The beats [recv_len(length)] expects of [packet]: position [i] carries
    [packet[i]] and the last flag exactly at the final index of the packet. *)
Definition beats (packet : list Z) (length : Z) : list (step buf.handle) :=
  flat_map (fun '(i, val) =>
      [Saw buf.m_axis_data val; Saw buf.m_axis_last (Z.b2z (i =? len packet - 1))])
    (enumerate (slice_to packet length)).

(** One replay: [replayable] seen high, then the one-cycle pulse. *)
Definition replay_pulse : list (step buf.handle) :=
  [Saw buf.replayable 1; Drove buf.replay (PInt 1); Drove buf.replay (PInt 0)].

(** What [recv(packet)] is to show. *)
Definition choreography (packet : list Z) : list (step buf.handle) :=
  [Drove buf.done (PInt 0)]
  ++ beats packet (Z.min (len packet) BUF_SIZE - 3)
  ++ replay_pulse
  ++ beats packet (Z.min (len packet) BUF_SIZE - 2)
  ++ (if len packet <=? BUF_SIZE then [Paused 3 true] else [])
  ++ replay_pulse
  ++ [Drove buf.done (PInt 1)]
  ++ beats packet (len packet).

(** The sender's view of the ingress side: a sample of ready shows when it
    is high, which ends the polling loop; the low samples before it do not. *)
Definition ready_high {H} (s : H) (z : Z) : option Z :=
  if truthy z then Some 1 else None.

Section Sends.
Context {H : Type}.
Abbreviation E := (tbE H).

(** What a run of the sender, with outcome [o], has shown, [l], against the
    expected [xs]: all of it when the run completed, a prefix of it before
    that; and a run raises only at an assignment, the one expected next,
    that its signal rejects, and raises what the signal raises. *)
Definition offered {R} (env : device H) (o : outcome R) (l xs : list (step H)) : Prop :=
  match o with
  | Done _ _ _ => l = xs
  | Raised e _ =>
      exists s v rest, xs = l ++ Drove s v :: rest /\ rejects (width env s) v = Some e
  | OutOfFuel => l `prefix_of` xs
  end.

(** Every run of [t], on every device, has shown [xs] in this sense. *)
Definition sends {R} (t : itree E R) (xs : list (step H)) : Prop :=
  forall env fuel now tr o,
    run env fuel t now = (tr, o) -> offered env o (view (show ready_high) tr) xs.

(** As [sends], for a coroutine whose result decides what it has shown:
    [xs r] when it returns [r], a prefix of [ub] before that. *)
Definition sends_to {R} (t : itree E R) (xs : R -> list (step H)) (ub : list (step H))
  : Prop :=
  forall env fuel now tr o, run env fuel t now = (tr, o) ->
    match o with
    | Done r _ _ => view (show ready_high) tr = xs r
    | _ => offered env o (view (show ready_high) tr) ub
    end.

End Sends.

(** What sending one element shows: the element's assignments, then ready
    seen high, then valid taken back, then the pause of a [ratio] above 1. *)
Definition data_drives {H} (data : H) (err : option H) (val : pyval) : list (step H) :=
  match err with
  | Some e =>
      match val with
      | PNone => [Drove data (PInt 0); Drove e (PInt 1)]
      | _ => [Drove data val; Drove e (PInt 0)]
      end
  | None => [Drove data val]
  end.

Definition beat_steps {H} (clk data valid last ready : H) (err : option H) (ratio : Z)
    (b : pyval * bool) : list (step H) :=
  data_drives data err (fst b)
  ++ [Drove valid (PInt 1); Drove last (PBool (snd b)); Saw ready 1; Drove valid (PInt 0)]
  ++ (if negb (ratio =? 1) then [Paused (ratio - 1) false] else []).

(** ** Which action may follow which history *)

Section Safety.
Context {H : Type} (G : list (action H) -> action H -> Prop).
Abbreviation E := (tbE H).
Abbreviation history := (list (action H)).

(** [G h a] says action [a] is allowed after the actions [h].  A trace is
    [safe] when each of its actions was allowed after those before it. *)
Inductive safe : history -> Prop :=
| safe_nil : safe []
| safe_snoc h a : safe h -> G h a -> safe (h ++ [a]).

(** From a time and a safe history that satisfy [Pre], every run of [t],
    complete or not, keeps the history safe, and a complete one ends in
    [Post]. *)
Definition triple {R} (Pre : nat -> history -> Prop) (t : itree E R)
    (Post : R -> nat -> history -> Prop) : Prop :=
  forall env fuel now hist tr o,
    Pre now hist -> safe hist -> run env fuel t now = (tr, o) ->
    safe (hist ++ tr) /\
    forall r now' fuel', o = Done r now' fuel' -> Post r now' (hist ++ tr).

End Safety.

Abbreviation anytime := (fun (_ : nat) (_ : list (action _)) => True).

(** Coroutines every action of which is allowed whatever came before. *)
Section Allowed.
Context {H : Type} (G : list (action H) -> action H -> Prop).
Abbreviation E := (tbE H).

Definition allowed {R} (t : itree E R) : Prop :=
  triple G anytime t (fun _ => anytime).

End Allowed.

(** [replay] may be set to 1 only as the action right after a sample of
    [replayable], taken at the same edge, that was high. *)
Definition replay_guard (h : list (action buf.handle)) (a : action buf.handle) : Prop :=
  forall t, a = Drive t buf.replay (PInt 1) ->
    exists h0 z, h = h0 ++ [Sample t buf.replayable z] /\ truthy z = true.

(** [m_axis_data] may be sampled only right after [m_axis_valid] and
    [m_axis_ready] were sampled, at the same edge, and both were high; and
    [m_axis_last] only right after [m_axis_data], at the same edge. *)
Definition beat_guard (h : list (action buf.handle)) (a : action buf.handle) : Prop :=
  (forall t z, a = Sample t buf.m_axis_data z ->
     exists h0 zv zr,
       h = h0 ++ [Sample t buf.m_axis_valid zv; Sample t buf.m_axis_ready zr]
       /\ truthy zv = true /\ truthy zr = true)
  /\ (forall t z, a = Sample t buf.m_axis_last z ->
        exists h0 d, h = h0 ++ [Sample t buf.m_axis_data d]).

(** Where [handshake] returns: valid and ready just sampled high. *)
Definition shaken (now : nat) (h : list (action buf.handle)) : Prop :=
  exists h0 zv zr,
    h = h0 ++ [Sample now buf.m_axis_valid zv; Sample now buf.m_axis_ready zr]
    /\ truthy zv = true /\ truthy zr = true.

(** Every beat in the trace [tr] was taken on the handshake: a sample of
    [m_axis_data] is the value the device holds at that edge and comes right
    after the samples of [m_axis_valid] and [m_axis_ready] at the same edge,
    both high; a sample of [m_axis_last] is the value at that edge and comes
    right after the sample of [m_axis_data] at the same edge. *)
Definition taken_on_handshake (env : device buf.handle) (tr : list (action buf.handle))
  : Prop :=
  (forall h0 t z h1, tr = h0 ++ Sample t buf.m_axis_data z :: h1 ->
     z = env t buf.m_axis_data
     /\ exists h,
          h0 = h ++ [Sample t buf.m_axis_valid (env t buf.m_axis_valid);
                     Sample t buf.m_axis_ready (env t buf.m_axis_ready)]
          /\ truthy (env t buf.m_axis_valid) = true
          /\ truthy (env t buf.m_axis_ready) = true)
  /\ (forall h0 t z h1, tr = h0 ++ Sample t buf.m_axis_last z :: h1 ->
        z = env t buf.m_axis_last
        /\ exists h, h0 = h ++ [Sample t buf.m_axis_data (env t buf.m_axis_data)]).

(** After [b], an assignment at edge [t] disturbs no beat in flight: [b] is
    itself an assignment made at [t], or ready sampled high at [t], or the
    pause between two elements, ending at [t]. *)
Definition settled {H} (ready : H) (t : nat) (b : action H) : Prop :=
  match b with
  | Drive t' _ _ => t' = t
  | Sample t' s z => t' = t /\ s = ready /\ truthy z = true
  | Wait _ t' (ClockCycles _ _ _) => t' = t
  | _ => False
  end.

(** The valid handle is assigned 1, or else 0 and then only right after
    ready was sampled high, at that edge; nothing is assigned after an edge
    wait or a low sample of ready, that is, while a beat is held out; and
    only ready is sampled, right after the wait for a falling edge, at that
    edge. *)
Definition send_guard {H} (clk valid ready : H) (h : list (action H)) (a : action H) : Prop :=
  (forall t v, a = Drive t valid v ->
     v = PInt 1
     \/ (v = PInt 0 /\ exists h0 z, h = h0 ++ [Sample t ready z] /\ truthy z = true))
  /\ (forall t s v, a = Drive t s v ->
        h = [] \/ exists h0 b, h = h0 ++ [b] /\ settled ready t b)
  /\ (forall t s z, a = Sample t s z ->
        s = ready
        /\ exists h0 t0, h = h0 ++ [Wait t0 t (FallingEdge clk)] /\ t = next_falling t0).

(** Nothing in flight: the history is empty or its last action is settled. *)
Definition idle {H} (ready : H) (now : nat) (h : list (action H)) : Prop :=
  h = [] \/ exists h0 b, h = h0 ++ [b] /\ settled ready now b.

(** The last action is an assignment made at this edge. *)
Definition driven {H} (now : nat) (h : list (action H)) : Prop :=
  exists h0 s v, h = h0 ++ [Drive now s v].

(** ** Packets as beats, and waveforms to run against *)

(** Each element of a packet with the flag that is true at the last position
    and nowhere else. *)
Definition framed {A} (l : list A) : list (A * bool) :=
  imap (fun i x => (x, bool_decide (S i = length l))) l.

(** The view of a beat consumed at egress. *)
Definition seen_beat (b : Z * bool) : list (step buf.handle) :=
  [Saw buf.m_axis_data (fst b); Saw buf.m_axis_last (Z.b2z (snd b))].

(** [position start t] is the beat of the pass begun at edge [start] that is
    presented at edge [t]: the first beat at [start], then one beat at each
    rising edge. *)
Definition position (start t : nat) : nat :=
  if (t =? start)%nat then 0%nat else ((t - start + 1) / 2)%nat.

(** The pass under way at edge [t]: the last one of [passes], each given with
    the edge at which it starts, that has started. *)
Fixpoint current_pass (passes : list (nat * list Z)) (t : nat) : nat * list Z :=
  match passes with
  | [] => (0%nat, [])
  | [p] => p
  | p :: (q :: _) as rest => if (t <? fst q)%nat then p else current_pass rest t
  end.

(** A buffer with nine-bit data and one-bit flags, as the packets of the test
    need, that holds the waveform [f]. *)
Definition bench (f : nat -> buf.handle -> Z) : device buf.handle :=
  Device f (fun s =>
    match s with
    | buf.s_axis_data | buf.m_axis_data => 9%positive
    | _ => 1%positive
    end).

(** Sixteen-bit signals throughout, holding the waveform [f]. *)
Definition wide {H} (f : nat -> H -> Z) : device H := Device f (fun _ => 16%positive).

(** [schedule passes] is what a buffer that always has the next beat ready
    would show: valid, ready and replayable are high throughout, and each
    pass presents its packet from the first beat on, one beat a cycle, with
    the last flag on the final beat. *)
Definition schedule (passes : list (nat * list Z)) : device buf.handle :=
  bench (fun t s =>
    let '(start, packet) := current_pass passes t in
    let i := position start t in
    match s with
    | buf.m_axis_data => nth i packet 0
    | buf.m_axis_last => Z.b2z (bool_decide (S i = length packet))
    | _ => 1
    end).

(** One packet, received by a [recv] resumed at edge 1 whose second and third
    passes start at edges [s2] and [s3]. *)
Definition reference (s2 s3 : nat) (packet : list Z) : device buf.handle :=
  schedule [(1%nat, packet); (s2, packet); (s3, packet)].

(** The three packets of the test, one after the other. *)
Definition whole_test : device buf.handle :=
  schedule [(1%nat, range 0 54); (105%nat, range 0 54); (217%nat, range 0 54);
            (324%nat, range 64 128); (429%nat, range 64 128); (535%nat, range 64 128);
            (662%nat, range 128 512); (767%nat, range 128 512); (873%nat, range 128 512)].

(** As [reference], but [replayable] is high at edges [r1] and [r2] only. *)
Definition flicker (r1 r2 s2 s3 : nat) (packet : list Z) : device buf.handle :=
  bench (fun t s =>
    match s with
    | buf.replayable => Z.b2z ((t =? r1)%nat || (t =? r2)%nat)
    | _ => reference s2 s3 packet t s
    end).

(** [n] beats counting up from [base], the last flag on the beat whose
    position is [final]. *)
Definition expect (base : Z) (n : nat) (final : Z) : list (step buf.handle) :=
  flat_map (fun i => [Saw buf.m_axis_data (base + i); Saw buf.m_axis_last (Z.b2z (i =? final))])
    (map Z.of_nat (seq 0 n)).

(** Runs against these waveforms, evaluated once. *)
Definition capacity_run : list (action buf.handle) * outcome unit :=
  Eval vm_compute in run (reference 105 217 (range 0 54)) 3000 (recv (range 0 54)) 1.

Definition flicker_run : list (action buf.handle) * outcome unit :=
  Eval vm_compute in
    run (flicker 103 215 105 217 (range 0 54)) 3000 (recv (range 0 54)) 1.

Definition large_run : list (action buf.handle) * outcome unit :=
  Eval vm_compute in run (reference 105 211 (range 128 512)) 6000 (recv (range 128 512)) 1.

Definition is_pause {H} (x : step H) : bool :=
  match x with Paused _ _ => true | _ => false end.

Definition replay_run : list (action buf.handle) * outcome unit :=
  Eval vm_compute in run (reference 105 217 (range 0 54)) 280 (test_replay 1 1) 0.

Definition short_run : list (action buf.handle) * outcome unit :=
  Eval vm_compute in run (reference 99 99 (range 10 14)) 40 (recv_len (range 10 14) 2) 1.

Definition small_run : list (action buf.handle) * outcome unit :=
  Eval vm_compute in run (reference 5 17 (range 10 14)) 200 (recv (range 10 14)) 1.

(** What [test_replay] itself assigns before it starts receiving. *)
Definition preamble : list (step buf.handle) :=
  [Drove buf.s_axis_valid (PInt 0); Drove buf.s_axis_last (PInt 0);
   Drove buf.m_axis_ready (PInt 1); Drove buf.replay (PInt 0); Drove buf.done (PInt 0)].

Definition whole_run : list (action buf.handle) * outcome unit :=
  Eval vm_compute in run whole_test 8000 (test_replay 1 4) 0.

(** Every signal reads 1 at every edge. *)
Definition always_ready {H} : device H := wide (fun _ _ => 1).

Definition two_beats_run : list (action buf.handle) * outcome unit :=
  Eval vm_compute in run always_ready 40 (send_packet ingress_signals [PInt 7; PInt 8] 1) 1.

(** A dict with an ['err'] signal, as another test bench would pass. *)
Definition err_signals : gmap string string :=
  {[ "clk"%string := "clk"%string; "data"%string := "data"%string;
     "valid"%string := "valid"%string; "last"%string := "last"%string;
     "ready"%string := "ready"%string; "err"%string := "err"%string ]}.

Definition err_run : list (action string) * outcome unit :=
  Eval vm_compute in
    run always_ready 60 (send_packet err_signals [PInt 5; PNone; PInt 6] 1) 1.

(** ** Runs that return, stall or fail *)

(** [t], resumed at [now], takes [n] steps, leaves [tr] and returns [r] at
    [now'], whatever fuel is left over. *)
Definition returns_in {H R} (n : nat) (env : device H) (t : itree (tbE H) R)
    (now : nat) (tr : list (action H)) (r : R) (now' : nat) : Prop :=
  forall fuel, run env (n + fuel) t now = (tr, Done r now' fuel).

(** [t], resumed at [now], returns [r] at [now'] after finitely many steps. *)
Definition returns {H R} (env : device H) (t : itree (tbE H) R) (now : nat)
    (r : R) (now' : nat) : Prop :=
  exists n tr, returns_in n env t now tr r now'.

(** [t], resumed at [now], never returns and never raises. *)
Definition stalls {H R} (env : device H) (t : itree (tbE H) R) (now : nat) : Prop :=
  forall fuel, snd (run env fuel t now) = OutOfFuel.

(** Whatever [t] raises on a device satisfies [P] of that device. *)
Definition raises_only {H R} (P : device H -> exn -> Prop) (t : itree (tbE H) R) : Prop :=
  forall env fuel now tr e t', run env fuel t now = (tr, Raised e t') -> P env e.

(** [t], resumed at [now], raises within [n] steps an exception that
    satisfies [P], before it has sampled anything. *)
Definition fails_in {H R} (n : nat) (P : exn -> Prop) (env : device H)
    (t : itree (tbE H) R) (now : nat) : Prop :=
  forall fuel, (n <= fuel)%nat ->
    exists tr e t', run env fuel t now = (tr, Raised e t')
                    /\ P e /\ forall u s z, ~ In (Sample u s z) tr.

(** Both sides of the egress handshake are high at edge [t]. *)
Definition both_high (env : device buf.handle) (t : nat) : bool :=
  truthy (env t buf.m_axis_valid) && truthy (env t buf.m_axis_ready).

(** From edge [now] on the buffer presents the beats [bs], one at each
    rising edge, the first of them at [now]: valid and ready are high, and
    data and last carry the beat. *)
Definition streams (env : device buf.handle) (now : nat) (bs : list (Z * bool)) : Prop :=
  forall i b, bs !! i = Some b ->
    both_high env (Nat.iter i next_rising now) = true
    /\ env (Nat.iter i next_rising now) buf.m_axis_data = fst b
    /\ env (Nat.iter i next_rising now) buf.m_axis_last = Z.b2z (snd b).

(** ** More guards *)

(** [replay] may be lowered only as its first assignment, or one clock cycle
    after it was raised at a falling edge: right after the wait for the next
    falling edge. *)
Definition pulse_guard (h : list (action buf.handle)) (a : action buf.handle) : Prop :=
  forall t, a = Drive t buf.replay (PInt 0) ->
    (forall t' v, ~ In (Drive t' buf.replay v) h)
    \/ exists h0 t0,
         h = h0 ++ [Drive t0 buf.replay (PInt 1); Wait t0 t (FallingEdge buf.clk)]
         /\ Nat.odd t0 = true /\ t = (t0 + 2)%nat.

(** [replay] has not been assigned yet. *)
Definition untouched (now : nat) (h : list (action buf.handle)) : Prop :=
  forall t' v, ~ In (Drive t' buf.replay v) h.

(** [m_axis_data] may be sampled only at an edge later than every edge at
    which it was sampled before. *)
Definition once_guard (h : list (action buf.handle)) (a : action buf.handle) : Prop :=
  forall t z, a = Sample t buf.m_axis_data z ->
    forall t' z', In (Sample t' buf.m_axis_data z') h -> (t' < t)%nat.

(** [m_axis_data] may be sampled only at a rising edge, or else right after
    the poll that directly follows an assignment made at the same edge: the
    first poll of a pass. *)
Definition rising_guard (h : list (action buf.handle)) (a : action buf.handle) : Prop :=
  forall t z, a = Sample t buf.m_axis_data z ->
    Nat.even t = true
    \/ exists h0 s v zv zr,
         h = h0 ++ [Drive t s v; Sample t buf.m_axis_valid zv; Sample t buf.m_axis_ready zr].

(** Where a pass may start: at a rising edge, or right after an assignment
    made at this edge. *)
Definition at_start (now : nat) (h : list (action buf.handle)) : Prop :=
  Nat.even now = true \/ exists h0 s v, h = h0 ++ [Drive now s v].

(** Where [handshake] returns: at a rising edge, or after the first poll
    that followed an assignment made at this edge. *)
Definition polled (now : nat) (h : list (action buf.handle)) : Prop :=
  Nat.even now = true
  \/ exists h0 s v zv zr,
       h = h0 ++ [Drive now s v; Sample now buf.m_axis_valid zv;
                  Sample now buf.m_axis_ready zr].

(** Every sample of [m_axis_data] so far was taken before edge [d + now]:
    before [now] for [d = 0], at [now] at the latest for [d = 1]. *)
Definition consumed (d : nat) (now : nat) (h : list (action buf.handle)) : Prop :=
  forall t' z', In (Sample t' buf.m_axis_data z') h -> (t' < d + now)%nat.

(** What the receiver does: it samples the egress side and [replayable],
    assigns [done] and [replay], and waits on the clock. *)
Definition receiver_action (a : action buf.handle) : bool :=
  match a with
  | Sample _ (buf.m_axis_valid | buf.m_axis_ready | buf.m_axis_data
              | buf.m_axis_last | buf.replayable) _ => true
  | Drive _ (buf.done | buf.replay) _ => true
  | Wait _ _ (RisingEdge buf.clk | FallingEdge buf.clk | ClockCycles buf.clk _ _) => true
  | _ => false
  end.

(** What the sender does with the dict it is given: it assigns the handles
    under ['data'], ['err'], ['valid'] and ['last'], samples the one under
    ['ready'], and waits on the one under ['clk']. *)
Definition sender_action {H} (signals : gmap string H) (a : action H) : Prop :=
  match a with
  | Drive _ h _ =>
      exists key, In key ["data"; "err"; "valid"; "last"]%string /\ signals !! key = Some h
  | Sample _ h _ => signals !! "ready"%string = Some h
  | Wait _ _ (RisingEdge c | FallingEdge c | ClockCycles c _ _) =>
      signals !! "clk"%string = Some c
  | _ => False
  end.

(** What [test_replay], resumed at [now], does before it receives. *)
Definition startup (now : nat) (in_ratio out_ratio : Z) : list (action buf.handle) :=
  [Drive now buf.s_axis_valid (PInt 0); Drive now buf.s_axis_last (PInt 0);
   Drive now buf.m_axis_ready (PInt 1); Drive now buf.replay (PInt 0);
   Drive now buf.done (PInt 0);
   Wait now now (Timer 1);
   Spawn now (Clock buf.clk 8);
   Wait now (next_falling now) (FallingEdge buf.clk);
   Spawn (next_falling now) (ClockEnable buf.clk buf.m_axis_ready out_ratio);
   Spawn (next_falling now) (Send in_ratio)].

(** A run has not got past [l], or has done [l] and then something that
    satisfies [rest_ok]. *)
Definition begins {H} (rest_ok : list (action H) -> Prop) (l tr : list (action H))
    (o : outcome unit) : Prop :=
  (tr `prefix_of` l /\ o = OutOfFuel)
  \/ exists rest, tr = l ++ rest /\ rest_ok rest.

(** ** Pass lengths, required keys, and more waveforms *)

(** How many beats [recv] takes of a packet of [n] elements before its first
    and before its second replay. *)
Definition first_pass (n : nat) : nat :=
  if (n =? 2)%nat then 1%nat else (Nat.min n 54 - 3)%nat.
Definition second_pass (n : nat) : nat := (Nat.min n 54 - 2)%nat.

(** The keys [send_packet] looks up whatever the packet holds. *)
Definition required : list string := ["data"; "valid"; "last"; "clk"; "ready"]%string.

(** What [send_packet] can raise: [KeyError] for a required key that the
    dict lacks; [TypeError] for the [None] it assigns to data, which it does
    only without an ['err'] signal; [OverflowError] for an int of the packet
    that the data signal does not take. *)
Definition send_error {H} (signals : gmap string H) (packet : list pyval)
    (env : device H) (e : exn) : Prop :=
  match e with
  | KeyError key => In key required /\ signals !! key = None
  | TypeError => signals !! "err"%string = None /\ In PNone packet
  | OverflowError =>
      exists d z, signals !! "data"%string = Some d /\ In (PInt z) packet
                  /\ accepts (width env d) z = false
  | AssertionError => False
  end.

(** The element can be put on the data signal [data]: with an ['err']
    signal [None] goes out as 0; otherwise the signal has to take the
    element itself. *)
Definition sendable {H} (signals : gmap string H) (env : device H) (data : H)
    (val : pyval) : Prop :=
  match signals !! "err"%string, val with
  | Some _, PNone => True
  | _, _ => rejects (width env data) val = None
  end.

(** The assignments to the ingress data signal. *)
Definition is_word (x : step buf.handle) : bool :=
  match x with
  | Drove buf.s_axis_data _ => true
  | _ => false
  end.

(** Valid stays low: no beat is ever presented. *)
Definition never_beat : device buf.handle := bench (fun _ _ => 0).

(** Valid rises at edge 6; everything else is high throughout. *)
Definition late_beat : device buf.handle :=
  bench (fun t s =>
    match s with
    | buf.m_axis_valid => if (t <? 6)%nat then 0 else 1
    | _ => 1
    end).

(** Ready is low up to edge 2 and high from edge 3 on. *)
Definition late_ready : device buf.handle :=
  bench (fun t s => if (t <? 3)%nat then 0 else 1).

Definition late_ready_run : list (action buf.handle) * outcome unit :=
  Eval vm_compute in run late_ready 40 (send_packet ingress_signals [PInt 7] 1) 1.

Definition none_run : list (action buf.handle) * outcome unit :=
  Eval vm_compute in run always_ready 40 (send_packet ingress_signals [PNone] 1) 1.

(** A dict without ['valid'], ['last'] and ['ready']. *)
Definition broken_signals : gmap string string :=
  {[ "clk"%string := "clk"%string; "data"%string := "data"%string ]}.

Definition broken_run : list (action string) * outcome unit :=
  Eval vm_compute in run always_ready 10 (send_packet broken_signals [PInt 1] 1) 1.

Definition pair_run : list (action buf.handle) * outcome unit :=
  Eval vm_compute in run (reference 5 13 [10; 11]) 100 (recv [10; 11]) 1.

Definition send_run : list (action buf.handle) * outcome unit :=
  Eval vm_compute in run always_ready 6000 (send 1) 1.

(** * The theorems *)

(** ** The run of a composed coroutine *)

Section RunFacts.
Context {H : Type} (env : device H).
Abbreviation E := (tbE H).

Lemma run_observe {R} (t u : itree E R) fuel now :
  observe t = observe u -> run env fuel t now = run env fuel u now.
Proof. intros Heq. destruct fuel; simpl; now rewrite Heq. Qed.

Lemma run_bind {R S} (t : itree E R) (k : R -> itree E S) fuel now :
  run env fuel (ITree.bind t k) now
  = and_then (run env fuel t now) (fun r now' fuel' => run env fuel' (k r) now').
Proof.
  revert t now. induction fuel as [|f IH]; intros t now.
  - cbn [run]. rewrite observe_bind. destruct (observe t) as [r|t'|X e h]; cbn.
    + now destruct (observe (k r)) as [r'|u|Y e h]; cbn;
        [| | destruct (perform env e now) as [tr [err|[now' x]]]].
    + reflexivity.
    + now destruct (perform env e now) as [tr [err|[now' x]]].
  - cbn [run]. rewrite observe_bind. destruct (observe t) as [r|t'|X e h]; cbn.
    + destruct (observe (k r)) as [r'|u|Y e h]; cbn.
      * reflexivity.
      * now destruct (run env f u now).
      * destruct (perform env e now) as [tr [err|[now' x]]]; [reflexivity|].
        now destruct (run env f (h x) now').
    + apply IH.
    + destruct (perform env e now) as [tr [err|[now' x]]]; [reflexivity|].
      rewrite IH. unfold and_then.
      destruct (run env f (h x) now') as [tr1 [r now1 f1|err now1|]]; try reflexivity.
      destruct (run env f1 (k r) now1) as [tr2 o]. now rewrite app_assoc.
Qed.

End RunFacts.

(** ** Rules for [tracks] *)

Section Tracks.
Context {H X : Type} (view1 : action H -> list X) (obs : X -> Prop).
Abbreviation E := (tbE H).
Abbreviation view := (view view1).
Abbreviation mismatch := (mismatch obs).
Abbreviation agree := (agree obs).
Abbreviation tracks := (tracks view1 obs).

Lemma view_app tr tr' : view (tr ++ tr') = view tr ++ view tr'.
Proof. apply flat_map_app. Qed.

Lemma mismatch_app_r l xs ys : mismatch l xs -> mismatch l (xs ++ ys).
Proof.
  intros (pre & x & y & rest & -> & -> & Hne & Hobs).
  exists pre, x, y, (rest ++ ys). now rewrite <- app_assoc.
Qed.

Lemma mismatch_app_l l xs ys : mismatch l ys -> mismatch (xs ++ l) (xs ++ ys).
Proof.
  intros (pre & x & y & rest & -> & -> & Hne & Hobs).
  exists (xs ++ pre), x, y, rest. now rewrite <- !app_assoc.
Qed.

Lemma tracks_ret {R} (r : R) : tracks (Ret r) [].
Proof. intros env fuel now tr o. destruct fuel; cbn; intros [= <- <-]; reflexivity. Qed.

Lemma tracks_bind {R S} (t : itree E R) (k : R -> itree E S) xs ys :
  tracks t xs -> (forall r, tracks (k r) ys) -> tracks (ITree.bind t k) (xs ++ ys).
Proof.
  intros Ht Hk env fuel now tr o. rewrite run_bind.
  destruct (run env fuel t now) as [tr1 [r now1 f1|e now1|]] eqn:Hrun;
    specialize (Ht _ _ _ _ _ Hrun); cbn in Ht |- *.
  - destruct (run env f1 (k r) now1) as [tr2 o2] eqn:Hrun2.
    specialize (Hk _ _ _ _ _ _ Hrun2). intros [= <- <-].
    rewrite view_app, Ht. destruct o2 as [r2 now2 f2|e now2|]; cbn in Hk |- *.
    + now rewrite Hk.
    + destruct Hk as [-> Hm]. split; [reflexivity | now apply mismatch_app_l].
    + now apply prefix_app.
  - intros [= <- <-]. destruct Ht as [-> Hm]. split; [reflexivity | now apply mismatch_app_r].
  - intros [= <- <-]. now apply prefix_app_r.
Qed.

(** A single event that shows [xs] whenever it is performed. *)
Lemma tracks_trigger {R} (e : E R) xs :
  (forall env now, view (fst (perform env e now)) = xs) ->
  (forall env now, exists p, snd (perform env e now) = inr p) ->
  tracks (ITree.trigger e) xs.
Proof.
  intros Hv Hr env fuel now tr o. specialize (Hv env now). specialize (Hr env now).
  destruct fuel as [|[|f]]; cbn;
    (destruct (perform env e now) as [tr1 [err|[now' x]]]; [now destruct Hr|]);
    intros [= <- <-]; cbn [fst] in Hv; cbn [agree];
    [apply prefix_nil | now rewrite app_nil_r, Hv ..].
Qed.

Lemma tracks_set_value s v xs :
  (forall w, rejects w v = None) ->
  (forall t, view1 (Drive t s v) = xs) -> tracks (set_value s v) xs.
Proof.
  intros Hv Hx. apply tracks_trigger; intros env now; cbn; rewrite Hv; [|now eexists].
  cbn. now rewrite app_nil_r.
Qed.

Lemma tracks_await g xs :
  (forall t t', view1 (Wait t t' g) = xs) -> tracks (await g) xs.
Proof.
  intros Hv. apply tracks_trigger; [|now eexists].
  intros env now. cbn. now rewrite app_nil_r.
Qed.

Lemma tracks_start c xs :
  (forall t, view1 (Spawn t c) = xs) -> tracks (start c) xs.
Proof.
  intros Hv. apply tracks_trigger; [|now eexists].
  intros env now. cbn. now rewrite app_nil_r.
Qed.

Lemma tracks_get_value s xs :
  (forall t z, view1 (Sample t s z) = xs) -> tracks (get_value s) xs.
Proof.
  intros Hv. apply tracks_trigger; [|now eexists].
  intros env now. cbn. now rewrite app_nil_r.
Qed.

End Tracks.

Section RunLoops.
Context {H : Type} (env : device H).
Abbreviation E := (tbE H).

Lemma run_fuel_le {R} (t : itree E R) fuel now tr r now' fuel' :
  run env fuel t now = (tr, Done r now' fuel') -> (fuel' <= fuel)%nat.
Proof.
  revert t now tr. induction fuel as [|f IH]; intros t now tr; cbn.
  - destruct (observe t) as [r0|t'|X e h]; [now intros [= _ _ _ <-] | discriminate |].
    destruct (perform env e now) as [tr1 [err|[now1 x]]]; discriminate.
  - destruct (observe t) as [r0|t'|X e h].
    + intros [= _ _ _ <-]. lia.
    + intros Hrun. apply IH in Hrun. lia.
    + destruct (perform env e now) as [tr1 [err|[now1 x]]]; [discriminate|].
      destruct (run env f (h x) now1) as [tr2 o] eqn:Hrun. intros [= _ ->].
      apply IH in Hrun. lia.
Qed.

Lemma run_ret {R} (r : R) fuel now : run env fuel (Ret r) now = ([], Done r now fuel).
Proof. now destruct fuel. Qed.

Lemma run_trigger {R} (e : E R) fuel now :
  run env fuel (ITree.trigger e) now
  = match perform env e now with
    | (tr, inl err) => (tr, Raised err now)
    | (tr, inr (now', x)) =>
        match fuel with
        | O => ([], OutOfFuel)
        | S f => (tr, Done x now' f)
        end
    end.
Proof.
  destruct fuel as [|f]; cbn;
    destruct (perform env e now) as [tr [err|[now' x]]]; try reflexivity.
  destruct f; cbn; now rewrite app_nil_r.
Qed.

Lemma run_raise {R} (e : exn) fuel now :
  run env fuel (raise e : itree E R) now = ([], Raised e now).
Proof. now destruct fuel. Qed.

Lemma run_py_assert (b : bool) fuel now :
  run env fuel (py_assert b : itree E unit) now
  = ([], if b then Done tt now fuel else Raised AssertionError now).
Proof. destruct b; cbn [py_assert]; [apply run_ret | apply run_raise]. Qed.

(** One turn of [ITree.iter]: the body, then the loop again after a silent
    step, or the result. *)
Lemma run_iter {I R} (body : I -> itree E (I + R)) (i : I) fuel now :
  run env fuel (ITree.iter body i) now
  = and_then (run env fuel (body i) now) (fun lr now' fuel' =>
      match lr with
      | inl i' =>
          match fuel' with
          | O => ([], OutOfFuel)
          | S f => run env f (ITree.iter body i') now'
          end
      | inr r => ([], Done r now' fuel')
      end).
Proof.
  rewrite (run_observe env _ _ fuel now (observing_observe (unfold_aloop_ body i))).
  rewrite run_bind. unfold and_then.
  destruct (run env fuel (body i) now) as [tr [[i'|r] now1 f1|e now1|]] eqn:Hrun;
    try reflexivity; destruct f1; reflexivity.
Qed.

End RunLoops.

Section TracksLoops.
Context {H X : Type} (view1 : action H -> list X) (obs : X -> Prop).
Abbreviation E := (tbE H).
Abbreviation tracks := (tracks view1 obs).
Abbreviation mismatch := (mismatch obs).

Lemma mismatch_nil l : ~ mismatch l [].
Proof. intros (pre & x & y & rest & _ & Heq & _). now destruct pre. Qed.

Lemma tracks_silent {R} (t : itree E R) :
  tracks t [] <->
  forall env fuel now tr o, run env fuel t now = (tr, o) ->
    view view1 tr = [] /\ forall e now', o <> Raised e now'.
Proof.
  split; intros Ht env fuel now tr o Hrun; specialize (Ht _ _ _ _ _ Hrun).
  - destruct o as [r now1 f1|e now1|]; cbn in Ht.
    + now split.
    + destruct Ht as [_ Hm]. now apply mismatch_nil in Hm.
    + apply prefix_nil_inv in Ht. now split.
  - destruct Ht as [Hv Hr]. destruct o as [r now1 f1|e now1|]; cbn.
    + exact Hv.
    + now destruct (Hr e now1).
    + now rewrite Hv.
Qed.

(** A loop whose turns show nothing shows nothing. *)
Lemma tracks_iter {I R} (body : I -> itree E (I + R)) (i : I) :
  (forall i, tracks (body i) []) -> tracks (ITree.iter body i) [].
Proof.
  intros Hbody. apply tracks_silent. intros env fuel. revert i.
  induction fuel as [fuel IH] using lt_wf_ind. intros i now tr o.
  rewrite run_iter. unfold and_then.
  destruct (run env fuel (body i) now) as [tr1 [lr now1 f1|e now1|]] eqn:Hrun;
    pose proof (proj1 (tracks_silent _) (Hbody i) _ _ _ _ _ Hrun) as [Hv Hr].
  - apply run_fuel_le in Hrun. destruct lr as [i'|r].
    + destruct f1 as [|f].
      * intros [= <- <-]. now rewrite app_nil_r.
      * destruct (run env f (ITree.iter body i') now1) as [tr2 o2] eqn:Hrun2.
        apply IH in Hrun2 as [Hv2 Hr2]; [|lia]. intros [= <- <-].
        unfold view in *. now rewrite flat_map_app, Hv, Hv2.
    + intros [= <- <-]. now rewrite app_nil_r.
  - now destruct (Hr e now1).
  - intros [= <- <-]. now split.
Qed.

Lemma tracks_while (cond : itree E bool) (body : itree E unit) :
  tracks cond [] -> tracks body [] -> tracks (while cond body) [].
Proof.
  intros Hc Hb. apply tracks_iter. intros _.
  apply (tracks_bind _ _ _ _ [] []); [exact Hc|]. intros [|].
  - apply (tracks_bind _ _ _ _ [] []); [exact Hb|]. intros _. apply tracks_ret.
  - apply tracks_ret.
Qed.

Lemma tracks_for_each {A} (l : list A) (body : A -> itree E unit) (f : A -> list X) :
  (forall x, tracks (body x) (f x)) -> tracks (for_each l body) (flat_map f l).
Proof.
  intros Hbody. induction l as [|x l IH]; cbn.
  - apply tracks_ret.
  - apply tracks_bind; [apply Hbody | intros _; exact IH].
Qed.

(** Sampling a signal and asserting on the sample: the sample is shown
    as [f z], which is the expected [y] exactly when the assertion
    holds. *)
Lemma tracks_check s (p : Z -> bool) (f : Z -> X) (y : X) :
  (forall t z, view1 (Sample t s z) = [f z]) ->
  (forall z, obs (f z)) ->
  (forall z, p z = true <-> f z = y) ->
  tracks (z <- get_value s ;; py_assert (p z)) [y].
Proof.
  intros Hv Hobs Hp env fuel now tr o.
  assert (Hbad : p (env now s) = false -> mismatch [f (env now s)] [y]).
  { intros Hpz. exists [], (f (env now s)), y, []. repeat split; [|apply Hobs].
    intros Heq. apply Hp in Heq. congruence. }
  unfold get_value. rewrite run_bind, run_trigger. cbn [perform].
  destruct fuel as [|f0]; cbn [and_then]; rewrite ?run_py_assert.
  - intros [= <- <-]. apply prefix_nil.
  - intros [= <- <-]. cbn. rewrite Hv. cbn.
    destruct (p (env now s)) eqn:Hpz; cbn; [|auto].
    apply Hp in Hpz. now rewrite Hpz.
Qed.

End TracksLoops.

(** ** What the receiver shows *)

Section Receiver.
Abbreviation follows := (tracks (show egress) is_saw).

Lemma handshake_follows : follows handshake [].
Proof.
  apply tracks_while.
  - apply (tracks_bind _ _ _ _ [] []); [now apply tracks_get_value|].
    intros v. destruct (negb (truthy v)); [apply tracks_ret|].
    apply (tracks_bind _ _ _ _ [] []); [now apply tracks_get_value|].
    intros r. apply tracks_ret.
  - now apply tracks_await.
Qed.

Lemma recv_len_follows packet length : follows (recv_len packet length) (beats packet length).
Proof.
  apply tracks_for_each. intros [i val].
  apply (tracks_bind _ _ _ _ [] [_; _]); [apply handshake_follows|]. intros _.
  apply (tracks_bind _ _ _ _ [_] [_]).
  { apply (tracks_check _ _ _ _ (fun z => Saw buf.m_axis_data z)); try easy.
    intros z. rewrite Z.eqb_eq. split; [now intros -> | now intros [= ->]]. }
  intros _. apply (tracks_bind _ _ _ _ [_] []).
  { apply (tracks_check _ _ _ _ (fun z => Saw buf.m_axis_last z)); try easy.
    intros z. unfold eq_bool. rewrite Z.eqb_eq.
    split; [now intros -> | now intros [= ->]]. }
  intros _. now apply tracks_await.
Qed.

Lemma restart_follows : follows restart replay_pulse.
Proof.
  apply (tracks_bind _ _ _ _ [] replay_pulse); [now apply tracks_await|]. intros _.
  apply (tracks_bind _ _ _ _ [_] [_; _]).
  { apply (tracks_check _ _ _ _ (fun z => Saw buf.replayable (Z.b2z (truthy z)))); try easy.
    intros z. destruct (truthy z); cbn; split; congruence. }
  intros _. apply (tracks_bind _ _ _ _ [_] [_]); [now apply tracks_set_value|]. intros _.
  apply (tracks_bind _ _ _ _ [] [_]); [now apply tracks_await|]. intros _.
  now apply tracks_set_value.
Qed.

Lemma recv_follows packet : follows (recv packet) (choreography packet).
Proof.
  unfold recv, choreography.
  apply tracks_bind; [now apply tracks_set_value|]. intros _.
  apply tracks_bind; [apply recv_len_follows|]. intros _.
  apply tracks_bind; [apply restart_follows|]. intros _.
  apply tracks_bind; [apply recv_len_follows|]. intros _.
  apply tracks_bind.
  { destruct (len packet <=? BUF_SIZE); [now apply tracks_await | apply tracks_ret]. }
  intros _. apply tracks_bind; [apply restart_follows|]. intros _.
  apply tracks_bind; [now apply tracks_set_value|]. intros _.
  apply recv_len_follows.
Qed.

End Receiver.

Section SendsRules.
Context {H : Type}.
Abbreviation E := (tbE H).
Abbreviation shown := (view (show (@ready_high H))).

Lemma run_bind_ret_l {R T} env (r : R) (k : R -> itree E T) fuel now :
  run env fuel (ITree.bind (Ret r) k) now = run env fuel (k r) now.
Proof.
  rewrite run_bind, run_ret. cbn [and_then].
  now destruct (run env fuel (k r) now).
Qed.

Lemma sends_ret {R} (r : R) : sends (Ret r : itree E R) [].
Proof. intros env fuel now tr o. rewrite run_ret. now intros [= <- <-]. Qed.

Lemma sends_bind {R S} (t : itree E R) (k : R -> itree E S) xs ys :
  sends t xs -> (forall r, sends (k r) ys) -> sends (ITree.bind t k) (xs ++ ys).
Proof.
  intros Ht Hk env fuel now tr o. rewrite run_bind.
  destruct (run env fuel t now) as [tr1 [r now1 f1|e now1|]] eqn:Hrun;
    specialize (Ht _ _ _ _ _ Hrun); cbn [offered and_then] in Ht |- *.
  - destruct (run env f1 (k r) now1) as [tr2 o2] eqn:Hrun2.
    specialize (Hk _ _ _ _ _ _ Hrun2). intros [= <- <-].
    rewrite view_app, Ht. destruct o2 as [r2 now2 f2|e now2|]; cbn [offered] in Hk |- *.
    + now rewrite Hk.
    + destruct Hk as (s & v & rest & -> & Hrej). exists s, v, rest.
      now rewrite <- app_assoc.
    + now apply prefix_app.
  - intros [= <- <-]. destruct Ht as (s & v & rest & -> & Hrej).
    exists s, v, (rest ++ ys). now rewrite <- app_assoc.
  - intros [= <- <-]. now apply prefix_app_r.
Qed.

Lemma sends_bind_ret {R T} (r : R) (k : R -> itree E T) xs :
  sends (k r) xs -> sends (ITree.bind (Ret r) k) xs.
Proof. intros Hk env fuel now tr o. rewrite run_bind_ret_l. apply Hk. Qed.

(** An assignment shows, or raises what its signal raises. *)
Lemma sends_set_value (s : H) v : sends (set_value s v) [Drove s v].
Proof.
  intros env fuel now tr o. unfold set_value. rewrite run_trigger. cbn [perform].
  destruct (rejects (width env s) v) as [err|] eqn:Hrej.
  - intros [= <- <-]. exists s, v, []. now split.
  - destruct fuel; intros [= <- <-]; cbn [offered]; [apply prefix_nil | reflexivity].
Qed.

Lemma sends_await (g : trigger H) xs :
  (forall t t', show ready_high (Wait t t' g) = xs) -> sends (await g) xs.
Proof.
  intros Hv env fuel now tr o. unfold await. rewrite run_trigger. cbn [perform].
  destruct fuel; intros [= <- <-]; cbn [offered]; [apply prefix_nil|].
  cbn [view flat_map]. now rewrite Hv, app_nil_r.
Qed.

Lemma sends_for_each {A} (l : list A) (body : A -> itree E unit) (f : A -> list (step H)) :
  (forall x, sends (body x) (f x)) -> sends (for_each l body) (flat_map f l).
Proof.
  intros Hbody. induction l as [|x l IH]; cbn.
  - apply sends_ret.
  - apply sends_bind; [apply Hbody | intros _; exact IH].
Qed.

(** A polling loop shows what its last, successful, turn shows. *)
Lemma sends_loop_until (body : itree E bool) xs :
  sends_to body (fun b => if b then xs else []) xs -> sends (loop_until body) xs.
Proof.
  intros Hbody env fuel. induction fuel as [fuel IH] using lt_wf_ind.
  intros now tr o. unfold loop_until. rewrite run_iter, run_bind.
  destruct (run env fuel body now) as [tr1 [b now1 f1|e now1|]] eqn:Hrun;
    pose proof (Hbody _ _ _ _ _ Hrun) as Hb; cbn [and_then].
  - apply run_fuel_le in Hrun. destruct b; rewrite run_ret; cbn [and_then].
    + intros [= <- <-]. cbn [offered]. now rewrite !app_nil_r.
    + destruct f1 as [|f].
      * intros [= <- <-]. cbn [offered]. rewrite !app_nil_r, Hb. apply prefix_nil.
      * fold (loop_until body).
        destruct (run env f (loop_until body) now1) as [tr2 o2] eqn:Hrun2.
        apply IH in Hrun2; [|lia]. intros [= <- <-].
        now rewrite app_nil_r, view_app, Hb.
  - intros [= <- <-]. exact Hb.
  - intros [= <- <-]. exact Hb.
Qed.

End SendsRules.

(** ** What the sender shows *)

Section Sender.
Context {H : Type} (signals : gmap string H) (clk data valid last ready : H).
Hypothesis Hclk : signals !! "clk"%string = Some clk.
Hypothesis Hdata : signals !! "data"%string = Some data.
Hypothesis Hvalid : signals !! "valid"%string = Some valid.
Hypothesis Hlast : signals !! "last"%string = Some last.
Hypothesis Hready : signals !! "ready"%string = Some ready.

Lemma assign_sends key h v :
  signals !! key = Some h -> sends (assign signals key v) [Drove h v].
Proof.
  intros Hkey. unfold assign, getitem. rewrite Hkey.
  apply sends_bind_ret, sends_set_value.
Qed.

Lemma poll_sends :
  sends_to
    ((c <- getitem signals "clk" ;; await (FallingEdge c)) ;;;
     (r <- getitem signals "ready" ;; z <- get_value r ;; Ret (truthy z)))
    (fun b : bool => if b then [Saw ready 1] else []) [Saw ready 1].
Proof.
  intros env fuel now tr o. unfold getitem. rewrite Hclk, Hready.
  rewrite run_bind, run_bind_ret_l. unfold await. rewrite run_trigger. cbn [perform].
  destruct fuel as [|f]; cbn [and_then].
  - intros [= <- <-]. apply prefix_nil.
  - rewrite run_bind_ret_l, run_bind. unfold get_value. rewrite run_trigger.
    cbn [perform]. destruct f as [|f]; cbn [and_then]; rewrite ?run_ret.
    + intros [= <- <-]. apply prefix_nil.
    + intros [= <- <-]. cbn. unfold ready_high. now destruct (truthy _).
Qed.

Lemma send_packet_sends packet ratio :
  sends (send_packet signals packet ratio)
    (flat_map (beat_steps clk data valid last ready (signals !! "err"%string) ratio)
       (lookahead packet)).
Proof.
  apply sends_for_each. intros [val lst]. unfold beat_steps. cbn [fst snd].
  apply sends_bind.
  { unfold data_drives. destruct (signals !! "err"%string) as [e|] eqn:Herr.
    - rewrite bool_decide_eq_true_2 by eauto.
      destruct val;
        (apply (sends_bind _ _ [_] [_]); [|intros _]; now apply assign_sends).
    - rewrite bool_decide_eq_false_2 by (now intros [x Hx]).
      now apply assign_sends. }
  intros _. apply (sends_bind _ _ [_] (_ :: _ :: _ :: _)); [now apply assign_sends|].
  intros _. apply (sends_bind _ _ [_] (_ :: _ :: _)); [now apply assign_sends|].
  intros _. apply (sends_bind _ _ [] (_ :: _ :: _)).
  { unfold getitem. rewrite Hclk. apply sends_bind_ret. now apply sends_await. }
  intros _. apply (sends_bind _ _ [_] (_ :: _)).
  { apply sends_loop_until, poll_sends. }
  intros _. apply (sends_bind _ _ [_] _); [now apply assign_sends|].
  intros _. destruct (negb (ratio =? 1)); [|apply sends_ret].
  unfold getitem. rewrite Hclk. apply sends_bind_ret. now apply sends_await.
Qed.

End Sender.

(** ** Rules for [triple] *)

Section Safety.
Context {H : Type} (G : list (action H) -> action H -> Prop).
Abbreviation E := (tbE H).
Abbreviation history := (list (action H)).
Abbreviation safe := (safe G).
Abbreviation triple := (triple G).

Lemma safe_split hist h0 a h1 : safe hist -> hist = h0 ++ a :: h1 -> G h0 a.
Proof.
  intros Hs. revert h0 a h1. induction Hs as [|h b Hs IH Hb]; intros h0 a h1 Heq.
  - now destruct h0.
  - destruct h1 as [|c h1 _] using rev_ind.
    + apply app_inj_tail in Heq as [-> ->]. exact Hb.
    + change (h0 ++ a :: h1 ++ [c]) with (h0 ++ (a :: h1) ++ [c]) in Heq.
      rewrite app_assoc in Heq. apply app_inj_tail in Heq as [-> ->].
      apply (IH _ _ _ eq_refl).
Qed.

Lemma triple_conseq {R} (Pre Pre' : nat -> history -> Prop) (t : itree E R)
    (Post Post' : R -> nat -> history -> Prop) :
  triple Pre t Post ->
  (forall now h, Pre' now h -> Pre now h) ->
  (forall r now h, Post r now h -> Post' r now h) ->
  triple Pre' t Post'.
Proof.
  intros Ht Hpre Hpost env fuel now hist tr o HP Hs Hrun.
  destruct (Ht env fuel now hist tr o (Hpre _ _ HP) Hs Hrun) as [Hs' HQ].
  split; [exact Hs' | intros r now' f' ->; eapply Hpost, HQ; reflexivity].
Qed.

Lemma triple_ret {R} (r : R) Pre :
  triple Pre (Ret r) (fun r' now h => r' = r /\ Pre now h).
Proof.
  intros env fuel now hist tr o HP Hs. rewrite run_ret. intros [= <- <-].
  rewrite app_nil_r. split; [exact Hs|].
  intros r' now' f' [= <- <- _]. now split.
Qed.

Lemma triple_bind {R T} Pre Mid Post (t : itree E R) (k : R -> itree E T) :
  triple Pre t Mid -> (forall r, triple (Mid r) (k r) Post) ->
  triple Pre (ITree.bind t k) Post.
Proof.
  intros Ht Hk env fuel now hist tr o HP Hs. rewrite run_bind.
  destruct (run env fuel t now) as [tr1 [r now1 f1|e now1|]] eqn:Hrun;
    destruct (Ht _ _ _ _ _ _ HP Hs Hrun) as [Hs1 HQ]; cbn [and_then].
  - destruct (run env f1 (k r) now1) as [tr2 o2] eqn:Hrun2. intros [= <- <-].
    rewrite app_assoc. eapply Hk; [eapply HQ; reflexivity | exact Hs1 | exact Hrun2].
  - intros [= <- <-]. split; [exact Hs1 | discriminate].
  - intros [= <- <-]. split; [exact Hs1 | discriminate].
Qed.

(** An event that leaves one action [a], allowed after every history that
    satisfies [Pre]. *)
Lemma triple_trigger {R} (e : E R) Pre (Post : R -> nat -> history -> Prop) :
  (forall env now h, Pre now h -> safe h ->
     exists a now' x, perform env e now = ([a], inr (now', x)) /\
       G h a /\ Post x now' (h ++ [a])) ->
  triple Pre (ITree.trigger e) Post.
Proof.
  intros He env fuel now hist tr o HP Hs. rewrite run_trigger.
  destruct (He env now hist HP Hs) as (a & now' & x & Hperf & Ha & HQ). rewrite Hperf.
  destruct fuel as [|f]; intros [= <- <-].
  - rewrite app_nil_r. split; [exact Hs | discriminate].
  - split; [now apply safe_snoc|]. now intros r now1 f1 [= <- <- _].
Qed.

Lemma triple_get_value s Pre (Post : Z -> nat -> history -> Prop) :
  (forall now h z, Pre now h -> safe h ->
     G h (Sample now s z) /\ Post z now (h ++ [Sample now s z])) ->
  triple Pre (get_value s) Post.
Proof.
  intros Hg. apply triple_trigger. intros env now h HP Hs.
  destruct (Hg now h (env now s) HP Hs). now eexists _, _, _.
Qed.

Lemma triple_set_value s v Pre (Post : unit -> nat -> history -> Prop) :
  (forall now h, Pre now h -> safe h ->
     G h (Drive now s v) /\ Post tt now (h ++ [Drive now s v])) ->
  triple Pre (set_value s v) Post.
Proof.
  intros Hg env fuel now h tr o HP Hs. unfold set_value. rewrite run_trigger.
  cbn [perform]. destruct (rejects (width env s) v) as [err|].
  - intros [= <- <-]. rewrite app_nil_r. split; [exact Hs | discriminate].
  - destruct (Hg now h HP Hs) as [Ha HQ]. destruct fuel as [|f]; intros [= <- <-].
    + rewrite app_nil_r. split; [exact Hs | discriminate].
    + split; [now apply safe_snoc|]. now intros r now1 f1 [= <- <- _].
Qed.

Lemma triple_await g Pre (Post : unit -> nat -> history -> Prop) :
  (forall now h, Pre now h -> safe h ->
     G h (Wait now (resume g now) g)
     /\ Post tt (resume g now) (h ++ [Wait now (resume g now) g])) ->
  triple Pre (await g) Post.
Proof.
  intros Hg. apply triple_trigger. intros env now h HP Hs.
  destruct (Hg now h HP Hs). now eexists _, _, _.
Qed.

Lemma triple_start c Pre (Post : unit -> nat -> history -> Prop) :
  (forall now h, Pre now h -> safe h ->
     G h (Spawn now c) /\ Post tt now (h ++ [Spawn now c])) ->
  triple Pre (start c) Post.
Proof.
  intros Hg. apply triple_trigger. intros env now h HP Hs.
  destruct (Hg now h HP Hs). now eexists _, _, _.
Qed.

Lemma triple_py_assert (b : bool) Pre :
  triple Pre (py_assert b) (fun _ now h => b = true /\ Pre now h).
Proof.
  intros env fuel now hist tr o HP Hs. rewrite run_py_assert. intros [= <- <-].
  rewrite app_nil_r. split; [exact Hs|].
  destruct b; [|discriminate]. intros r' now' f' [= _ <- _]. now split.
Qed.

Lemma triple_iter {I R} (Inv : I -> nat -> history -> Prop) Post
    (body : I -> itree E (I + R)) (i : I) :
  (forall i, triple (Inv i) (body i)
     (fun lr now h => match lr with inl i' => Inv i' now h | inr r => Post r now h end)) ->
  triple (Inv i) (ITree.iter body i) Post.
Proof.
  intros Hbody env fuel. revert i. induction fuel as [fuel IH] using lt_wf_ind.
  intros i now hist tr o HP Hs. rewrite run_iter.
  destruct (run env fuel (body i) now) as [tr1 [lr now1 f1|e now1|]] eqn:Hrun;
    destruct (Hbody _ _ _ _ _ _ _ HP Hs Hrun) as [Hs1 HQ]; cbn [and_then].
  - apply run_fuel_le in Hrun. specialize (HQ _ _ _ eq_refl). destruct lr as [i'|r].
    + destruct f1 as [|f].
      * intros [= <- <-]. rewrite app_nil_r. split; [exact Hs1 | discriminate].
      * destruct (run env f (ITree.iter body i') now1) as [tr2 o2] eqn:Hrun2.
        intros [= <- <-]. rewrite app_assoc.
        eapply (IH f); [lia | exact HQ | exact Hs1 | exact Hrun2].
    + intros [= <- <-]. rewrite app_nil_r. split; [exact Hs1|].
      now intros r' now' f' [= <- <- _].
  - intros [= <- <-]. split; [exact Hs1 | discriminate].
  - intros [= <- <-]. split; [exact Hs1 | discriminate].
Qed.

Lemma triple_for_each {A} (Inv : nat -> history -> Prop) (l : list A)
    (body : A -> itree E unit) :
  (forall x, triple Inv (body x) (fun _ => Inv)) ->
  triple Inv (for_each l body) (fun _ => Inv).
Proof.
  intros Hbody. induction l as [|x l IH]; cbn [for_each].
  - eapply triple_conseq; [apply (triple_ret tt Inv) | auto | intros r t h [? HI]; exact HI].
  - exact (triple_bind Inv (fun _ => Inv) _ _ _ (Hbody x) (fun _ => IH)).
Qed.

End Safety.

(** ** Rules for [allowed] *)

Section Allowed.
Context {H : Type} (G : list (action H) -> action H -> Prop).
Abbreviation E := (tbE H).
Abbreviation allowed := (allowed G).

Lemma allowed_ret {R} (r : R) : allowed (Ret r).
Proof. eapply triple_conseq; [apply (triple_ret G r anytime) | auto | auto]. Qed.

Lemma allowed_bind {R T} (t : itree E R) (k : R -> itree E T) :
  allowed t -> (forall r, allowed (k r)) -> allowed (ITree.bind t k).
Proof. intros Ht Hk. exact (triple_bind G _ _ _ t k Ht Hk). Qed.

Lemma allowed_py_assert b : allowed (py_assert b).
Proof. eapply triple_conseq; [apply (triple_py_assert G b anytime) | auto | auto]. Qed.

Lemma allowed_get_value s :
  (forall h t z, G h (Sample t s z)) -> allowed (get_value s).
Proof. intros Hg. apply triple_get_value. auto. Qed.

Lemma allowed_set_value s v :
  (forall h t, G h (Drive t s v)) -> allowed (set_value s v).
Proof. intros Hg. apply triple_set_value. auto. Qed.

Lemma allowed_await g :
  (forall h t t', G h (Wait t t' g)) -> allowed (await g).
Proof. intros Hg. apply triple_await. auto. Qed.

Lemma allowed_start c :
  (forall h t, G h (Spawn t c)) -> allowed (start c).
Proof. intros Hg. apply triple_start. auto. Qed.

Lemma allowed_iter {I R} (body : I -> itree E (I + R)) (i : I) :
  (forall i, allowed (body i)) -> allowed (ITree.iter body i).
Proof.
  intros Hbody. apply (triple_iter G (fun _ => anytime) (fun _ => anytime)).
  intros j. eapply triple_conseq; [apply Hbody | auto | now intros [|]].
Qed.

Lemma allowed_while cond body : allowed cond -> allowed body -> allowed (while cond body).
Proof.
  intros Hc Hb. apply allowed_iter. intros _. apply allowed_bind; [exact Hc|].
  intros [|]; [|apply allowed_ret].
  apply allowed_bind; [exact Hb | intros _; apply allowed_ret].
Qed.

Lemma allowed_for_each {A} (l : list A) (body : A -> itree E unit) :
  (forall x, allowed (body x)) -> allowed (for_each l body).
Proof. intros Hbody. now apply triple_for_each. Qed.

(** What a run samples is what the waveform holds at that time. *)
Lemma run_samples {R} env fuel (t : itree E R) now tr o :
  run env fuel t now = (tr, o) ->
  forall t' s z, In (Sample t' s z) tr -> z = env t' s.
Proof.
  revert t now tr o. induction fuel as [|f IH]; intros t now tr o; cbn.
  - destruct (observe t) as [r|u|X e k]; [now intros [= <- <-] ..|].
    destruct e; cbn; try destruct (rejects _ _); now intros [= <- <-].
  - destruct (observe t) as [r|u|X e k].
    + now intros [= <- <-].
    + apply IH.
    + destruct e; cbn; try destruct (rejects _ _).
      all: try (destruct (run env f (k _) _) as [tr2 o2] eqn:Hrun2;
                intros [= <- <-] t' s' z' [Hin|Hin];
                [try discriminate | eapply IH; eassumption]).
      * now injection Hin as <- <- <-.
      * now intros [= <- <-].
      * now intros [= <- <-].
Qed.

(** What a run assigns is what the signal took. *)
Lemma run_drives {R} env fuel (t : itree E R) now tr o :
  run env fuel t now = (tr, o) ->
  forall t' s v, In (Drive t' s v) tr -> rejects (width env s) v = None.
Proof.
  revert t now tr o. induction fuel as [|f IH]; intros t now tr o; cbn.
  - destruct (observe t) as [r|u|X e k]; [now intros [= <- <-] ..|].
    destruct e; cbn; try destruct (rejects _ _); now intros [= <- <-].
  - destruct (observe t) as [r|u|X e k].
    + now intros [= <- <-].
    + apply IH.
    + destruct e; cbn; try destruct (rejects _ _) eqn:Hrej.
      all: try (destruct (run env f (k _) _) as [tr2 o2] eqn:Hrun2;
                intros [= <- <-] t' s' v' [Hin|Hin];
                [try discriminate | eapply IH; eassumption]).
      * now intros [= <- <-].
      * now injection Hin as <- <- <-.
      * now intros [= <- <-].
Qed.

End Allowed.

(** ** Replay is pulsed only on seeing [replayable] high *)

Section ReplayGuard.
Abbreviation ok := (allowed replay_guard).

Lemma handshake_replay_ok : ok handshake.
Proof.
  apply allowed_while.
  - apply allowed_bind; [now apply allowed_get_value|]. intros v.
    destruct (negb (truthy v)); [apply allowed_ret|].
    apply allowed_bind; [now apply allowed_get_value | intros r; apply allowed_ret].
  - now apply allowed_await.
Qed.

Lemma recv_len_replay_ok packet length : ok (recv_len packet length).
Proof.
  apply allowed_for_each. intros [i val].
  apply allowed_bind; [apply handshake_replay_ok | intros _].
  apply allowed_bind; [|intros _].
  { apply allowed_bind; [now apply allowed_get_value | intros d; apply allowed_py_assert]. }
  apply allowed_bind; [|intros _].
  { apply allowed_bind; [now apply allowed_get_value | intros d; apply allowed_py_assert]. }
  now apply allowed_await.
Qed.

Lemma restart_replay_ok : ok restart.
Proof.
  apply allowed_bind; [now apply allowed_await | intros _].
  apply (triple_bind _ _
    (fun _ now h => exists h0 z, h = h0 ++ [Sample now buf.replayable z] /\ truthy z = true)).
  - apply (triple_bind _ _ (fun z now h => exists h0, h = h0 ++ [Sample now buf.replayable z])).
    + apply triple_get_value. intros now h z _ _. split; [easy | now exists h].
    + intros z. eapply triple_conseq; [apply triple_py_assert | intros t h Hp; exact Hp |].
      intros r t h [Hz [h0 ->]]. now exists h0, z.
  - intros _. apply (triple_bind _ _ (fun _ => anytime)).
    + apply triple_set_value. intros now h Hpre _. split; [|exact I].
      intros t [= <-]. exact Hpre.
    + intros _. apply allowed_bind; [now apply allowed_await | intros _].
      now apply allowed_set_value.
Qed.

Lemma recv_replay_ok packet : ok (recv packet).
Proof.
  apply allowed_bind; [now apply allowed_set_value | intros _].
  apply allowed_bind; [apply recv_len_replay_ok | intros _].
  apply allowed_bind; [apply restart_replay_ok | intros _].
  apply allowed_bind; [apply recv_len_replay_ok | intros _].
  apply allowed_bind; [|intros _].
  { destruct (len packet <=? BUF_SIZE); [now apply allowed_await | apply allowed_ret]. }
  apply allowed_bind; [apply restart_replay_ok | intros _].
  apply allowed_bind; [now apply allowed_set_value | intros _].
  apply recv_len_replay_ok.
Qed.

Lemma test_replay_replay_ok in_ratio out_ratio : ok (test_replay in_ratio out_ratio).
Proof.
  unfold test_replay.
  repeat (apply allowed_bind;
          [first [now apply allowed_set_value | now apply allowed_await
                 | now apply allowed_start] | intros _]).
  apply allowed_for_each, recv_replay_ok.
Qed.

End ReplayGuard.

(** ** The receiver consumes a beat only on valid and ready *)

Section BeatGuard.
Abbreviation ok := (allowed beat_guard).

Lemma handshake_shaken : triple beat_guard anytime handshake (fun _ => shaken).
Proof.
  apply (triple_iter _ (fun _ => anytime)). intros _.
  apply (triple_bind _ _ (fun (b : bool) now h => b = false -> shaken now h)).
  - apply (triple_bind _ _ (fun v now h => exists h0, h = h0 ++ [Sample now buf.m_axis_valid v])).
    + apply triple_get_value. intros now h z _ _. split; [easy | now exists h].
    + intros v. destruct (truthy v) eqn:Hv; cbn [negb].
      * apply (triple_bind _ _ (fun r now h => exists h0,
          h = h0 ++ [Sample now buf.m_axis_valid v; Sample now buf.m_axis_ready r])).
        -- apply triple_get_value. intros now h z [h0 ->] _. split; [easy|].
           exists h0. now rewrite <- app_assoc.
        -- intros r. eapply triple_conseq; [apply triple_ret | intros t h Hp; exact Hp |].
           intros b t h [-> [h0 ->]] Hr. exists h0, v, r.
           now destruct (truthy r).
      * eapply triple_conseq; [apply (triple_ret _ true anytime) | easy |].
        now intros b t h [-> _].
  - intros [|].
    + apply (triple_bind _ _ (fun _ => anytime)).
      * apply triple_await. now intros.
      * intros _. eapply triple_conseq; [apply (triple_ret _ _ anytime) | easy |].
        now intros lr t h [-> _].
    + eapply triple_conseq; [apply triple_ret | intros t h Hp; exact Hp |].
      intros lr t h [-> Hs]. now apply Hs.
Qed.

Lemma recv_len_beat_ok packet length : ok (recv_len packet length).
Proof.
  apply allowed_for_each. intros [i val].
  apply (triple_bind _ _ (fun _ => shaken)); [apply handshake_shaken | intros _].
  apply (triple_bind _ _
    (fun _ now h => exists h0 d, h = h0 ++ [Sample now buf.m_axis_data d])).
  { apply (triple_bind _ _
      (fun d now h => exists h0, h = h0 ++ [Sample now buf.m_axis_data d])).
    - apply triple_get_value. intros now h z Hs _. split; [split|].
      + intros t z' [= <- _]. exact Hs.
      + intros t z' [=].
      + now exists h.
    - intros d. eapply triple_conseq; [apply triple_py_assert | intros t h Hp; exact Hp |].
      intros r t h [_ [h0 ->]]. now exists h0, d. }
  intros _. apply (triple_bind _ _ (fun _ => anytime)).
  { apply (triple_bind _ _ (fun _ => anytime)).
    - apply triple_get_value. intros now h z Hd _. split; [split | exact I].
      + intros t z' [=].
      + intros t z' [= <- _]. exact Hd.
    - intros d. apply allowed_py_assert. }
  intros _. now apply allowed_await.
Qed.

Lemma restart_beat_ok : ok restart.
Proof.
  apply allowed_bind; [now apply allowed_await | intros _].
  apply allowed_bind; [|intros _].
  { apply allowed_bind; [now apply allowed_get_value | intros d; apply allowed_py_assert]. }
  apply allowed_bind; [now apply allowed_set_value | intros _].
  apply allowed_bind; [now apply allowed_await | intros _].
  now apply allowed_set_value.
Qed.

Lemma recv_beat_ok packet : ok (recv packet).
Proof.
  apply allowed_bind; [now apply allowed_set_value | intros _].
  apply allowed_bind; [apply recv_len_beat_ok | intros _].
  apply allowed_bind; [apply restart_beat_ok | intros _].
  apply allowed_bind; [apply recv_len_beat_ok | intros _].
  apply allowed_bind; [|intros _].
  { destruct (len packet <=? BUF_SIZE); [now apply allowed_await | apply allowed_ret]. }
  apply allowed_bind; [apply restart_beat_ok | intros _].
  apply allowed_bind; [now apply allowed_set_value | intros _].
  apply recv_len_beat_ok.
Qed.

Lemma test_replay_beat_ok in_ratio out_ratio : ok (test_replay in_ratio out_ratio).
Proof.
  unfold test_replay.
  repeat (apply allowed_bind;
          [first [now apply allowed_set_value | now apply allowed_await
                 | now apply allowed_start] | intros _]).
  apply allowed_for_each, recv_beat_ok.
Qed.

(** What the guard gives of a run, in terms of the device. *)
Lemma beat_ok_taken {R} (t : coroutine R) env fuel now tr o :
  ok t -> run env fuel t now = (tr, o) -> taken_on_handshake env tr.
Proof.
  intros Hok Hrun.
  destruct (Hok env fuel now [] tr o I (safe_nil _) Hrun) as [Hsafe _].
  cbn [app] in Hsafe.
  pose proof (run_samples env fuel t now tr o Hrun) as Hval.
  split.
  - intros h0 u z h1 Htr.
    destruct (safe_split _ _ _ _ _ Hsafe Htr) as [Hg _].
    destruct (Hg u z eq_refl) as (h & zv & zr & -> & Hv & Hr).
    assert (zv = env u buf.m_axis_valid) as ->.
    { apply Hval. rewrite Htr, !in_app_iff. left. right. now left. }
    assert (zr = env u buf.m_axis_ready) as ->.
    { apply Hval. rewrite Htr, !in_app_iff. left. right. right. now left. }
    split.
    + apply Hval. rewrite Htr, !in_app_iff. right. now left.
    + now exists h.
  - intros h0 u z h1 Htr.
    destruct (safe_split _ _ _ _ _ Hsafe Htr) as [_ Hg].
    destruct (Hg u z eq_refl) as (h & d & ->).
    assert (d = env u buf.m_axis_data) as ->.
    { apply Hval. rewrite Htr, !in_app_iff. left. right. now left. }
    split.
    + apply Hval. rewrite Htr, !in_app_iff. right. now left.
    + now exists h.
Qed.

End BeatGuard.

(** ** The sender holds a beat until it sees ready *)

Section SendGuard.
Context {H : Type} (signals : gmap string H) (clk data valid last ready : H).
Hypothesis Hclk : signals !! "clk"%string = Some clk.
Hypothesis Hdata : signals !! "data"%string = Some data.
Hypothesis Hvalid : signals !! "valid"%string = Some valid.
Hypothesis Hlast : signals !! "last"%string = Some last.
Hypothesis Hready : signals !! "ready"%string = Some ready.
Hypothesis Hdistinct :
  data <> valid /\ last <> valid /\ signals !! "err"%string <> Some valid.
Abbreviation idle := (idle ready).

Abbreviation G := (send_guard clk valid ready).

Lemma driven_idle now h : driven now h -> idle now h.
Proof. intros (h0 & s & v & ->). right. now exists h0, (Drive now s v). Qed.

Lemma triple_bind_ret {R T} Pre Post (r : R) (k : R -> itree (tbE H) T) :
  triple G Pre (k r) Post -> triple G Pre (ITree.bind (Ret r) k) Post.
Proof. intros Hk env fuel now hist tr o. rewrite run_bind_ret_l. apply Hk. Qed.

(** An assignment other than taking valid back, made when idle. *)
Lemma assign_guard key h v :
  signals !! key = Some h -> (h <> valid \/ v = PInt 1) ->
  triple G idle (assign signals key v) (fun _ => driven).
Proof.
  intros Hkey Hne. unfold assign, getitem. rewrite Hkey. apply triple_bind_ret.
  apply triple_set_value. intros now hist Hidle _. split; [split; [|split]|].
  - intros t v' [= _ Hh Hv]. destruct Hne as [Hn | ->]; [now destruct Hn | now left].
  - intros t s v' [= <- _ _]. exact Hidle.
  - intros t s z [=].
  - now exists hist, h, v.
Qed.

Lemma poll_guard :
  triple G anytime
    (loop_until (
      (c <- getitem signals "clk" ;; await (FallingEdge c)) ;;;
      (r <- getitem signals "ready" ;; z <- get_value r ;; Ret (truthy z))))
    (fun _ now h => exists h0 z, h = h0 ++ [Sample now ready z] /\ truthy z = true).
Proof.
  apply (triple_iter _ (fun _ => anytime)). intros _. unfold getitem. rewrite Hclk, Hready.
  apply (triple_bind _ _ (fun (b : bool) now h =>
    b = true -> exists h0 z, h = h0 ++ [Sample now ready z] /\ truthy z = true)).
  - apply (triple_bind _ _ (fun _ now h =>
      exists h0 t0, h = h0 ++ [Wait t0 now (FallingEdge clk)] /\ now = next_falling t0)).
    + apply triple_bind_ret, triple_await. intros now h _ _. split.
      * split; [|split]; intros; discriminate.
      * now exists h, now.
    + intros _. apply triple_bind_ret.
      apply (triple_bind _ _ (fun z now h => exists h0, h = h0 ++ [Sample now ready z])).
      * apply triple_get_value. intros now h z Hw _. split; [split; [|split]|].
        -- intros t v [=].
        -- intros t s v [=].
        -- intros t s z' [= <- <- _]. split; [reflexivity | exact Hw].
        -- now exists h.
      * intros z. eapply triple_conseq; [apply triple_ret | intros t h Hp; exact Hp |].
        intros b t h [-> [h0 ->]] Hz. now exists h0, z.
  - intros [|].
    + eapply triple_conseq; [apply triple_ret | intros t h Hp; exact Hp |].
      intros lr t h [-> Hb]. now apply Hb.
    + eapply triple_conseq; [apply (triple_ret _ _ anytime) | easy |].
      now intros lr t h [-> _].
Qed.

Lemma send_packet_guard packet ratio :
  triple G idle (send_packet signals packet ratio) (fun _ => idle).
Proof.
  destruct Hdistinct as (Hdv & Hlv & Hev).
  assert (Hfirst : forall key h v, signals !! key = Some h ->
            (h <> valid \/ v = PInt 1) ->
            triple G idle (assign signals key v) (fun _ => driven))
    by exact assign_guard.
  assert (Hnext : forall key h v, signals !! key = Some h ->
            (h <> valid \/ v = PInt 1) ->
            triple G driven (assign signals key v) (fun _ => driven)).
  { intros key h v Hkey Hne.
    eapply triple_conseq; [apply (assign_guard key h v Hkey Hne) | apply driven_idle | easy]. }
  assert (Hwait : forall g Pre, triple G Pre (await g)
            (fun _ now h => exists h0 t0, h = h0 ++ [Wait t0 now g] /\ now = resume g t0)).
  { intros g Pre. apply triple_await. intros now h _ _. split.
    - split; [|split]; intros; discriminate.
    - now exists h, now. }
  apply triple_for_each. intros [val lst].
  apply (triple_bind _ _ (fun _ => driven)).
  { destruct (signals !! "err"%string) as [e|] eqn:Herr.
    - rewrite bool_decide_eq_true_2 by eauto.
      assert (e <> valid) by congruence.
      destruct val;
        (apply (triple_bind _ _ (fun _ => driven));
         [apply (Hfirst _ data) | intros _; apply (Hnext _ e)]; auto).
    - rewrite bool_decide_eq_false_2 by (now intros [x Hx]).
      apply (Hfirst _ data); auto. }
  intros _. apply (triple_bind _ _ (fun _ => driven)).
  { apply (Hnext _ valid); [assumption | now right]. }
  intros _. apply (triple_bind _ _ (fun _ => driven)).
  { apply (Hnext _ last); [assumption | now left]. }
  intros _. apply (triple_bind _ _ (fun _ => anytime)).
  { unfold getitem. rewrite Hclk.
    eapply triple_bind_ret, triple_conseq; [apply (Hwait _ driven) | easy | easy]. }
  intros _. apply (triple_bind _ _ _ _ _ _ poll_guard).
  intros _. apply (triple_bind _ _ (fun _ => driven)).
  { unfold assign, getitem. rewrite Hvalid. apply triple_bind_ret, triple_set_value.
    intros now h (h0 & z & -> & Hz) _. split; [split; [|split]|].
    - intros t v [= <- <-]. right. split; [reflexivity | now exists h0, z].
    - intros t s v [= <- _ _]. right. now exists h0, (Sample now ready z).
    - intros t s z' [=].
    - now exists (h0 ++ [Sample now ready z]), valid, (PInt 0). }
  intros _. destruct (negb (ratio =? 1)).
  - unfold getitem. rewrite Hclk.
    eapply triple_bind_ret, triple_conseq; [apply (Hwait _ driven) | easy |].
    intros _ now h (h0 & t0 & -> & ->). right.
    now exists h0, (Wait t0 (resume (ClockCycles clk (ratio - 1) false) t0)
                     (ClockCycles clk (ratio - 1) false)).
  - eapply triple_conseq; [apply triple_ret | apply driven_idle |].
    intros r t h [_ Hd]. exact Hd.
Qed.

End SendGuard.

(** ** A packet as beats *)

Lemma flat_map_map {A B C} (g : B -> list C) (h : A -> B) (l : list A) :
  flat_map g (map h l) = flat_map (fun x => g (h x)) l.
Proof. induction l as [|x l IH]; cbn; [reflexivity | now rewrite IH]. Qed.

Lemma lookahead_framed {A} (l : list A) : lookahead l = framed l.
Proof.
  unfold framed. induction l as [|x [|y l] IH]; [reflexivity | reflexivity |].
  change (lookahead (x :: y :: l)) with ((x, false) :: lookahead (y :: l)).
  rewrite IH, (imap_cons (fun i z => (z, bool_decide (S i = length (x :: y :: l)))) x).
  f_equal. apply imap_ext. intros i z _. cbn.
  f_equal. apply bool_decide_ext. lia.
Qed.

Lemma enumerate_take_framed (l : list Z) (k : nat) :
  map (fun p : Z * Z => (snd p, fst p =? len l - 1)) (enumerate (take k l))
  = take k (framed l).
Proof.
  apply list_eq. intros i. unfold enumerate, framed.
  rewrite list_lookup_fmap, list_lookup_imap, !lookup_take, list_lookup_imap.
  case_decide; [|reflexivity]. destruct (l !! i) as [x|]; [|reflexivity]. cbn.
  do 2 f_equal. unfold len. destruct (Z.eqb_spec (Z.of_nat i) (Z.of_nat (length l) - 1)).
  - symmetry. apply bool_decide_eq_true_2. lia.
  - symmetry. apply bool_decide_eq_false_2. lia.
Qed.

Lemma lookahead_In {A} (l : list A) (x : A) (b : bool) :
  In (x, b) (lookahead l) -> In x l.
Proof.
  rewrite lookahead_framed. unfold framed. intros Hin.
  apply list_elem_of_In, list_elem_of_lookup in Hin as [i Hi].
  rewrite list_lookup_imap in Hi.
  destruct (l !! i) as [y|] eqn:Hy; [|discriminate].
  injection Hi as <- _. apply list_elem_of_In. now apply list_elem_of_lookup_2 in Hy.
Qed.

(** What a signal of width [w] takes: the ints from [-2^(w-1)] to [2^w - 1]. *)
Lemma accepts_range w z :
  accepts w z = true <-> - 2 ^ (Z.pos w - 1) <= z <= 2 ^ Z.pos w - 1.
Proof.
  assert (Hlow : 0 < 2 ^ (Z.pos w - 1)) by (apply Z.pow_pos_nonneg; lia).
  assert (Hhigh : 2 ^ 1 <= 2 ^ Z.pos w) by (apply Z.pow_le_mono_r; lia).
  change (2 ^ 1) with 2 in Hhigh.
  unfold accepts. destruct z as [|[p|p|]|p];
    rewrite ?andb_true_iff, ?Z.leb_le; try reflexivity; split; intros; try reflexivity; lia.
Qed.

Lemma range_In a b z : In z (range a b) -> a <= z < b.
Proof.
  unfold range. rewrite in_map_iff. intros (i & <- & Hi). apply in_seq in Hi. lia.
Qed.

Lemma length_framed {A} (l : list A) : length (framed l) = length l.
Proof. apply length_imap. Qed.

(** The beats [recv_len(length)] expects are the first ones of the framed
    packet, as many as the slice [packet[:length]] has. *)
Lemma beats_framed packet n :
  beats packet n
  = flat_map seen_beat (take (length (slice_to packet n)) (framed packet)).
Proof.
  assert (Hk : forall k, flat_map (fun '(i, val) =>
              [Saw buf.m_axis_data val; Saw buf.m_axis_last (Z.b2z (i =? len packet - 1))])
            (enumerate (take k packet))
          = flat_map seen_beat (take (length (take k packet)) (framed packet))).
  { intros k. rewrite length_take, <- (length_framed packet), <- take_take.
    rewrite (take_ge (framed packet) (length (framed packet))) by lia.
    rewrite <- enumerate_take_framed, flat_map_map.
    apply flat_map_ext. now intros [i val]. }
  unfold beats, slice_to. destruct (n <? 0); apply Hk.
Qed.

Lemma beats_all packet : beats packet (len packet) = flat_map seen_beat (framed packet).
Proof.
  rewrite beats_framed. f_equal. apply take_ge. rewrite length_framed.
  unfold slice_to, len. destruct (Z.of_nat (length packet) <? 0) eqn:Hneg; [lia|].
  rewrite Nat2Z.id, take_ge; lia.
Qed.


(** ** The claims *)

(** *** The capacity-sized packet *)

(** C1, as amended.  Receiving the packet [0..53] (of length [BUF_SIZE]), the
    harness takes 51 beats (0..50), sees [replayable] high once and pulses
    [replay]; takes 52 beats (0..51) from the start again, waits 3 clock
    cycles, then sees [replayable] high once more, after the wait, and
    pulses [replay] again; raises [done]; and takes all 54 beats, expecting
    the last flag on beat 53 only.  A run that completes shows exactly this;
    one that does not shows a prefix of it, up to a sampled value that
    differs, on which it raises [AssertionError]. *)
Theorem capacity_packet_choreography env fuel now tr o :
  run env fuel (recv (range 0 54)) now = (tr, o) ->
  agree is_saw o (view (show egress) tr)
    ([Drove buf.done (PInt 0)]
     ++ expect 0 51 53
     ++ [Saw buf.replayable 1; Drove buf.replay (PInt 1); Drove buf.replay (PInt 0)]
     ++ expect 0 52 53
     ++ [Paused 3 true]
     ++ [Saw buf.replayable 1; Drove buf.replay (PInt 1); Drove buf.replay (PInt 0)]
     ++ [Drove buf.done (PInt 1)]
     ++ expect 0 54 53).
Proof.
  intros Hrun. apply recv_follows in Hrun.
  eapply eq_ind; [exact Hrun|]. vm_compute. reflexivity.
Qed.

Lemma capacity_packet_choreography_witness :
  run (reference 105 217 (range 0 54)) 3000 (recv (range 0 54)) 1 = capacity_run
  /\ is_done (snd capacity_run) = true
  /\ view (show egress) (fst capacity_run)
     = [Drove buf.done (PInt 0)]
       ++ expect 0 51 53
       ++ [Saw buf.replayable 1; Drove buf.replay (PInt 1); Drove buf.replay (PInt 0)]
       ++ expect 0 52 53
       ++ [Paused 3 true]
       ++ [Saw buf.replayable 1; Drove buf.replay (PInt 1); Drove buf.replay (PInt 0)]
       ++ [Drove buf.done (PInt 1)]
       ++ expect 0 54 53.
Proof.
  assert (Hrun : run (reference 105 217 (range 0 54)) 3000 (recv (range 0 54)) 1
                 = capacity_run) by (vm_compute; reflexivity).
  split; [exact Hrun|]. split; [reflexivity|].
  exact (capacity_packet_choreography _ _ _ _ _ Hrun).
Defined.

(** C1 as it stands asks more of the wait: that [replayable] stays high
    through the three cycles.  It fails: the harness samples [replayable]
    only in [restart], once the wait is over.  Against a waveform whose
    [replayable] is high at the two edges where [restart] samples it and
    low otherwise, the test passes, low edges of the wait included. *)
Lemma capacity_packet_wait_unchecked :
  ~ (forall env fuel now tr o,
       run env fuel (recv (range 0 54)) now = (tr, o) -> is_done o = true ->
       forall t t' u, In (Wait t t' (ClockCycles buf.clk 3 true)) tr ->
         (t <= u <= t')%nat -> truthy (env u buf.replayable) = true).
Proof.
  intros Hc.
  assert (Hrun : run (flicker 103 215 105 217 (range 0 54)) 3000 (recv (range 0 54)) 1
                 = flicker_run) by (vm_compute; reflexivity).
  assert (Hin : In (Wait 208 214 (ClockCycles buf.clk 3 true)) (fst flicker_run))
    by (apply (nth_error_In _ 521); reflexivity).
  assert (Hu : (208 <= 210 <= 214)%nat) by lia.
  pose proof (Hc _ _ _ _ _ Hrun eq_refl _ _ _ Hin Hu) as Hbad.
  clear Hrun Hin Hc. vm_compute in Hbad. discriminate.
Qed.

(** *** The packet longer than the buffer *)

(** C2, as amended.  Receiving the 384-element packet [128..511], the harness
    takes 51 beats, sees [replayable] high and pulses [replay], takes 52
    beats from the start again and, without any wait, sees [replayable] high
    and pulses [replay] a second time; it raises [done] and takes all 384
    beats, expecting the last flag on the final one only.  The counts before
    the replays come from [min(384, BUF_SIZE) = 54]; the 3-cycle wait is
    made for packets of at most [BUF_SIZE] elements only. *)
Theorem large_packet_choreography env fuel now tr o :
  run env fuel (recv (range 128 512)) now = (tr, o) ->
  agree is_saw o (view (show egress) tr)
    ([Drove buf.done (PInt 0)]
     ++ expect 128 51 383
     ++ [Saw buf.replayable 1; Drove buf.replay (PInt 1); Drove buf.replay (PInt 0)]
     ++ expect 128 52 383
     ++ [Saw buf.replayable 1; Drove buf.replay (PInt 1); Drove buf.replay (PInt 0)]
     ++ [Drove buf.done (PInt 1)]
     ++ expect 128 384 383).
Proof.
  intros Hrun. apply recv_follows in Hrun.
  eapply eq_ind; [exact Hrun|]. vm_compute. reflexivity.
Qed.

Lemma large_packet_choreography_witness :
  run (reference 105 211 (range 128 512)) 6000 (recv (range 128 512)) 1 = large_run
  /\ is_done (snd large_run) = true
  /\ view (show egress) (fst large_run)
     = [Drove buf.done (PInt 0)]
       ++ expect 128 51 383
       ++ [Saw buf.replayable 1; Drove buf.replay (PInt 1); Drove buf.replay (PInt 0)]
       ++ expect 128 52 383
       ++ [Saw buf.replayable 1; Drove buf.replay (PInt 1); Drove buf.replay (PInt 0)]
       ++ [Drove buf.done (PInt 1)]
       ++ expect 128 384 383.
Proof.
  assert (Hrun : run (reference 105 211 (range 128 512)) 6000 (recv (range 128 512)) 1
                 = large_run) by (vm_compute; reflexivity).
  split; [exact Hrun|]. split; [reflexivity|].
  exact (large_packet_choreography _ _ _ _ _ Hrun).
Defined.

(** C2 as it stands has the 3-cycle wait before the second replay of this
    packet too.  It fails: a passing run shows no pause at all. *)
Lemma large_packet_no_wait :
  ~ (forall env fuel now tr o,
       run env fuel (recv (range 128 512)) now = (tr, o) -> is_done o = true ->
       In (Paused 3 true) (view (show egress) tr)).
Proof.
  intros Hc.
  assert (Hrun : run (reference 105 211 (range 128 512)) 6000 (recv (range 128 512)) 1
                 = large_run) by (vm_compute; reflexivity).
  pose proof (Hc _ _ _ _ _ Hrun eq_refl) as Hin.
  assert (Hex : existsb is_pause (view (show egress) (fst large_run)) = true).
  { apply existsb_exists. exists (Paused 3 true). split; [exact Hin | reflexivity]. }
  clear Hrun Hin.
  vm_compute in Hex. discriminate.
Qed.

(** *** Replay only on [replayable] *)

(** C3.  In every run of the test, complete or not, against every waveform:
    an assignment of 1 to [replay] comes right after a sample of
    [replayable] taken at the same clock edge, and that sample was high.
    So the harness never raises [replay] at an edge where [replayable] is
    low. *)
Theorem replay_only_when_replayable env in_ratio out_ratio fuel now tr o h0 t h1 :
  run env fuel (test_replay in_ratio out_ratio) now = (tr, o) ->
  tr = h0 ++ Drive t buf.replay (PInt 1) :: h1 ->
  exists h,
    h0 = h ++ [Sample t buf.replayable (env t buf.replayable)]
    /\ truthy (env t buf.replayable) = true.
Proof.
  intros Hrun Htr.
  destruct (test_replay_replay_ok in_ratio out_ratio env fuel now [] tr o I
              (safe_nil _) Hrun) as [Hsafe _].
  destruct (safe_split _ _ _ _ _ Hsafe Htr t eq_refl) as (h & z & -> & Hz).
  assert (z = env t buf.replayable) as ->.
  { apply (run_samples env fuel _ now tr o Hrun). rewrite Htr.
    rewrite !in_app_iff. left. right. now left. }
  now exists h.
Qed.

Lemma replay_only_when_replayable_witness :
  run (reference 105 217 (range 0 54)) 280 (test_replay 1 1) 0 = replay_run
  /\ fst replay_run
     = take 268 (fst replay_run) ++ Drive 103 buf.replay (PInt 1) :: drop 269 (fst replay_run)
  /\ exists h,
       take 268 (fst replay_run)
       = h ++ [Sample 103 buf.replayable (reference 105 217 (range 0 54) 103%nat buf.replayable)]
       /\ truthy (reference 105 217 (range 0 54) 103%nat buf.replayable) = true.
Proof.
  assert (Hrun : run (reference 105 217 (range 0 54)) 280 (test_replay 1 1) 0 = replay_run)
    by (vm_compute; reflexivity).
  assert (Htr : fst replay_run
     = take 268 (fst replay_run) ++ Drive 103 buf.replay (PInt 1) :: drop 269 (fst replay_run))
    by (vm_compute; reflexivity).
  split; [exact Hrun|]. split; [exact Htr|].
  exact (replay_only_when_replayable _ _ _ _ _ _ _ _ _ _ Hrun Htr).
Defined.

(** *** What [recv_len] checks *)

(** C4.  [recv_len(length)] consumes one beat for each position of the slice
    [packet[:length]] and checks it.  A beat is consumed on the handshake:
    in every run, [m_axis_data] is sampled only right after [m_axis_valid]
    and [m_axis_ready] were sampled at the same clock edge and both were
    high, and [m_axis_last] right after it at that edge; the values sampled
    are those the device holds at that edge.  At position [i] the data of
    the beat must be [packet[i]], and its last flag 1 if [i] is the final
    index of the packet and 0 otherwise: a run that completes has consumed
    exactly these beats, in order; a run stopped earlier a prefix of them;
    and a run raises only [AssertionError], exactly when the value it
    sampled last differs from the expected one.  So any mismatch fails the
    test, at the beat where it shows. *)
Theorem recv_len_checks_every_beat env packet length fuel now tr o :
  run env fuel (recv_len packet length) now = (tr, o) ->
  let count := List.length (slice_to packet length) in
  let expected := flat_map seen_beat (take count (framed packet)) in
  match o with
  | Done _ _ _ => view (show egress) tr = expected
  | Raised e _ => e = AssertionError /\ mismatch is_saw (view (show egress) tr) expected
  | OutOfFuel => view (show egress) tr `prefix_of` expected
  end
  /\ (forall h0 t z h1, tr = h0 ++ Sample t buf.m_axis_data z :: h1 ->
        z = env t buf.m_axis_data
        /\ exists h,
             h0 = h ++ [Sample t buf.m_axis_valid (env t buf.m_axis_valid);
                        Sample t buf.m_axis_ready (env t buf.m_axis_ready)]
             /\ truthy (env t buf.m_axis_valid) = true
             /\ truthy (env t buf.m_axis_ready) = true)
  /\ (forall h0 t z h1, tr = h0 ++ Sample t buf.m_axis_last z :: h1 ->
        z = env t buf.m_axis_last
        /\ exists h, h0 = h ++ [Sample t buf.m_axis_data (env t buf.m_axis_data)]).
Proof.
  intros Hrun. cbn zeta. split.
  - rewrite <- beats_framed.
    exact (recv_len_follows packet length env fuel now tr o Hrun).
  - exact (beat_ok_taken _ env fuel now tr o (recv_len_beat_ok packet length) Hrun).
Qed.

Lemma recv_len_checks_every_beat_witness :
  run (reference 99 99 (range 10 14)) 40 (recv_len (range 10 14) 2) 1 = short_run
  /\ view (show egress) (fst short_run)
     = [Saw buf.m_axis_data 10; Saw buf.m_axis_last 0;
        Saw buf.m_axis_data 11; Saw buf.m_axis_last 0].
Proof.
  assert (Hrun : run (reference 99 99 (range 10 14)) 40 (recv_len (range 10 14) 2) 1
                 = short_run) by (vm_compute; reflexivity).
  split; [exact Hrun|].
  exact (proj1 (recv_len_checks_every_beat _ _ _ _ _ _ _ Hrun)).
Defined.

(** A beat that differs: the second data word is 12 where 11 is expected. *)
Example recv_len_mismatch_raises :
  run (bench (fun t s => match s with
                         | buf.m_axis_data => if (t =? 1)%nat then 10 else 12
                         | buf.m_axis_last => 0
                         | _ => 1
                         end)) 40 (recv_len (range 10 14) 2) 1
  = ([Sample 1 buf.m_axis_valid 1; Sample 1 buf.m_axis_ready 1;
      Sample 1 buf.m_axis_data 10; Sample 1 buf.m_axis_last 0;
      Wait 1 2 (RisingEdge buf.clk);
      Sample 2 buf.m_axis_valid 1; Sample 2 buf.m_axis_ready 1;
      Sample 2 buf.m_axis_data 12],
     Raised AssertionError 2).
Proof. vm_compute. reflexivity. Qed.

(** *** The pass after [done] *)



(** *** [done], once a packet *)

Lemma test_replay_follows_then in_ratio out_ratio rest :
  tracks (show egress) is_saw (for_each packets recv) rest ->
  tracks (show egress) is_saw (test_replay in_ratio out_ratio) (preamble ++ rest).
Proof.
  intros Hrecv. unfold test_replay, preamble.
  do 5 (apply (tracks_bind _ _ _ _ [_] _); [now apply tracks_set_value | intros _]).
  apply (tracks_bind _ _ _ _ [] _); [now apply tracks_await | intros _].
  apply (tracks_bind _ _ _ _ [] _); [now apply tracks_start | intros _].
  apply (tracks_bind _ _ _ _ [] _); [now apply tracks_await | intros _].
  apply (tracks_bind _ _ _ _ [] _); [now apply tracks_start | intros _].
  apply (tracks_bind _ _ _ _ [] _); [now apply tracks_start | intros _].
  exact Hrecv.
Qed.

Lemma test_replay_follows in_ratio out_ratio :
  tracks (show egress) is_saw (test_replay in_ratio out_ratio)
    (preamble ++ flat_map choreography packets).
Proof. apply test_replay_follows_then, tracks_for_each, recv_follows. Qed.

(** C7.  What the test shows of the egress side, assignments to [done] and
    beats received together, is in every run and against every device a
    prefix of: the five initial assignments, and then for each of the three
    packets in turn [done := 0], the first pass, a replay, the second pass,
    the wait if the packet fits the buffer, the second and last replay,
    [done := 1], and then every beat of the packet.  A run that completes
    shows exactly this.  So for each packet [done] is raised once, after the
    final replay of that packet; it is not assigned again while the beats of
    the packet are received, all of them after it; and it is lowered by the
    first action of the reception of the next packet.  The beats are
    received on the handshake: data is sampled right after [m_axis_valid]
    and [m_axis_ready] were sampled high at the same clock edge. *)
Theorem done_once_per_packet env in_ratio out_ratio fuel now tr o :
  run env fuel (test_replay in_ratio out_ratio) now = (tr, o) ->
  let replay :=
    [Saw buf.replayable 1; Drove buf.replay (PInt 1); Drove buf.replay (PInt 0)] in
  let pass (p : list Z) (n : Z) :=
    flat_map seen_beat (take (Z.to_nat n) (framed p)) in
  let reception (p : list Z) :=
    [Drove buf.done (PInt 0)]
    ++ pass p (Z.min (len p) 54 - 3) ++ replay
    ++ pass p (Z.min (len p) 54 - 2)
    ++ (if len p <=? 54 then [Paused 3 true] else []) ++ replay
    ++ [Drove buf.done (PInt 1)]
    ++ pass p (len p) in
  agree is_saw o (view (show egress) tr)
    ([Drove buf.s_axis_valid (PInt 0); Drove buf.s_axis_last (PInt 0);
      Drove buf.m_axis_ready (PInt 1); Drove buf.replay (PInt 0); Drove buf.done (PInt 0)]
     ++ reception (range 0 54) ++ reception (range 64 128) ++ reception (range 128 512))
  /\ (forall h0 t z h1, tr = h0 ++ Sample t buf.m_axis_data z :: h1 ->
        exists h,
          h0 = h ++ [Sample t buf.m_axis_valid (env t buf.m_axis_valid);
                     Sample t buf.m_axis_ready (env t buf.m_axis_ready)]
          /\ truthy (env t buf.m_axis_valid) = true
          /\ truthy (env t buf.m_axis_ready) = true).
Proof.
  intros Hrun replay pass reception. split.
  - apply test_replay_follows in Hrun.
    eapply eq_ind; [exact Hrun|]. vm_compute. reflexivity.
  - intros h0 t z h1 Htr.
    exact (proj2 (proj1 (beat_ok_taken _ env fuel now tr o
                           (test_replay_beat_ok in_ratio out_ratio) Hrun) h0 t z h1 Htr)).
Qed.

Lemma done_once_per_packet_witness :
  run whole_test 8000 (test_replay 1 4) 0 = whole_run
  /\ is_done (snd whole_run) = true
  /\ let replay :=
       [Saw buf.replayable 1; Drove buf.replay (PInt 1); Drove buf.replay (PInt 0)] in
     let pass (p : list Z) (n : Z) :=
       flat_map seen_beat (take (Z.to_nat n) (framed p)) in
     let reception (p : list Z) :=
       [Drove buf.done (PInt 0)]
       ++ pass p (Z.min (len p) 54 - 3) ++ replay
       ++ pass p (Z.min (len p) 54 - 2)
       ++ (if len p <=? 54 then [Paused 3 true] else []) ++ replay
       ++ [Drove buf.done (PInt 1)]
       ++ pass p (len p) in
     view (show egress) (fst whole_run)
     = [Drove buf.s_axis_valid (PInt 0); Drove buf.s_axis_last (PInt 0);
        Drove buf.m_axis_ready (PInt 1); Drove buf.replay (PInt 0); Drove buf.done (PInt 0)]
       ++ reception (range 0 54) ++ reception (range 64 128) ++ reception (range 128 512).
Proof.
  assert (Hrun : run whole_test 8000 (test_replay 1 4) 0 = whole_run)
    by (vm_compute; reflexivity).
  split; [exact Hrun|]. split; [reflexivity|].
  exact (proj1 (done_once_per_packet _ _ _ _ _ _ _ Hrun)).
Defined.

(** *** What [send_packet] puts on the ingress side *)

Lemma framed_snoc {A} (front : list A) (x : A) :
  framed (front ++ [x]) = map (fun v => (v, false)) front ++ [(x, true)].
Proof.
  unfold framed. rewrite imap_app. f_equal.
  - rewrite <- imap_const. apply imap_ext. intros i v Hi.
    apply lookup_lt_Some in Hi. unfold const. f_equal. apply bool_decide_eq_false_2.
    rewrite length_app. cbn. lia.
  - cbn. f_equal. f_equal. apply bool_decide_eq_true_2. rewrite length_app. cbn. lia.
Qed.

Section SendPacketFacts.
Context {H : Type} (signals : gmap string H) (clk data valid last ready : H).
Hypothesis Hclk : signals !! "clk"%string = Some clk.
Hypothesis Hdata : signals !! "data"%string = Some data.
Hypothesis Hvalid : signals !! "valid"%string = Some valid.
Hypothesis Hlast : signals !! "last"%string = Some last.
Hypothesis Hready : signals !! "ready"%string = Some ready.

(** With the five signals it needs, [send_packet] shows the steps of its
    elements in order, and raises only at an assignment that its signal
    rejects. *)
Lemma send_packet_shows packet ratio env fuel now tr o :
  run env fuel (send_packet signals packet ratio) now = (tr, o) ->
  let sent := flat_map (beat_steps clk data valid last ready (signals !! "err"%string) ratio)
                (lookahead packet) in
  offered env o (view (show ready_high) tr) sent
  /\ view (show ready_high) tr `prefix_of` sent
  /\ (is_done o = true -> view (show ready_high) tr = sent).
Proof.
  intros Hrun sent.
  pose proof (send_packet_sends signals clk data valid last ready
                Hclk Hdata Hvalid Hlast Hready packet ratio env fuel now tr o Hrun) as Ha.
  fold sent in Ha. split; [exact Ha|].
  destruct o as [r t f|e t|]; cbn [offered is_done] in Ha |- *.
  - rewrite Ha. now split.
  - split; [|discriminate]. destruct Ha as (s & v & rest & -> & _). now apply prefix_app_r.
  - split; [exact Ha | discriminate].
Qed.

End SendPacketFacts.

(** C8.  Sending a non-empty packet, [send_packet] assigns to the last
    signal, element by element, the flag of the packet as framed: false on
    every element but the final one, true on the final one.  (Each element
    shows as its data assignment, [valid := 1], [last := flag], ready seen
    high, [valid := 0], and the pause if [ratio] is not 1.)  The three
    packets of the test are not empty. *)
Theorem send_packet_marks_final_beat {H : Type} (signals : gmap string H)
    (clk data valid last ready : H) packet ratio env fuel now tr o :
  signals !! "clk"%string = Some clk ->
  signals !! "data"%string = Some data ->
  signals !! "valid"%string = Some valid ->
  signals !! "last"%string = Some last ->
  signals !! "ready"%string = Some ready ->
  packet <> [] ->
  run env fuel (send_packet signals packet ratio) now = (tr, o) ->
  let sent := flat_map (beat_steps clk data valid last ready (signals !! "err"%string) ratio)
                (framed packet) in
  (exists front final,
      framed packet = map (fun v => (v, false)) front ++ [(final, true)])
  /\ view (show ready_high) tr `prefix_of` sent
  /\ (is_done o = true -> view (show ready_high) tr = sent)
  /\ Forall (fun p => map PInt p <> []) packets.
Proof.
  intros Hclk Hdata Hvalid Hlast Hready Hne Hrun sent.
  destruct (send_packet_shows signals clk data valid last ready
              Hclk Hdata Hvalid Hlast Hready packet ratio env fuel now tr o Hrun)
    as (_ & Hpre & Hdone).
  rewrite lookahead_framed in Hpre, Hdone. repeat split; try assumption.
  - destruct packet as [|x front _] using rev_ind; [contradiction|].
    exists front, x. apply framed_snoc.
  - repeat constructor; discriminate.
Qed.

Lemma send_packet_marks_final_beat_witness :
  ingress_signals !! "clk"%string = Some buf.clk
  /\ ingress_signals !! "data"%string = Some buf.s_axis_data
  /\ ingress_signals !! "valid"%string = Some buf.s_axis_valid
  /\ ingress_signals !! "last"%string = Some buf.s_axis_last
  /\ ingress_signals !! "ready"%string = Some buf.s_axis_ready
  /\ [PInt 7; PInt 8] <> []
  /\ run always_ready 40 (send_packet ingress_signals [PInt 7; PInt 8] 1) 1 = two_beats_run
  /\ view (show ready_high) (fst two_beats_run)
     = [Drove buf.s_axis_data (PInt 7); Drove buf.s_axis_valid (PInt 1);
        Drove buf.s_axis_last (PBool false); Saw buf.s_axis_ready 1;
        Drove buf.s_axis_valid (PInt 0);
        Drove buf.s_axis_data (PInt 8); Drove buf.s_axis_valid (PInt 1);
        Drove buf.s_axis_last (PBool true); Saw buf.s_axis_ready 1;
        Drove buf.s_axis_valid (PInt 0)].
Proof.
  assert (Hrun : run always_ready 40 (send_packet ingress_signals [PInt 7; PInt 8] 1) 1
                 = two_beats_run) by (vm_compute; reflexivity).
  assert (Hne : [PInt 7; PInt 8] <> []) by discriminate.
  repeat (split; [first [exact Hrun | exact Hne | vm_compute; reflexivity]|]).
  exact (proj1 (proj2 (proj2
    (send_packet_marks_final_beat ingress_signals buf.clk buf.s_axis_data buf.s_axis_valid
       buf.s_axis_last buf.s_axis_ready [PInt 7; PInt 8] 1 always_ready 40 1 _ _
       eq_refl eq_refl eq_refl eq_refl eq_refl Hne Hrun))) eq_refl).
Defined.

(** *** Error beats *)

(** C9, as amended.  What [send_packet] assigns for an element, before it
    raises valid: with an ['err'] signal in the dict, [data := 0] and
    [err := 1] if the element is [None], and [data := element], [err := 0]
    otherwise; without one, [data := element] with no test on the element.
    The assignments of all elements follow one another in the order of the
    packet, each with the rest of its beat: a run has made a prefix of them,
    a completed run all of them.  An assignment the signal refuses raises
    instead of driving it: a run raises only at the assignment that comes
    next, and raises what the signal raises for that value, [TypeError] for
    [None] and [OverflowError] for an int too wide; every value a run has
    driven was one its signal takes.  So with ['err'] no [None] reaches a
    signal and a run raises at most [OverflowError], and without ['err'] a
    [None] element is not driven: the run raises [TypeError] there. *)
Theorem send_packet_error_beats {H : Type} (signals : gmap string H)
    (clk data valid last ready : H) packet ratio env fuel now tr o :
  signals !! "clk"%string = Some clk ->
  signals !! "data"%string = Some data ->
  signals !! "valid"%string = Some valid ->
  signals !! "last"%string = Some last ->
  signals !! "ready"%string = Some ready ->
  run env fuel (send_packet signals packet ratio) now = (tr, o) ->
  let sent :=
    flat_map (fun '(val, flag) =>
        match signals !! "err"%string with
        | Some err =>
            match val with
            | PNone => [Drove data (PInt 0); Drove err (PInt 1)]
            | _ => [Drove data val; Drove err (PInt 0)]
            end
        | None => [Drove data val]
        end
        ++ [Drove valid (PInt 1); Drove last (PBool flag); Saw ready 1;
            Drove valid (PInt 0)]
        ++ (if negb (ratio =? 1) then [Paused (ratio - 1) false] else []))
      (lookahead packet) in
  view (show ready_high) tr `prefix_of` sent
  /\ (is_done o = true -> view (show ready_high) tr = sent)
  /\ (forall e t, o = Raised e t ->
        exists s v rest,
          sent = view (show ready_high) tr ++ Drove s v :: rest
          /\ rejects (width env s) v = Some e)
  /\ (forall t s v, In (Drive t s v) tr -> rejects (width env s) v = None)
  /\ (forall e t, o = Raised e t ->
        match signals !! "err"%string with
        | Some _ => e = OverflowError
        | None => e = OverflowError \/ (e = TypeError /\ In PNone packet)
        end).
Proof.
  intros Hclk Hdata Hvalid Hlast Hready Hrun sent.
  pose proof (send_packet_shows signals clk data valid last ready
                Hclk Hdata Hvalid Hlast Hready packet ratio env fuel now tr o Hrun) as Hs.
  cbn zeta in Hs.
  assert (Heq : sent = flat_map (beat_steps clk data valid last ready
                                   (signals !! "err"%string) ratio) (lookahead packet)).
  { unfold sent. apply flat_map_ext. now intros [val flag]. }
  rewrite Heq. destruct Hs as (Hoff & Hpre & Hdone).
  assert (Hraise : forall e t, o = Raised e t ->
            exists s v rest,
              flat_map (beat_steps clk data valid last ready
                          (signals !! "err"%string) ratio) (lookahead packet)
              = view (show ready_high) tr ++ Drove s v :: rest
              /\ rejects (width env s) v = Some e).
  { intros e t ->. exact Hoff. }
  split; [exact Hpre|]. split; [exact Hdone|]. split; [exact Hraise|].
  split; [exact (run_drives env fuel _ now tr o Hrun)|].
  intros e t Ho. destruct (Hraise e t Ho) as (s & v & rest & Hsent & Hrej).
  assert (Hin : In (Drove s v)
            (flat_map (beat_steps clk data valid last ready
                         (signals !! "err"%string) ratio) (lookahead packet))).
  { rewrite Hsent, in_app_iff. right. now left. }
  apply in_flat_map in Hin as ([val flag] & Hval & Hin).
  assert (Hpacket : In val packet).
  { exact (lookahead_In _ _ _ Hval). }
  unfold beat_steps, data_drives in Hin. cbn [fst snd] in Hin.
  destruct v as [| z | b]; cbn [rejects] in Hrej.
  - injection Hrej as <-.
    destruct (signals !! "err"%string) as [x|].
    + exfalso. destruct val, (negb (ratio =? 1)); cbn in Hin; intuition discriminate.
    + right. split; [reflexivity|].
      destruct val; [exact Hpacket | exfalso ..];
        destruct (negb (ratio =? 1)); cbn in Hin; intuition discriminate.
  - destruct (accepts (width env s) z); [discriminate|]. injection Hrej as <-.
    destruct (signals !! "err"%string); [reflexivity | now left].
  - discriminate.
Qed.

Lemma send_packet_error_beats_witness :
  err_signals !! "clk"%string = Some "clk"%string
  /\ err_signals !! "data"%string = Some "data"%string
  /\ err_signals !! "valid"%string = Some "valid"%string
  /\ err_signals !! "last"%string = Some "last"%string
  /\ err_signals !! "ready"%string = Some "ready"%string
  /\ run always_ready 60 (send_packet err_signals [PInt 5; PNone; PInt 6] 1) 1 = err_run
  /\ view (show ready_high) (fst err_run)
     = [Drove "data"%string (PInt 5); Drove "err"%string (PInt 0);
        Drove "valid"%string (PInt 1); Drove "last"%string (PBool false);
        Saw "ready"%string 1; Drove "valid"%string (PInt 0);
        Drove "data"%string (PInt 0); Drove "err"%string (PInt 1);
        Drove "valid"%string (PInt 1); Drove "last"%string (PBool false);
        Saw "ready"%string 1; Drove "valid"%string (PInt 0);
        Drove "data"%string (PInt 6); Drove "err"%string (PInt 0);
        Drove "valid"%string (PInt 1); Drove "last"%string (PBool true);
        Saw "ready"%string 1; Drove "valid"%string (PInt 0)].
Proof.
  assert (Hrun : run always_ready 60 (send_packet err_signals [PInt 5; PNone; PInt 6] 1) 1
                 = err_run) by (vm_compute; reflexivity).
  repeat (split; [first [exact Hrun | vm_compute; reflexivity]|]).
  exact (proj1 (proj2
    (send_packet_error_beats err_signals "clk"%string "data"%string "valid"%string
       "last"%string "ready"%string [PInt 5; PNone; PInt 6] 1 always_ready 60 1 _ _
       eq_refl eq_refl eq_refl eq_refl eq_refl Hrun)) eq_refl).
Defined.

(** C9 as it stands has data driven with the element unconditionally when
    there is no ['err'] signal.  It fails for the element [None]: the
    assignment raises [TypeError], and data is not driven at all. *)
Lemma none_without_err_not_driven :
  ~ (forall env val rest ratio fuel now tr o,
       run env (S fuel) (send_packet ingress_signals (val :: rest) ratio) now = (tr, o) ->
       In (Drive now buf.s_axis_data val) tr).
Proof.
  intros Hc.
  assert (Hrun : run always_ready 40 (send_packet ingress_signals [PNone] 1) 1 = none_run)
    by (vm_compute; reflexivity).
  exact (Hc _ _ _ _ _ _ _ _ Hrun).
Qed.

(** Without ['err'], sending [None] raises before anything is driven. *)
Example send_packet_none_without_err :
  run always_ready 40 (send_packet ingress_signals [PNone] 1) 1
  = ([], Raised TypeError 1).
Proof. vm_compute. reflexivity. Qed.

(** *** The valid/ready handshake on both sides *)

Lemma next_falling_odd t : Nat.odd (next_falling t) = true.
Proof.
  unfold next_falling. destruct (Nat.even t) eqn:He.
  - rewrite Nat.add_1_r, Nat.odd_succ. exact He.
  - replace (t + 2)%nat with (S (S t)) by lia. rewrite Nat.odd_succ_succ.
    now rewrite <- Nat.negb_even, He.
Qed.

(** C6, as amended.  Sender: in every run of [send_packet], complete or not,
    on distinct signals, (1) valid is assigned 1, or else 0, and 0 only as
    the action right after a sample of ready, taken at the same edge, that
    was high; (2) every assignment is the first action, or comes right after
    another assignment made at the same edge, or right after ready was
    sampled high at that edge, or right after the pause between two
    elements: once the sender has started to wait, it assigns nothing until
    it has seen ready high, so valid, data and last hold; (3) the sender
    samples ready only, and only at a falling edge, right after its wait for
    that edge: it never looks at ready at a rising edge; (4) each element in
    turn shows as its assignments, ready seen high once, and [valid := 0].
    Receiver: in every run of the test, [m_axis_data] is sampled only right
    after [m_axis_valid] and [m_axis_ready] were sampled at the same edge,
    and both were high. *)
Theorem handshake_obeyed :
  (forall (H : Type) (signals : gmap string H) (clk data valid last ready : H)
          packet ratio env fuel now tr o,
     signals !! "clk"%string = Some clk ->
     signals !! "data"%string = Some data ->
     signals !! "valid"%string = Some valid ->
     signals !! "last"%string = Some last ->
     signals !! "ready"%string = Some ready ->
     data <> valid -> last <> valid -> signals !! "err"%string <> Some valid ->
     run env fuel (send_packet signals packet ratio) now = (tr, o) ->
     (forall h0 t v h1, tr = h0 ++ Drive t valid v :: h1 ->
        v = PInt 1
        \/ (v = PInt 0
            /\ exists h, h0 = h ++ [Sample t ready (env t ready)]
                         /\ truthy (env t ready) = true))
     /\ (forall h0 t s v h1, tr = h0 ++ Drive t s v :: h1 ->
           h0 = [] \/ exists h b, h0 = h ++ [b] /\ settled ready t b)
     /\ (forall h0 t s z h1, tr = h0 ++ Sample t s z :: h1 ->
           s = ready /\ z = env t ready /\ Nat.odd t = true
           /\ exists h t0, h0 = h ++ [Wait t0 t (FallingEdge clk)])
     /\ view (show ready_high) tr
        `prefix_of` flat_map (beat_steps clk data valid last ready
                                (signals !! "err"%string) ratio) (lookahead packet)
     /\ (is_done o = true ->
         view (show ready_high) tr
         = flat_map (beat_steps clk data valid last ready
                       (signals !! "err"%string) ratio) (lookahead packet)))
  /\ (forall env in_ratio out_ratio fuel now tr o h0 t z h1,
        run env fuel (test_replay in_ratio out_ratio) now = (tr, o) ->
        tr = h0 ++ Sample t buf.m_axis_data z :: h1 ->
        exists h,
          h0 = h ++ [Sample t buf.m_axis_valid (env t buf.m_axis_valid);
                     Sample t buf.m_axis_ready (env t buf.m_axis_ready)]
          /\ truthy (env t buf.m_axis_valid) = true
          /\ truthy (env t buf.m_axis_ready) = true).
Proof.
  split.
  - intros H signals clk data valid last ready packet ratio env fuel now tr o
      Hclk Hdata Hvalid Hlast Hready Hdv Hlv Hev Hrun.
    destruct (send_packet_guard signals clk data valid last ready
                Hclk Hdata Hvalid Hlast Hready (conj Hdv (conj Hlv Hev)) packet ratio
                env fuel now [] tr o (or_introl eq_refl) (safe_nil _) Hrun) as [Hsafe _].
    cbn [app] in Hsafe.
    pose proof (run_samples env fuel _ now tr o Hrun) as Hval.
    split; [|split; [|split]].
    + intros h0 t v h1 Htr.
      destruct (safe_split _ _ _ _ _ Hsafe Htr) as [Hg _].
      destruct (Hg t v eq_refl) as [->|[-> (h & z & -> & Hz)]]; [now left | right].
      split; [reflexivity|].
      assert (z = env t ready) as ->.
      { apply Hval. rewrite Htr, !in_app_iff. left. right. now left. }
      now exists h.
    + intros h0 t s v h1 Htr.
      destruct (safe_split _ _ _ _ _ Hsafe Htr) as (_ & Hg & _). exact (Hg t s v eq_refl).
    + intros h0 t s z h1 Htr.
      destruct (safe_split _ _ _ _ _ Hsafe Htr) as (_ & _ & Hg).
      destruct (Hg t s z eq_refl) as (-> & h & t0 & -> & Ht).
      split; [reflexivity|]. split.
      { apply Hval. rewrite Htr, !in_app_iff. right. now left. }
      split; [rewrite Ht; apply next_falling_odd | now exists h, t0].
    + exact (proj2 (send_packet_shows signals clk data valid last ready
                Hclk Hdata Hvalid Hlast Hready packet ratio env fuel now tr o Hrun)).
  - intros env in_ratio out_ratio fuel now tr o h0 t z h1 Hrun Htr.
    exact (proj2 (proj1 (beat_ok_taken _ env fuel now tr o
                           (test_replay_beat_ok in_ratio out_ratio) Hrun) h0 t z h1 Htr)).
Qed.

Lemma handshake_obeyed_witness :
  (ingress_signals !! "clk"%string = Some buf.clk
   /\ ingress_signals !! "data"%string = Some buf.s_axis_data
   /\ ingress_signals !! "valid"%string = Some buf.s_axis_valid
   /\ ingress_signals !! "last"%string = Some buf.s_axis_last
   /\ ingress_signals !! "ready"%string = Some buf.s_axis_ready
   /\ buf.s_axis_data <> buf.s_axis_valid
   /\ buf.s_axis_last <> buf.s_axis_valid
   /\ ingress_signals !! "err"%string <> Some buf.s_axis_valid
   /\ run always_ready 40 (send_packet ingress_signals [PInt 7; PInt 8] 1) 1 = two_beats_run
   /\ fst two_beats_run
      = take 6 (fst two_beats_run)
        ++ Drive 3 buf.s_axis_valid (PInt 0) :: drop 7 (fst two_beats_run)
   /\ (PInt 0 = PInt 1
       \/ (PInt 0 = PInt 0
           /\ exists h,
                take 6 (fst two_beats_run)
                = h ++ [Sample 3 buf.s_axis_ready (always_ready 3%nat buf.s_axis_ready)]
                /\ truthy (always_ready 3%nat buf.s_axis_ready) = true)))
  /\ (run (reference 105 217 (range 0 54)) 280 (test_replay 1 1) 0 = replay_run
      /\ fst replay_run
         = take 13 (fst replay_run)
           ++ Sample 1 buf.m_axis_data 0 :: drop 14 (fst replay_run)
      /\ exists h,
           take 13 (fst replay_run)
           = h ++ [Sample 1 buf.m_axis_valid
                     (reference 105 217 (range 0 54) 1%nat buf.m_axis_valid);
                   Sample 1 buf.m_axis_ready
                     (reference 105 217 (range 0 54) 1%nat buf.m_axis_ready)]
           /\ truthy (reference 105 217 (range 0 54) 1%nat buf.m_axis_valid) = true
           /\ truthy (reference 105 217 (range 0 54) 1%nat buf.m_axis_ready) = true).
Proof.
  assert (Hsend : run always_ready 40 (send_packet ingress_signals [PInt 7; PInt 8] 1) 1
                  = two_beats_run) by (vm_compute; reflexivity).
  assert (Hs : fst two_beats_run
      = take 6 (fst two_beats_run)
        ++ Drive 3 buf.s_axis_valid (PInt 0) :: drop 7 (fst two_beats_run))
    by (vm_compute; reflexivity).
  assert (Hrecv : run (reference 105 217 (range 0 54)) 280 (test_replay 1 1) 0 = replay_run)
    by (vm_compute; reflexivity).
  assert (Hr : fst replay_run
         = take 13 (fst replay_run)
           ++ Sample 1 buf.m_axis_data 0 :: drop 14 (fst replay_run))
    by (vm_compute; reflexivity).
  assert (Hdv : buf.s_axis_data <> buf.s_axis_valid) by discriminate.
  assert (Hlv : buf.s_axis_last <> buf.s_axis_valid) by discriminate.
  assert (Hev : ingress_signals !! "err"%string <> Some buf.s_axis_valid)
    by (vm_compute; discriminate).
  split.
  - repeat (split; [first [exact Hsend | exact Hs | exact Hdv | exact Hlv | exact Hev
                          | vm_compute; reflexivity]|]).
    exact (proj1 (proj1 handshake_obeyed _ ingress_signals buf.clk buf.s_axis_data
                   buf.s_axis_valid buf.s_axis_last buf.s_axis_ready _ _ _ _ _ _ _
                   eq_refl eq_refl eq_refl eq_refl eq_refl Hdv Hlv Hev Hsend) _ _ _ _ Hs).
  - split; [exact Hrecv|]. split; [exact Hr|].
    exact (proj2 handshake_obeyed _ _ _ _ _ _ _ _ _ _ _ Hrecv Hr).
Defined.

(** C6 as it stands concludes that each element is transferred exactly once.
    A transfer takes a rising edge at which valid and ready are both high.
    The sender looks at ready at falling edges only; it takes valid back
    once it has seen ready high there, whatever ready was at the rising edge
    before.  Against a buffer whose ready is low up to the rising edge 2 and
    high from the falling edge 3 on, the sender raises valid at edge 1 and
    takes it back at edge 3: the element is withdrawn, and there was no
    rising edge in between at which ready was high. *)
Lemma element_withdrawn_untransferred :
  ~ (forall env packet ratio fuel now tr o h0 t h1,
       run env fuel (send_packet ingress_signals packet ratio) now = (tr, o) ->
       tr = h0 ++ Drive t buf.s_axis_valid (PInt 0) :: h1 ->
       exists t1 u,
         In (Drive t1 buf.s_axis_valid (PInt 1)) h0
         /\ (t1 < u < t)%nat /\ Nat.even u = true
         /\ truthy (env u buf.s_axis_ready) = true).
Proof.
  intros Hc.
  assert (Hrun : run late_ready 40 (send_packet ingress_signals [PInt 7] 1) 1
                 = late_ready_run) by (vm_compute; reflexivity).
  assert (Htr : fst late_ready_run
                = take 6 (fst late_ready_run)
                  ++ Drive 3 buf.s_axis_valid (PInt 0) :: drop 7 (fst late_ready_run))
    by (vm_compute; reflexivity).
  destruct (Hc _ _ _ _ _ _ _ _ _ _ Hrun Htr) as (t1 & u & _ & Hu & _ & Hready).
  clear Hrun Htr Hc. unfold late_ready, bench in Hready. cbn [value] in Hready.
  destruct (Nat.ltb_spec u 3) as [_|Hge]; [discriminate | lia].
Qed.

(** ** Runs that return *)

Section Returns.
Context {H : Type} (env : device H).
Abbreviation E := (tbE H).

Lemma returns_in_ret {R} (r : R) now : returns_in 0 env (Ret r : itree E R) now [] r now.
Proof. intros fuel. apply run_ret. Qed.

Lemma returns_in_bind {R T} (t : itree E R) (k : R -> itree E T)
    n1 n2 now tr1 r now1 tr2 s now2 :
  returns_in n1 env t now tr1 r now1 -> returns_in n2 env (k r) now1 tr2 s now2 ->
  returns_in (n1 + n2) env (ITree.bind t k) now (tr1 ++ tr2) s now2.
Proof.
  intros H1 H2 fuel. rewrite run_bind, <- Nat.add_assoc, H1. cbn [and_then]. now rewrite H2.
Qed.

Lemma returns_in_trigger {R} (e : E R) now tr now' x :
  perform env e now = (tr, inr (now', x)) ->
  returns_in 1 env (ITree.trigger e) now tr x now'.
Proof. intros He fuel. rewrite run_trigger, He. reflexivity. Qed.

Lemma returns_ret {R} (r : R) now : returns env (Ret r : itree E R) now r now.
Proof. exists 0%nat, []. apply returns_in_ret. Qed.

Lemma returns_bind {R T} (t : itree E R) (k : R -> itree E T) now r now1 s now2 :
  returns env t now r now1 -> returns env (k r) now1 s now2 ->
  returns env (ITree.bind t k) now s now2.
Proof.
  intros (n1 & tr1 & H1) (n2 & tr2 & H2). exists (n1 + n2)%nat, (tr1 ++ tr2).
  now apply (returns_in_bind _ _ _ _ _ _ r now1).
Qed.

Lemma returns_trigger {R} (e : E R) now tr now' x :
  perform env e now = (tr, inr (now', x)) -> returns env (ITree.trigger e) now x now'.
Proof. intros He. exists 1%nat, tr. now apply returns_in_trigger. Qed.

Lemma returns_iter_again {I R} (body : I -> itree E (I + R)) i i' now now1 r now2 :
  returns env (body i) now (inl i') now1 ->
  returns env (ITree.iter body i') now1 r now2 ->
  returns env (ITree.iter body i) now r now2.
Proof.
  intros (n1 & tr1 & H1) (n2 & tr2 & H2). exists (n1 + S n2)%nat, (tr1 ++ tr2).
  intros fuel. rewrite run_iter, <- Nat.add_assoc, H1. cbn [and_then Nat.add].
  now rewrite H2.
Qed.

Lemma returns_iter_done {I R} (body : I -> itree E (I + R)) i now r now1 :
  returns env (body i) now (inr r) now1 ->
  returns env (ITree.iter body i) now r now1.
Proof.
  intros (n1 & tr1 & H1). exists n1, tr1.
  intros fuel. rewrite run_iter, H1. cbn [and_then]. now rewrite app_nil_r.
Qed.

End Returns.

(** ** Runs that stall *)

Section Stalls.
Context {H : Type} (env : device H).
Abbreviation E := (tbE H).

Lemma run_unfold {R} (t : itree E R) fuel now :
  run env fuel t now
  = match observe t with
    | RetF r => ([], Done r now fuel)
    | TauF t' =>
        match fuel with
        | O => ([], OutOfFuel)
        | S f => run env f t' now
        end
    | VisF e k =>
        match perform env e now with
        | (tr, inl err) => (tr, Raised err now)
        | (tr, inr (now', x)) =>
            match fuel with
            | O => ([], OutOfFuel)
            | S f => let '(tr', o) := run env f (k x) now' in (tr ++ tr', o)
            end
        end
    end.
Proof. now destruct fuel. Qed.

(** A run that has ended goes the same way on more fuel. *)
Lemma run_more {R} (t : itree E R) fuel now tr o d :
  run env fuel t now = (tr, o) -> o <> OutOfFuel ->
  run env (fuel + d) t now
  = (tr, match o with Done r now' f => Done r now' (f + d) | _ => o end).
Proof.
  revert t now tr o. induction fuel as [|f IH]; intros t now tr o;
    rewrite (run_unfold t), (run_unfold t (_ + d)); cbn [Nat.add].
  - destruct (observe t) as [r|u|X e k].
    + now intros [= <- <-] _.
    + now intros [= <- <-].
    + destruct (perform env e now) as [tr1 [err|[now' x]]]; now intros [= <- <-].
  - destruct (observe t) as [r|u|X e k].
    + now intros [= <- <-] _.
    + apply IH.
    + destruct (perform env e now) as [tr1 [err|[now' x]]]; [now intros [= <- <-]|].
      destruct (run env f (k x) now') as [tr2 o2] eqn:Hrun. intros [= <- <-] Ho.
      now rewrite (IH _ _ _ _ Hrun Ho).
Qed.

(** What a bounded run of a coroutine that returns can be. *)
Lemma returns_outcome {R} (t : itree E R) now r now' fuel :
  returns env t now r now' ->
  match snd (run env fuel t now) with
  | Done r1 now1 _ => r1 = r /\ now1 = now'
  | Raised _ _ => False
  | OutOfFuel => True
  end.
Proof.
  intros (n & tr & Hn). specialize (Hn fuel).
  destruct (run env fuel t now) as [tr1 o] eqn:Hrun. cbn.
  destruct o as [r1 now1 f1|e now1|]; [| |exact I].
  - apply (run_more _ _ _ _ _ n) in Hrun; [|discriminate].
    rewrite Nat.add_comm, Hn in Hrun. now injection Hrun as _ <- <- _.
  - apply (run_more _ _ _ _ _ n) in Hrun; [|discriminate].
    rewrite Nat.add_comm, Hn in Hrun. discriminate.
Qed.

Lemma stalls_bind_l {R T} (t : itree E R) (k : R -> itree E T) now :
  stalls env t now -> stalls env (ITree.bind t k) now.
Proof.
  intros Ht fuel. rewrite run_bind. specialize (Ht fuel).
  destruct (run env fuel t now) as [tr o]. cbn in Ht. now subst o.
Qed.

Lemma stalls_bind_r {R T} (t : itree E R) (k : R -> itree E T) now r now1 :
  returns env t now r now1 -> stalls env (k r) now1 -> stalls env (ITree.bind t k) now.
Proof.
  intros Ht Hk fuel. rewrite run_bind. pose proof (returns_outcome t now r now1 fuel Ht) as Ho.
  destruct (run env fuel t now) as [tr [r1 now2 f1|e now2|]]; cbn in Ho |- *.
  - destruct Ho as [-> ->]. specialize (Hk f1). now destruct (run env f1 (k r) now1).
  - contradiction.
  - reflexivity.
Qed.

(** A loop each turn of which asks for another never returns. *)
Lemma stalls_iter {I R} (body : I -> itree E (I + R)) (P : I -> nat -> Prop) :
  (forall i now, P i now ->
     exists i' now', returns env (body i) now (inl i') now' /\ P i' now') ->
  forall i now, P i now -> stalls env (ITree.iter body i) now.
Proof.
  intros Hbody i now HP fuel. revert i now HP.
  induction fuel as [fuel IH] using lt_wf_ind. intros i now HP.
  rewrite run_iter. destruct (Hbody i now HP) as (i' & now' & Hret & HP').
  pose proof (returns_outcome (body i) now (inl i') now' fuel Hret) as Ho.
  destruct (run env fuel (body i) now) as [tr [lr now1 f1|e now1|]] eqn:Hrun;
    cbn in Ho |- *; [|contradiction|reflexivity].
  destruct Ho as [-> ->]. apply run_fuel_le in Hrun.
  destruct f1 as [|f]; [reflexivity|].
  specialize (IH f ltac:(lia) i' now' HP').
  now destruct (run env f (ITree.iter body i') now').
Qed.

End Stalls.

(** ** What a coroutine can raise *)

Section RaisesOnly.
Context {H : Type} (P : device H -> exn -> Prop).
Abbreviation E := (tbE H).

Lemma raises_only_ret {R} (r : R) : raises_only P (Ret r : itree E R).
Proof. intros env fuel now tr e t'. now rewrite run_ret. Qed.

Lemma raises_only_raise {R} e : (forall env, P env e) -> raises_only P (raise e : itree E R).
Proof.
  intros He env fuel now tr e' t'. rewrite run_raise. intros [= _ <- _]. apply He.
Qed.

Lemma raises_only_bind {R T} (t : itree E R) (k : R -> itree E T) :
  raises_only P t -> (forall r, raises_only P (k r)) -> raises_only P (ITree.bind t k).
Proof.
  intros Ht Hk env fuel now tr e t'. rewrite run_bind.
  destruct (run env fuel t now) as [tr1 [r now1 f1|e1 now1|]] eqn:Hrun; cbn [and_then].
  - destruct (run env f1 (k r) now1) as [tr2 o2] eqn:Hrun2. intros [= _ ->].
    exact (Hk _ _ _ _ _ _ _ Hrun2).
  - intros [= _ <- _]. exact (Ht _ _ _ _ _ _ Hrun).
  - discriminate.
Qed.

Lemma raises_only_trigger {R} (e : E R) :
  (forall env now tr err, perform env e now = (tr, inl err) -> P env err) ->
  raises_only P (ITree.trigger e).
Proof.
  intros He env fuel now tr e' t'. rewrite run_trigger.
  destruct (perform env e now) as [tr1 [err|[now' x]]] eqn:Hp.
  - intros [= _ <- _]. exact (He _ _ _ _ Hp).
  - now destruct fuel.
Qed.

Lemma raises_only_iter {I R} (body : I -> itree E (I + R)) (i : I) :
  (forall i, raises_only P (body i)) -> raises_only P (ITree.iter body i).
Proof.
  intros Hbody env fuel. revert i. induction fuel as [fuel IH] using lt_wf_ind.
  intros i now tr e t'. rewrite run_iter.
  destruct (run env fuel (body i) now) as [tr1 [lr now1 f1|e1 now1|]] eqn:Hrun;
    cbn [and_then].
  - apply run_fuel_le in Hrun. destruct lr as [i'|r]; [|discriminate].
    destruct f1 as [|f]; [discriminate|].
    destruct (run env f (ITree.iter body i') now1) as [tr2 o2] eqn:Hrun2.
    intros [= _ ->]. eapply (IH f); [lia | exact Hrun2].
  - intros [= _ <- _]. exact (Hbody _ _ _ _ _ _ _ Hrun).
  - discriminate.
Qed.

Lemma raises_only_for_each {A} (l : list A) (body : A -> itree E unit) :
  (forall x, In x l -> raises_only P (body x)) -> raises_only P (for_each l body).
Proof.
  intros Hbody. induction l as [|x l IH]; cbn [for_each].
  - apply raises_only_ret.
  - apply raises_only_bind; [apply Hbody; now left | intros _].
    apply IH. intros y Hy. apply Hbody. now right.
Qed.

Lemma raises_only_getitem (signals : gmap string H) key :
  (signals !! key = None -> forall env, P env (KeyError key)) ->
  raises_only P (getitem signals key).
Proof.
  intros Hkey. unfold getitem. destruct (signals !! key).
  - apply raises_only_ret.
  - now apply raises_only_raise, Hkey.
Qed.

(** An assignment raises for the key the dict lacks, or what the signal
    raises for the value. *)
Lemma raises_only_assign (signals : gmap string H) key v :
  (signals !! key = None -> forall env, P env (KeyError key)) ->
  (forall h env e, signals !! key = Some h ->
     rejects (width env h) v = Some e -> P env e) ->
  raises_only P (assign signals key v).
Proof.
  intros Hkey Hrej. unfold assign, getitem. destruct (signals !! key) as [h|] eqn:Hk.
  - intros env fuel now tr e t'. rewrite run_bind_ret_l. unfold set_value.
    rewrite run_trigger. cbn [perform].
    destruct (rejects (width env h) v) as [err|] eqn:Hr.
    + intros [= _ <- _]. now apply (Hrej h).
    + now destruct fuel.
  - intros env fuel now tr e t'. rewrite run_bind, run_raise. cbn [and_then].
    intros [= _ <- _]. now apply Hkey.
Qed.

End RaisesOnly.

(** ** Runs that fail *)

Section FailsIn.
Context {H : Type} (P : exn -> Prop) (env : device H).
Abbreviation E := (tbE H).

Lemma fails_in_raise {R} e now : P e -> fails_in 0 P env (raise e : itree E R) now.
Proof.
  intros He fuel _. exists [], e, now. rewrite run_raise.
  split; [reflexivity|]. split; [exact He|]. now intros u s z.
Qed.

Lemma fails_in_le {R} (t : itree E R) n m now :
  (n <= m)%nat -> fails_in n P env t now -> fails_in m P env t now.
Proof. intros Hle Ht fuel Hfuel. apply Ht. lia. Qed.

Lemma fails_in_bind_l {R T} (t : itree E R) (k : R -> itree E T) n now :
  fails_in n P env t now -> fails_in n P env (ITree.bind t k) now.
Proof.
  intros Ht fuel Hfuel. destruct (Ht fuel Hfuel) as (tr & e & t' & Hrun & Hq).
  exists tr, e, t'. rewrite run_bind, Hrun. now split.
Qed.

Lemma fails_in_bind_r {R T} (t : itree E R) (k : R -> itree E T) n1 n2 now tr1 r now1 :
  returns_in n1 env t now tr1 r now1 -> (forall u s z, ~ In (Sample u s z) tr1) ->
  fails_in n2 P env (k r) now1 -> fails_in (n1 + n2) P env (ITree.bind t k) now.
Proof.
  intros Ht Hq1 Hk fuel Hfuel.
  replace fuel with (n1 + (fuel - n1))%nat by lia. rewrite run_bind, Ht. cbn [and_then].
  destruct (Hk (fuel - n1)%nat ltac:(lia)) as (tr & e & t' & Hrun & He & Hq).
  exists (tr1 ++ tr), e, t'. rewrite Hrun. split; [reflexivity|]. split; [exact He|].
  intros u s z. rewrite in_app_iff.
  intros [Hin|Hin]; [now apply (Hq1 u s z) | now apply (Hq u s z)].
Qed.

Lemma fails_in_iter {I R} (body : I -> itree E (I + R)) i n now :
  fails_in n P env (body i) now -> fails_in n P env (ITree.iter body i) now.
Proof.
  intros Hb fuel Hfuel. destruct (Hb fuel Hfuel) as (tr & e & t' & Hrun & Hq).
  exists tr, e, t'. rewrite run_iter, Hrun. now split.
Qed.

Context (signals : gmap string H).
Hypothesis Hmissing : forall key, signals !! key = None -> P (KeyError key).

(** An assignment of a value its signal takes is one step, or its lookup
    fails. *)
Lemma fails_in_assign_then {T} key v (k : unit -> itree E T) n now :
  (forall h, signals !! key = Some h -> rejects (width env h) v = None) ->
  (forall h, signals !! key = Some h -> fails_in n P env (k tt) now) ->
  fails_in (S n) P env (ITree.bind (assign signals key v) k) now.
Proof.
  intros Hv Hk. unfold assign, getitem. destruct (signals !! key) as [h|] eqn:Hkey.
  - apply (fails_in_bind_r _ _ 1 n now [Drive now h v] tt now).
    + apply (returns_in_bind _ _ _ 0 1 now [] h now); [apply returns_in_ret|].
      apply returns_in_trigger. cbn [perform]. now rewrite (Hv h).
    + intros u s z [[=]|[]].
    + now apply (Hk h).
  - apply (fails_in_le _ 0); [lia|]. do 2 apply fails_in_bind_l.
    now apply fails_in_raise, Hmissing.
Qed.

Lemma fails_in_await_then {T} (g : H -> trigger H) (k : unit -> itree E T) n now :
  (forall c, signals !! "clk"%string = Some c -> fails_in n P env (k tt) (resume (g c) now)) ->
  fails_in (S n) P env (ITree.bind (c <- getitem signals "clk" ;; await (g c)) k) now.
Proof.
  intros Hk. unfold getitem. destruct (signals !! "clk"%string) as [c|] eqn:Hkey.
  - apply (fails_in_bind_r _ _ 1 n now [Wait now (resume (g c) now) (g c)] tt
             (resume (g c) now)).
    + apply (returns_in_bind _ _ _ 0 1 now [] c now); [apply returns_in_ret|].
      now apply returns_in_trigger.
    + intros u s z [[=]|[]].
    + now apply (Hk c).
  - apply (fails_in_le _ 0); [lia|]. do 2 apply fails_in_bind_l.
    now apply fails_in_raise, Hmissing.
Qed.

End FailsIn.

(** ** Clock edges *)

Lemma next_rising_gt now : (now < next_rising now)%nat.
Proof. unfold next_rising. destruct (Nat.even now); lia. Qed.

Lemma next_falling_gt now : (now < next_falling now)%nat.
Proof. unfold next_falling. destruct (Nat.even now); lia. Qed.

Lemma resume_ge {H} (g : trigger H) now : (now <= resume g now)%nat.
Proof.
  destruct g as [c|c|c n rising|d]; cbn [resume].
  - pose proof (next_rising_gt now). lia.
  - pose proof (next_falling_gt now). lia.
  - induction (Z.to_nat n) as [|k IH]; [cbn; lia|]. rewrite Nat.iter_succ.
    destruct rising.
    + pose proof (next_rising_gt (Nat.iter k next_rising now)). lia.
    + pose proof (next_falling_gt (Nat.iter k next_falling now)). lia.
  - lia.
Qed.

Lemma next_rising_even now : Nat.even (next_rising now) = true.
Proof.
  unfold next_rising. destruct (Nat.even now) eqn:He.
  - replace (now + 2)%nat with (S (S now)) by lia. now rewrite Nat.even_succ_succ.
  - rewrite Nat.add_1_r, Nat.even_succ. now rewrite <- Nat.negb_even, He.
Qed.

Lemma next_falling_of_odd now : Nat.odd now = true -> next_falling now = (now + 2)%nat.
Proof. unfold next_falling. rewrite <- Nat.negb_odd. now intros ->. Qed.

Lemma next_rising_of_odd now : Nat.odd now = true -> next_rising now = (now + 1)%nat.
Proof. unfold next_rising. rewrite <- Nat.negb_odd. now intros ->. Qed.

Lemma next_falling_of_even now : Nat.even now = true -> next_falling now = (now + 1)%nat.
Proof. unfold next_falling. now intros ->. Qed.

Lemma odd_add_2 now k : Nat.odd (now + 2 * k) = Nat.odd now.
Proof. rewrite Nat.odd_add, Nat.odd_mul. cbn. now destruct (Nat.odd now). Qed.

Lemma iter_next_falling now k :
  Nat.odd now = true -> Nat.iter k next_falling now = (now + 2 * k)%nat.
Proof.
  intros Hodd. induction k as [|k IH]; [cbn; lia|]. rewrite Nat.iter_succ.
  rewrite IH, next_falling_of_odd; [lia|]. now rewrite odd_add_2.
Qed.

(** ** When [handshake] returns *)

Lemma handshake_cond_returns env now :
  returns env
    (v <- get_value buf.m_axis_valid ;;
     if negb (truthy v) then Ret true
     else r <- get_value buf.m_axis_ready ;; Ret (negb (truthy r)))
    now (negb (both_high env now)) now.
Proof.
  unfold both_high. eapply returns_bind; [now eapply returns_trigger|].
  destruct (truthy (env now buf.m_axis_valid)); cbn [negb andb]; [|apply returns_ret].
  eapply returns_bind; [now eapply returns_trigger | apply returns_ret].
Qed.

(** X1.  [handshake()] polls valid and ready at the edge it is called at and
    then at each rising edge, and returns at the first of these edges at
    which both are high: at once if they are high already, and otherwise
    after exactly as many rising-edge waits as there are polls that find one
    of them low.  It returns on every run with enough fuel, at that edge. *)
Theorem handshake_returns_at_first_beat env now k :
  (forall j, (j < k)%nat -> both_high env (Nat.iter j next_rising now) = false) ->
  both_high env (Nat.iter k next_rising now) = true ->
  returns env handshake now tt (Nat.iter k next_rising now).
Proof.
  revert now. induction k as [|k IH]; intros now Hlow Hhigh.
  - cbn in Hhigh |- *. apply returns_iter_done.
    eapply returns_bind; [apply handshake_cond_returns|].
    rewrite Hhigh. apply returns_ret.
  - rewrite Nat.iter_succ_r in Hhigh |- *.
    eapply returns_iter_again.
    + eapply returns_bind; [apply handshake_cond_returns|].
      pose proof (Hlow 0%nat ltac:(lia)) as H0. cbn in H0. rewrite H0. cbn [negb].
      eapply returns_bind; [now eapply returns_trigger | apply returns_ret].
    + apply IH; [|exact Hhigh]. intros j Hj.
      rewrite <- Nat.iter_succ_r. apply Hlow. lia.
Qed.

Lemma handshake_returns_at_first_beat_witness :
  returns late_beat handshake 1 tt 6.
Proof.
  apply (handshake_returns_at_first_beat late_beat 1 3).
  - intros j Hj. destruct j as [|[|[|j]]]; [reflexivity | reflexivity | reflexivity | lia].
  - reflexivity.
Defined.

Lemma handshake_stalls env now :
  (forall t, both_high env t = false) -> stalls env handshake now.
Proof.
  intros Hlow. apply (stalls_iter env _ (fun _ _ => True)); [|exact I].
  intros [] t _. exists tt, (next_rising t). split; [|exact I].
  eapply returns_bind; [apply handshake_cond_returns|].
  rewrite Hlow. cbn [negb].
  eapply returns_bind; [now eapply returns_trigger | apply returns_ret].
Qed.

Lemma stalls_after_set_value {T} env s v (k : unit -> coroutine T) now :
  rejects (width env s) v = None ->
  stalls env (k tt) now -> stalls env (ITree.bind (set_value s v) k) now.
Proof.
  intros Hv. apply stalls_bind_r. eapply returns_trigger. cbn [perform]. now rewrite Hv.
Qed.

Lemma stalls_after_start {T} env c (k : unit -> coroutine T) now :
  stalls env (k tt) now -> stalls env (ITree.bind (start c) k) now.
Proof. apply stalls_bind_r. now eapply returns_trigger. Qed.

Lemma stalls_after_await {T} env g (k : unit -> coroutine T) now :
  stalls env (k tt) (resume g now) -> stalls env (ITree.bind (await g) k) now.
Proof. apply stalls_bind_r. now eapply returns_trigger. Qed.

(** X2.  The test has no way out of a silent buffer: against a waveform on
    which valid and ready are never both high, [test_replay] neither
    completes nor fails.  However long it is run, it is still waiting in the
    first [handshake()]; only something outside it can end it. *)
Theorem test_replay_waits_forever env in_ratio out_ratio fuel now :
  (forall t, both_high env t = false) ->
  snd (run env fuel (test_replay in_ratio out_ratio) now) = OutOfFuel.
Proof.
  intros Hlow. revert fuel. change (stalls env (test_replay in_ratio out_ratio) now).
  unfold test_replay.
  do 5 (apply stalls_after_set_value; [reflexivity|]). apply stalls_after_await.
  apply stalls_after_start, stalls_after_await. do 2 apply stalls_after_start.
  unfold packets. cbn [for_each]. apply stalls_bind_l.
  unfold recv. apply stalls_after_set_value; [reflexivity|]. apply stalls_bind_l.
  unfold recv_len.
  assert (Hs : exists x l, enumerate (slice_to (range 0 54)
                 (Z.min (len (range 0 54)) BUF_SIZE - 3)) = x :: l)
    by (vm_compute; eauto).
  destruct Hs as ([i val] & l & ->). cbn [for_each].
  do 2 apply stalls_bind_l. now apply handshake_stalls.
Qed.

Lemma test_replay_waits_forever_witness :
  snd (run never_beat 1000 (test_replay 1 4) 0) = OutOfFuel.
Proof. apply (test_replay_waits_forever never_beat 1 4 1000 0). reflexivity. Defined.

(** ** The replay pulse *)

Section PulseGuard.
Abbreviation ok := (allowed pulse_guard).

Lemma handshake_pulse_ok : ok handshake.
Proof.
  apply allowed_while.
  - apply allowed_bind; [now apply allowed_get_value|]. intros v.
    destruct (negb (truthy v)); [apply allowed_ret|].
    apply allowed_bind; [now apply allowed_get_value | intros r; apply allowed_ret].
  - now apply allowed_await.
Qed.

Lemma recv_len_pulse_ok packet length : ok (recv_len packet length).
Proof.
  apply allowed_for_each. intros [i val].
  apply allowed_bind; [apply handshake_pulse_ok | intros _].
  apply allowed_bind; [|intros _].
  { apply allowed_bind; [now apply allowed_get_value | intros d; apply allowed_py_assert]. }
  apply allowed_bind; [|intros _].
  { apply allowed_bind; [now apply allowed_get_value | intros d; apply allowed_py_assert]. }
  now apply allowed_await.
Qed.

Lemma restart_pulse_ok : ok restart.
Proof.
  apply (triple_bind _ _ (fun _ now _ => Nat.odd now = true)).
  { apply triple_await. intros now h _ _. split; [easy | apply next_falling_odd]. }
  intros _. apply (triple_bind _ _ (fun _ now _ => Nat.odd now = true)).
  { apply (triple_bind _ _ (fun _ now _ => Nat.odd now = true)).
    - apply triple_get_value. now intros now h z Hodd _.
    - intros z. eapply triple_conseq; [apply triple_py_assert | intros t h Hp; exact Hp |].
      now intros r t h [_ Hodd]. }
  intros _. apply (triple_bind _ _ (fun _ now h =>
    Nat.odd now = true /\ exists h0, h = h0 ++ [Drive now buf.replay (PInt 1)])).
  { apply triple_set_value. intros now h Hodd _. split; [easy|]. split; [exact Hodd|].
    now exists h. }
  intros _. apply (triple_bind _ _ (fun _ now h => exists h0 t0,
    h = h0 ++ [Drive t0 buf.replay (PInt 1); Wait t0 now (FallingEdge buf.clk)]
    /\ Nat.odd t0 = true /\ now = (t0 + 2)%nat)).
  { apply triple_await. intros now h [Hodd [h0 ->]] _. split; [easy|].
    exists h0, now. cbn [resume]. rewrite <- app_assoc.
    split; [reflexivity|]. split; [exact Hodd | now apply next_falling_of_odd]. }
  intros _. apply triple_set_value. intros now h Hpre _. split; [|exact I].
  intros t [= <-]. now right.
Qed.

Lemma recv_pulse_ok packet : ok (recv packet).
Proof.
  apply allowed_bind; [now apply allowed_set_value | intros _].
  apply allowed_bind; [apply recv_len_pulse_ok | intros _].
  apply allowed_bind; [apply restart_pulse_ok | intros _].
  apply allowed_bind; [apply recv_len_pulse_ok | intros _].
  apply allowed_bind; [|intros _].
  { destruct (len packet <=? BUF_SIZE); [now apply allowed_await | apply allowed_ret]. }
  apply allowed_bind; [apply restart_pulse_ok | intros _].
  apply allowed_bind; [now apply allowed_set_value | intros _].
  apply recv_len_pulse_ok.
Qed.

Lemma test_replay_pulse_ok in_ratio out_ratio :
  triple pulse_guard untouched (test_replay in_ratio out_ratio) (fun _ => anytime).
Proof.
  unfold test_replay.
  do 3 (apply (triple_bind _ _ (fun _ => untouched));
        [apply triple_set_value; intros now h Hpre _; split; [easy|];
         intros t' v; rewrite in_app_iff; intros [Hin|[[=]|[]]]; now apply (Hpre t' v)
        | intros _]).
  apply (triple_bind _ _ (fun _ => anytime)).
  { apply triple_set_value. intros now h Hpre _. split; [|exact I]. intros t _. now left. }
  intros _.
  repeat (apply allowed_bind;
          [first [now apply allowed_set_value | now apply allowed_await
                 | now apply allowed_start] | intros _]).
  apply allowed_for_each, recv_pulse_ok.
Qed.

End PulseGuard.

(** X3.  The replay pulse lasts one clock cycle.  In every run of the test,
    an assignment of 0 to [replay] is either the first assignment to
    [replay] at all (the initial one), or it comes right after the wait for
    a falling edge that itself comes right after an assignment of 1 to
    [replay]; the 1 was assigned at a falling edge and the 0 is assigned at
    the next one, two edges later.  Nothing else happens in between. *)
Theorem replay_pulse_one_cycle env in_ratio out_ratio fuel now tr o h0 t h1 :
  run env fuel (test_replay in_ratio out_ratio) now = (tr, o) ->
  tr = h0 ++ Drive t buf.replay (PInt 0) :: h1 ->
  (forall t' v, ~ In (Drive t' buf.replay v) h0)
  \/ exists h t0,
       h0 = h ++ [Drive t0 buf.replay (PInt 1); Wait t0 t (FallingEdge buf.clk)]
       /\ Nat.odd t0 = true /\ t = (t0 + 2)%nat.
Proof.
  intros Hrun Htr.
  assert (Hpre : untouched now []) by (intros t' v []).
  destruct (test_replay_pulse_ok in_ratio out_ratio env fuel now [] tr o Hpre
              (safe_nil _) Hrun) as [Hsafe _].
  exact (safe_split _ _ _ _ _ Hsafe Htr t eq_refl).
Qed.

Lemma replay_pulse_one_cycle_witness :
  run (reference 105 217 (range 0 54)) 280 (test_replay 1 1) 0 = replay_run
  /\ fst replay_run
     = take 270 (fst replay_run) ++ Drive 105 buf.replay (PInt 0) :: drop 271 (fst replay_run)
  /\ ((forall t' v, ~ In (Drive t' buf.replay v) (take 270 (fst replay_run)))
      \/ exists h t0,
           take 270 (fst replay_run)
           = h ++ [Drive t0 buf.replay (PInt 1); Wait t0 105 (FallingEdge buf.clk)]
           /\ Nat.odd t0 = true /\ 105%nat = (t0 + 2)%nat).
Proof.
  assert (Hrun : run (reference 105 217 (range 0 54)) 280 (test_replay 1 1) 0 = replay_run)
    by (vm_compute; reflexivity).
  assert (Htr : fst replay_run
     = take 270 (fst replay_run) ++ Drive 105 buf.replay (PInt 0) :: drop 271 (fst replay_run))
    by (vm_compute; reflexivity).
  split; [exact Hrun|]. split; [exact Htr|].
  exact (replay_pulse_one_cycle _ _ _ _ _ _ _ _ _ _ Hrun Htr).
Defined.

(** ** The edges at which beats are taken *)

Section OnceGuard.
Context (d : nat).
Abbreviation keeps t := (triple once_guard (consumed d) t (fun _ => consumed d)).

Lemma consumed_snoc now now' h a :
  (now <= now')%nat ->
  (forall t z, a <> Sample t buf.m_axis_data z) ->
  consumed d now h -> consumed d now' (h ++ [a]).
Proof.
  intros Hle Ha Hh t' z'. rewrite in_app_iff. intros [Hin|[Heq|[]]].
  - specialize (Hh t' z' Hin). lia.
  - now destruct (Ha t' z').
Qed.

Lemma keeps_set_value s v : keeps (set_value s v).
Proof.
  apply triple_set_value. intros now h Hc _. split; [easy|].
  now apply (consumed_snoc now now h).
Qed.

Lemma keeps_start c : keeps (start c).
Proof.
  apply triple_start. intros now h Hc _. split; [easy|].
  now apply (consumed_snoc now now h).
Qed.

Lemma keeps_get_value s : s <> buf.m_axis_data -> keeps (get_value s).
Proof.
  intros Hs. apply triple_get_value. intros now h z Hc _. split.
  - intros t z' [= _ -> _]. contradiction.
  - apply (consumed_snoc now now h); [lia | | exact Hc].
    intros t z' [= _ -> _]. contradiction.
Qed.

Lemma keeps_await g : keeps (await g).
Proof.
  apply triple_await. intros now h Hc _. split; [easy|].
  apply (consumed_snoc now (resume g now) h); [apply resume_ge | easy | exact Hc].
Qed.

Lemma keeps_ret {R} (r : R) : keeps (Ret r).
Proof.
  eapply triple_conseq; [apply triple_ret | intros t h Hp; exact Hp | now intros r' t h [_ Hc]].
Qed.

Lemma keeps_py_assert b : keeps (py_assert b).
Proof.
  eapply triple_conseq; [apply triple_py_assert | intros t h Hp; exact Hp|].
  now intros r' t h [_ Hc].
Qed.

Lemma keeps_bind {R T} (t : coroutine R) (k : R -> coroutine T) :
  keeps t -> (forall r, keeps (k r)) -> keeps (ITree.bind t k).
Proof. intros Ht Hk. exact (triple_bind once_guard _ _ _ t k Ht Hk). Qed.

Lemma keeps_handshake : keeps handshake.
Proof.
  apply (triple_iter _ (fun _ => consumed d)). intros _.
  apply (triple_bind _ _ (fun _ => consumed d)).
  - apply keeps_bind; [now apply keeps_get_value|]. intros v.
    destruct (negb (truthy v)); [apply keeps_ret|].
    apply keeps_bind; [now apply keeps_get_value | intros r; apply keeps_ret].
  - intros [|].
    + apply (triple_bind _ _ (fun _ => consumed d)); [apply keeps_await|].
      intros _. eapply triple_conseq; [apply triple_ret | intros t h Hp; exact Hp|].
      now intros lr t h [-> Hc].
    + eapply triple_conseq; [apply triple_ret | intros t h Hp; exact Hp|].
      now intros lr t h [-> Hc].
Qed.

End OnceGuard.

Section Once.
Abbreviation once t := (triple once_guard (consumed 0) t (fun _ => consumed 0)).

Lemma recv_len_once packet length : once (recv_len packet length).
Proof.
  apply triple_for_each. intros [i val].
  apply keeps_bind; [apply keeps_handshake | intros _].
  apply (triple_bind _ _ (fun _ => consumed 1)).
  { apply (triple_bind _ _ (fun _ => consumed 1)).
    - apply triple_get_value. intros now h z Hc _. split.
      + intros t z' [= <- _]. exact Hc.
      + intros t' z'. rewrite in_app_iff. intros [Hin|[[= <- _]|[]]]; [|lia].
        specialize (Hc t' z' Hin). lia.
    - intros v. apply keeps_py_assert. }
  intros _. apply (triple_bind _ _ (fun _ => consumed 1)).
  { apply keeps_bind; [now apply keeps_get_value | intros v; apply keeps_py_assert]. }
  intros _. apply triple_await. intros now h Hc _. split; [easy|].
  intros t' z'. rewrite in_app_iff. intros [Hin|[[=]|[]]].
  specialize (Hc t' z' Hin). cbn [resume]. pose proof (next_rising_gt now). lia.
Qed.

Lemma restart_once : once restart.
Proof.
  apply keeps_bind; [apply keeps_await | intros _].
  apply keeps_bind; [|intros _].
  { apply keeps_bind; [now apply keeps_get_value | intros v; apply keeps_py_assert]. }
  apply keeps_bind; [apply keeps_set_value | intros _].
  apply keeps_bind; [apply keeps_await | intros _].
  apply keeps_set_value.
Qed.

Lemma recv_once packet : once (recv packet).
Proof.
  apply keeps_bind; [apply keeps_set_value | intros _].
  apply keeps_bind; [apply recv_len_once | intros _].
  apply keeps_bind; [apply restart_once | intros _].
  apply keeps_bind; [apply recv_len_once | intros _].
  apply keeps_bind; [|intros _].
  { destruct (len packet <=? BUF_SIZE); [apply keeps_await | apply keeps_ret]. }
  apply keeps_bind; [apply restart_once | intros _].
  apply keeps_bind; [apply keeps_set_value | intros _].
  apply recv_len_once.
Qed.

Lemma test_replay_once in_ratio out_ratio : once (test_replay in_ratio out_ratio).
Proof.
  unfold test_replay.
  repeat (apply keeps_bind;
          [first [apply keeps_set_value | apply keeps_await | apply keeps_start]
          | intros _]).
  apply triple_for_each, recv_once.
Qed.

End Once.

Section RisingGuard.
Abbreviation G := rising_guard.

Lemma set_value_at_start s v Pre :
  triple G Pre (set_value s v) (fun _ => at_start).
Proof.
  apply triple_set_value. intros now h _ _. split; [now intros t z [=]|].
  right. now exists h, s, v.
Qed.

Lemma await_rising_at_start Pre :
  triple G Pre (await (RisingEdge buf.clk)) (fun _ => at_start).
Proof.
  apply triple_await. intros now h _ _. split; [now intros t z [=]|].
  left. apply next_rising_even.
Qed.

Lemma handshake_polled : triple G at_start handshake (fun _ => polled).
Proof.
  apply (triple_iter _ (fun _ => at_start)). intros _.
  apply (triple_bind _ _ (fun (b : bool) now h => b = false -> polled now h)).
  - apply (triple_bind _ _ (fun v now h =>
      exists hp, h = hp ++ [Sample now buf.m_axis_valid v] /\ at_start now hp)).
    + apply triple_get_value. intros now h z Hs _. split; [now intros t z' [=]|].
      now exists h.
    + intros v. destruct (truthy v) eqn:Hv; cbn [negb].
      * apply (triple_bind _ _ (fun r now h => exists hp,
          h = hp ++ [Sample now buf.m_axis_valid v; Sample now buf.m_axis_ready r]
          /\ at_start now hp)).
        -- apply triple_get_value. intros now h z (hp & -> & Hs) _.
           split; [now intros t z' [=]|]. exists hp. now rewrite <- app_assoc.
        -- intros r. eapply triple_conseq; [apply triple_ret | intros t h Hp; exact Hp |].
           intros b t h [-> (hp & -> & [Heven|(h0 & s & w & ->)])] _.
           ++ now left.
           ++ right. exists h0, s, w, v, r. now rewrite <- app_assoc.
      * eapply triple_conseq; [apply (triple_ret _ true anytime) | easy |].
        now intros b t h [-> _].
  - intros [|].
    + apply (triple_bind _ _ (fun _ => at_start)); [apply await_rising_at_start|].
      intros _. eapply triple_conseq; [apply triple_ret | intros t h Hp; exact Hp |].
      now intros lr t h [-> Hs].
    + eapply triple_conseq; [apply triple_ret | intros t h Hp; exact Hp |].
      intros lr t h [-> Hs]. now apply Hs.
Qed.

Lemma recv_len_rising packet length :
  triple G at_start (recv_len packet length) (fun _ => at_start).
Proof.
  apply triple_for_each. intros [i val].
  apply (triple_bind _ _ (fun _ => polled)); [apply handshake_polled | intros _].
  apply (triple_bind _ _ (fun _ => anytime)).
  { apply (triple_bind _ _ (fun _ => anytime)).
    - apply triple_get_value. intros now h z Hs _. split; [|exact I].
      intros t z' [= <- _]. exact Hs.
    - intros d. apply allowed_py_assert. }
  intros _. apply (triple_bind _ _ (fun _ => anytime)).
  { apply allowed_bind; [|intros d; apply allowed_py_assert].
    apply allowed_get_value. now intros h t z t' z' [=]. }
  intros _. apply await_rising_at_start.
Qed.

Lemma restart_rising Pre : triple G Pre restart (fun _ => at_start).
Proof.
  apply (triple_bind _ _ (fun _ => anytime)).
  { apply triple_await. intros now h _ _. split; [now intros t z [=] | exact I]. }
  intros _. apply (triple_bind _ _ (fun _ => anytime)).
  { apply allowed_bind; [|intros d; apply allowed_py_assert].
    apply allowed_get_value. now intros h t z t' z' [=]. }
  intros _. apply (triple_bind _ _ (fun _ => anytime)).
  { apply allowed_set_value. now intros h t t' z' [=]. }
  intros _. apply (triple_bind _ _ (fun _ => anytime)).
  { apply allowed_await. now intros h t t' t'' z' [=]. }
  intros _. apply set_value_at_start.
Qed.

Lemma recv_rising packet : allowed G (recv packet).
Proof.
  apply (triple_bind _ _ (fun _ => at_start)); [apply set_value_at_start | intros _].
  apply (triple_bind _ _ (fun _ => at_start)); [apply recv_len_rising | intros _].
  apply (triple_bind _ _ (fun _ => at_start)); [apply restart_rising | intros _].
  apply (triple_bind _ _ (fun _ => at_start)); [apply recv_len_rising | intros _].
  apply (triple_bind _ _ (fun _ => anytime)).
  { destruct (len packet <=? BUF_SIZE).
    - apply triple_await. intros now h _ _. split; [now intros t z [=] | exact I].
    - eapply triple_conseq; [apply (triple_ret _ _ anytime) | easy | easy]. }
  intros _.
  apply (triple_bind _ _ (fun _ => at_start)); [apply restart_rising | intros _].
  apply (triple_bind _ _ (fun _ => at_start)); [apply set_value_at_start | intros _].
  eapply triple_conseq; [apply recv_len_rising | intros t h Hp; exact Hp | easy].
Qed.

Lemma test_replay_rising in_ratio out_ratio : allowed G (test_replay in_ratio out_ratio).
Proof.
  unfold test_replay.
  repeat (apply allowed_bind;
          [first [now apply allowed_set_value | now apply allowed_await
                 | now apply allowed_start] | intros _]).
  apply allowed_for_each, recv_rising.
Qed.

End RisingGuard.

(** X4.  The edges at which beats are taken.  In every run of the test, each
    sample of [m_axis_data] is taken at a clock edge later than every edge
    at which [m_axis_data] was sampled before: once it has taken a beat the
    receiver waits for a rising edge before it samples again, also from one
    pass to the next.  And each sample is taken at a rising edge, or else it
    is the first of a pass: it follows the poll of valid and ready made
    right after an assignment ([done] or [replay]) at the edge of that
    assignment.  In the test that edge is a falling one, and the second
    sample of the pass is taken at the rising edge half a cycle later: the
    harness does not keep two samples a whole cycle apart, so a beat that
    the buffer holds for a cycle can be taken twice
    ([held_beat_taken_twice]). *)
Theorem data_sample_edges env in_ratio out_ratio fuel now tr o h0 t z h1 :
  run env fuel (test_replay in_ratio out_ratio) now = (tr, o) ->
  tr = h0 ++ Sample t buf.m_axis_data z :: h1 ->
  (forall t' z', In (Sample t' buf.m_axis_data z') h0 -> (t' < t)%nat)
  /\ (Nat.even t = true
      \/ exists h s v,
           h0 = h ++ [Drive t s v;
                      Sample t buf.m_axis_valid (env t buf.m_axis_valid);
                      Sample t buf.m_axis_ready (env t buf.m_axis_ready)]).
Proof.
  intros Hrun Htr. split.
  - assert (Hpre : consumed 0 now []) by (intros t' z' []).
    destruct (test_replay_once in_ratio out_ratio env fuel now [] tr o Hpre
                (safe_nil _) Hrun) as [Hsafe _].
    exact (safe_split _ _ _ _ _ Hsafe Htr t z eq_refl).
  - destruct (test_replay_rising in_ratio out_ratio env fuel now [] tr o I
                (safe_nil _) Hrun) as [Hsafe _].
    cbn [app] in Hsafe.
    destruct (safe_split _ _ _ _ _ Hsafe Htr t z eq_refl)
      as [Heven|(h & s & v & zv & zr & ->)]; [now left | right].
    pose proof (run_samples env fuel _ now tr o Hrun) as Hval.
    assert (zv = env t buf.m_axis_valid) as ->.
    { apply Hval. rewrite Htr, !in_app_iff. left. right. right. now left. }
    assert (zr = env t buf.m_axis_ready) as ->.
    { apply Hval. rewrite Htr, !in_app_iff. left. right. right. right. now left. }
    now exists h, s, v.
Qed.

Lemma data_sample_edges_witness :
  run (reference 105 217 (range 0 54)) 280 (test_replay 1 1) 0 = replay_run
  /\ fst replay_run
     = take 18 (fst replay_run) ++ Sample 2 buf.m_axis_data 1 :: drop 19 (fst replay_run)
  /\ In (Sample 1 buf.m_axis_data 0) (take 18 (fst replay_run))
  /\ (1 < 2)%nat.
Proof.
  assert (Hrun : run (reference 105 217 (range 0 54)) 280 (test_replay 1 1) 0 = replay_run)
    by (vm_compute; reflexivity).
  assert (Htr : fst replay_run
     = take 18 (fst replay_run) ++ Sample 2 buf.m_axis_data 1 :: drop 19 (fst replay_run))
    by (vm_compute; reflexivity).
  assert (Hin : In (Sample 1 buf.m_axis_data 0) (take 18 (fst replay_run)))
    by (apply (nth_error_In _ 13); reflexivity).
  split; [exact Hrun|]. split; [exact Htr|]. split; [exact Hin|].
  exact (proj1 (data_sample_edges _ _ _ _ _ _ _ _ _ _ _ Hrun Htr) _ _ Hin).
Defined.

(** A buffer that holds each beat from a falling edge over the next rising
    edge: [recv_len], called at the falling edge 1, takes the first beat at
    edge 1 and again at edge 2, and so passes on the packet [0; 0; 1; 2]
    though the buffer showed the beats 0, 1, 2. *)
Example held_beat_taken_twice :
  let held := bench (fun t s => match s with
                                | buf.m_axis_data => Z.of_nat ((t - 1) / 2)
                                | buf.m_axis_last => 0
                                | _ => 1
                                end) in
  let tr := fst (run held 40 (recv_len [0; 0; 1; 2; 9] 4) 1) in
  is_done (snd (run held 40 (recv_len [0; 0; 1; 2; 9] 4) 1)) = true
  /\ List.filter (fun a => match a with Sample _ buf.m_axis_data _ => true | _ => false end) tr
     = [Sample 1 buf.m_axis_data 0; Sample 2 buf.m_axis_data 0;
        Sample 4 buf.m_axis_data 1; Sample 6 buf.m_axis_data 2].
Proof. vm_compute. split; reflexivity. Qed.

(** ** What the receiver touches, and how the test starts *)

Section AllowedMore.
Context {H : Type} (P : action H -> Prop).
Abbreviation E := (tbE H).
Abbreviation ok := (allowed (fun _ a => P a)).

Lemma safe_Forall h : safe (fun _ a => P a) h -> Forall P h.
Proof.
  induction 1 as [|h a Hs IH Ha]; [constructor|].
  apply Forall_app. split; [exact IH | now constructor].
Qed.

Lemma allowed_Forall {R} (t : itree E R) env fuel now tr o :
  ok t -> run env fuel t now = (tr, o) -> Forall P tr.
Proof.
  intros Ht Hrun. destruct (Ht env fuel now [] tr o I (safe_nil _) Hrun) as [Hsafe _].
  exact (safe_Forall _ Hsafe).
Qed.

(** A lookup that fails leaves no action. *)
Lemma allowed_getitem_then {R} (signals : gmap string H) key (k : H -> itree E R) :
  (forall h, signals !! key = Some h -> ok (k h)) ->
  ok (ITree.bind (getitem signals key) k).
Proof.
  intros Hk. unfold getitem. destruct (signals !! key) as [h|] eqn:Hkey.
  - intros env fuel now hist tr o. rewrite run_bind_ret_l. now apply Hk.
  - intros env fuel now hist tr o _ Hs. rewrite run_bind, run_raise. cbn [and_then].
    intros [= <- <-]. rewrite app_nil_r. split; [exact Hs | discriminate].
Qed.

End AllowedMore.

Section Footprint.
Abbreviation ok := (allowed (fun _ a => receiver_action a = true)).

Lemma handshake_receiver_ok : ok handshake.
Proof.
  apply allowed_while.
  - apply allowed_bind; [now apply allowed_get_value|]. intros v.
    destruct (negb (truthy v)); [apply allowed_ret|].
    apply allowed_bind; [now apply allowed_get_value | intros r; apply allowed_ret].
  - now apply allowed_await.
Qed.

Lemma recv_len_receiver_ok packet length : ok (recv_len packet length).
Proof.
  apply allowed_for_each. intros [i val].
  apply allowed_bind; [apply handshake_receiver_ok | intros _].
  apply allowed_bind; [|intros _].
  { apply allowed_bind; [now apply allowed_get_value | intros d; apply allowed_py_assert]. }
  apply allowed_bind; [|intros _].
  { apply allowed_bind; [now apply allowed_get_value | intros d; apply allowed_py_assert]. }
  now apply allowed_await.
Qed.

Lemma restart_receiver_ok : ok restart.
Proof.
  apply allowed_bind; [now apply allowed_await | intros _].
  apply allowed_bind; [|intros _].
  { apply allowed_bind; [now apply allowed_get_value | intros d; apply allowed_py_assert]. }
  apply allowed_bind; [now apply allowed_set_value | intros _].
  apply allowed_bind; [now apply allowed_await | intros _].
  now apply allowed_set_value.
Qed.

Lemma recv_receiver_ok packet : ok (recv packet).
Proof.
  apply allowed_bind; [now apply allowed_set_value | intros _].
  apply allowed_bind; [apply recv_len_receiver_ok | intros _].
  apply allowed_bind; [apply restart_receiver_ok | intros _].
  apply allowed_bind; [apply recv_len_receiver_ok | intros _].
  apply allowed_bind; [|intros _].
  { destruct (len packet <=? BUF_SIZE); [now apply allowed_await | apply allowed_ret]. }
  apply allowed_bind; [apply restart_receiver_ok | intros _].
  apply allowed_bind; [now apply allowed_set_value | intros _].
  apply recv_len_receiver_ok.
Qed.

End Footprint.

(** X5.  [recv] keeps to its side of the buffer.  In every run, for every
    packet, it samples only [m_axis_valid], [m_axis_ready], [m_axis_data],
    [m_axis_last] and [replayable], assigns only [done] and [replay], waits
    only on edges of [buf.clk], and starts no coroutine.  In particular it
    never assigns a signal that the sender assigns or that the buffer
    drives. *)
Theorem recv_footprint env packet fuel now tr o :
  run env fuel (recv packet) now = (tr, o) ->
  Forall (fun a => receiver_action a = true) tr.
Proof. apply allowed_Forall, recv_receiver_ok. Qed.

Lemma recv_footprint_witness :
  run (reference 5 17 (range 10 14)) 200 (recv (range 10 14)) 1 = small_run
  /\ Forall (fun a => receiver_action a = true) (fst small_run).
Proof.
  assert (Hrun : run (reference 5 17 (range 10 14)) 200 (recv (range 10 14)) 1 = small_run)
    by (vm_compute; reflexivity).
  split; [exact Hrun|].
  exact (recv_footprint _ _ _ _ _ _ Hrun).
Defined.

Lemma run_after_event {H R T} env (e : tbE H R) (k : R -> itree (tbE H) T) a now' x
    fuel now tr o :
  perform env e now = ([a], inr (now', x)) ->
  run env fuel (ITree.bind (ITree.trigger e) k) now = (tr, o) ->
  (tr = [] /\ o = OutOfFuel)
  \/ exists fuel' tr', run env fuel' (k x) now' = (tr', o) /\ tr = a :: tr'.
Proof.
  intros He. rewrite run_bind, run_trigger, He.
  destruct fuel as [|f]; cbn [and_then]; [intros [= <- <-]; now left|].
  destruct (run env f (k x) now') as [tr' o'] eqn:Hrun. intros [= <- <-].
  right. now exists f, tr'.
Qed.

Lemma begins_cons {H} (rest_ok : list (action H) -> Prop) a l tr o :
  begins rest_ok l tr o -> begins rest_ok (a :: l) (a :: tr) o.
Proof.
  intros [[Hp ->]|(rest & -> & Hr)].
  - left. split; [now apply prefix_cons | reflexivity].
  - right. now exists rest.
Qed.

Lemma begins_nil {H} (rest_ok : list (action H) -> Prop) a l :
  begins rest_ok (a :: l) [] OutOfFuel.
Proof. left. split; [apply prefix_nil | reflexivity]. Qed.

(** X6.  How the test starts.  Every run of [test_replay] begins with, in
    this order: the five initial assignments ([s_axis_valid], [s_axis_last],
    [m_axis_ready], [replay], [done]), the 1-unit timer, the start of the
    clock (period 8), the wait for its first falling edge, the start of
    [ClockEnable] on [m_axis_ready] with [out_ratio], and the start of the
    sender with [in_ratio].  A run either stops inside this sequence, or goes
    through all of it and from then on does only what the receiver does.  So
    the clock is started before any of its edges is awaited, each of the
    three coroutines is started exactly once, and the test assigns the
    signals those coroutines drive only before it starts them. *)
Theorem test_replay_startup env in_ratio out_ratio fuel now tr o :
  run env fuel (test_replay in_ratio out_ratio) now = (tr, o) ->
  (tr `prefix_of` startup now in_ratio out_ratio /\ o = OutOfFuel)
  \/ exists rest,
       tr = startup now in_ratio out_ratio ++ rest
       /\ Forall (fun a => receiver_action a = true) rest.
Proof.
  unfold test_replay, set_value, await, start. intros Hrun.
  change (begins (Forall (fun a => receiver_action a = true))
            (startup now in_ratio out_ratio) tr o). unfold startup.
  do 10 (eapply run_after_event in Hrun; [|reflexivity];
         destruct Hrun as [[-> ->]|(? & ? & Hrun & ->)]; [apply begins_nil|];
         apply begins_cons).
  right. eexists. split; [reflexivity|].
  revert Hrun. apply allowed_Forall, allowed_for_each, recv_receiver_ok.
Qed.

Lemma test_replay_startup_witness :
  run (reference 105 217 (range 0 54)) 280 (test_replay 1 1) 0 = replay_run
  /\ ((fst replay_run `prefix_of` startup 0 1 1 /\ snd replay_run = OutOfFuel)
      \/ exists rest,
           fst replay_run = startup 0 1 1 ++ rest
           /\ Forall (fun a => receiver_action a = true) rest).
Proof.
  assert (Hrun : run (reference 105 217 (range 0 54)) 280 (test_replay 1 1) 0 = replay_run)
    by (vm_compute; reflexivity).
  split; [exact Hrun|].
  exact (test_replay_startup _ _ _ _ _ _ _ Hrun).
Defined.

(** ** Passes by length *)

Lemma first_pass_length {A} (packet : list A) :
  length (slice_to packet (Z.min (len packet) BUF_SIZE - 3)) = first_pass (length packet).
Proof.
  unfold slice_to, first_pass, len, BUF_SIZE.
  destruct (Z.ltb_spec (Z.min (Z.of_nat (length packet)) 54 - 3) 0);
    rewrite length_take; destruct (Nat.eqb_spec (length packet) 2); lia.
Qed.

Lemma second_pass_length {A} (packet : list A) :
  length (slice_to packet (Z.min (len packet) BUF_SIZE - 2)) = second_pass (length packet).
Proof.
  unfold slice_to, second_pass, len, BUF_SIZE.
  destruct (Z.ltb_spec (Z.min (Z.of_nat (length packet)) 54 - 2) 0);
    rewrite length_take; lia.
Qed.

Lemma first_pass_lt n : (0 < n)%nat -> (first_pass n < n)%nat.
Proof. unfold first_pass. destruct (Nat.eqb_spec n 2); lia. Qed.

Lemma second_pass_lt n : (0 < n)%nat -> (second_pass n < n)%nat.
Proof. unfold second_pass. lia. Qed.

(** X7.  What [recv] does with a packet of any length [n].  Before the first
    replay it takes the first [min(n, 54) - 3] beats, before the second the
    first [min(n, 54) - 2], never fewer than none; but for [n = 2] the first
    count is [-1], which as a Python slice bound keeps one element, so one
    beat is taken before the first replay and none before the second.  The
    3-cycle wait is made exactly when [n <= 54].  After [done] all [n] beats
    are taken.  Beats are those of the packet as framed. *)
Theorem recv_pass_lengths env packet fuel now tr o :
  run env fuel (recv packet) now = (tr, o) ->
  let n := length packet in
  agree is_saw o (view (show egress) tr)
    ([Drove buf.done (PInt 0)]
     ++ flat_map seen_beat (take (first_pass n) (framed packet))
     ++ [Saw buf.replayable 1; Drove buf.replay (PInt 1); Drove buf.replay (PInt 0)]
     ++ flat_map seen_beat (take (second_pass n) (framed packet))
     ++ (if (n <=? 54)%nat then [Paused 3 true] else [])
     ++ [Saw buf.replayable 1; Drove buf.replay (PInt 1); Drove buf.replay (PInt 0)]
     ++ [Drove buf.done (PInt 1)]
     ++ flat_map seen_beat (framed packet)).
Proof.
  intros Hrun n. apply recv_follows in Hrun. unfold choreography in Hrun.
  rewrite !beats_framed, first_pass_length, second_pass_length in Hrun.
  rewrite <- beats_framed, beats_all in Hrun.
  replace (n <=? 54)%nat with (len packet <=? BUF_SIZE); [exact Hrun|].
  unfold len, BUF_SIZE, n.
  destruct (Z.leb_spec (Z.of_nat (length packet)) 54), (Nat.leb_spec (length packet) 54);
    (reflexivity || lia).
Qed.

Lemma recv_pass_lengths_witness :
  run (reference 5 13 [10; 11]) 100 (recv [10; 11]) 1 = pair_run
  /\ is_done (snd pair_run) = true
  /\ view (show egress) (fst pair_run)
     = [Drove buf.done (PInt 0);
        Saw buf.m_axis_data 10; Saw buf.m_axis_last 0;
        Saw buf.replayable 1; Drove buf.replay (PInt 1); Drove buf.replay (PInt 0);
        Paused 3 true;
        Saw buf.replayable 1; Drove buf.replay (PInt 1); Drove buf.replay (PInt 0);
        Drove buf.done (PInt 1);
        Saw buf.m_axis_data 10; Saw buf.m_axis_last 0;
        Saw buf.m_axis_data 11; Saw buf.m_axis_last 1].
Proof.
  assert (Hrun : run (reference 5 13 [10; 11]) 100 (recv [10; 11]) 1 = pair_run)
    by (vm_compute; reflexivity).
  split; [exact Hrun|]. split; [reflexivity|].
  exact (recv_pass_lengths _ _ _ _ _ _ Hrun).
Defined.

Lemma take_framed_unflagged {A} (l : list A) c :
  (c < length l)%nat \/ l = [] ->
  Forall (fun b : A * bool => snd b = false) (take c (framed l)).
Proof.
  intros Hc. apply Forall_forall. intros [x b] Hin. cbn.
  apply list_elem_of_lookup in Hin as [i Hi].
  rewrite lookup_take in Hi. case_decide; [|discriminate].
  unfold framed in Hi. rewrite list_lookup_imap in Hi.
  destruct (l !! i) as [y|] eqn:Hl; [|discriminate]. injection Hi as _ <-.
  apply bool_decide_eq_false_2. destruct Hc as [Hc | ->]; [lia | discriminate].
Qed.

Lemma prefix_before {A} (d x : A) l1 l2 front back :
  l1 ++ x :: l2 `prefix_of` front ++ d :: back ->
  ~ In d l1 -> x <> d -> In x front.
Proof.
  revert l1. induction front as [|f front IH]; intros l1 Hp Hd Hx.
  - destruct l1 as [|y l1]; cbn in Hp.
    + apply prefix_cons_inv_1 in Hp. congruence.
    + apply prefix_cons_inv_1 in Hp. subst y. destruct Hd. now left.
  - destruct l1 as [|y l1]; cbn in Hp.
    + apply prefix_cons_inv_1 in Hp. now left.
    + right. apply prefix_cons_inv_2 in Hp. apply (IH l1 Hp); [|exact Hx].
      intros Hin. apply Hd. now right.
Qed.

(** X8.  Replay is only ever requested in mid-packet.  In a run of [recv]
    that has not failed, for every packet, each last flag sampled before
    [done] is raised was 0: the two passes that end in a replay stop short
    of the final beat, so a beat with last set that shows up before [done]
    fails the test. *)
Theorem no_last_flag_before_done env packet fuel now tr o pre z rest :
  run env fuel (recv packet) now = (tr, o) ->
  (forall e t, o <> Raised e t) ->
  view (show egress) tr = pre ++ Saw buf.m_axis_last z :: rest ->
  ~ In (Drove buf.done (PInt 1)) pre ->
  z = 0.
Proof.
  intros Hrun Hok Hview Hpre. apply recv_follows in Hrun. unfold choreography in Hrun.
  rewrite !beats_framed, first_pass_length, second_pass_length in Hrun.
  set (front := [Drove buf.done (PInt 0)]
     ++ flat_map seen_beat (take (first_pass (length packet)) (framed packet))
     ++ replay_pulse
     ++ flat_map seen_beat (take (second_pass (length packet)) (framed packet))
     ++ (if len packet <=? BUF_SIZE then [Paused 3 true] else [])
     ++ replay_pulse).
  assert (Hp : view (show egress) tr `prefix_of`
               front ++ Drove buf.done (PInt 1)
                 :: flat_map seen_beat
                      (take (length (slice_to packet (len packet))) (framed packet))).
  { unfold front. rewrite <- !app_assoc. cbn [app].
    destruct o as [r t f|e t|]; cbn in Hrun.
    - now rewrite Hrun.
    - now destruct (Hok e t).
    - exact Hrun. }
  rewrite Hview in Hp. apply prefix_before in Hp; [|exact Hpre|discriminate].
  assert (Hflag : forall c, (c < length packet)%nat \/ packet = [] ->
            In (Saw buf.m_axis_last z) (flat_map seen_beat (take c (framed packet))) ->
            z = 0).
  { intros c Hc Hin. apply in_flat_map in Hin as ([x b] & Hb & Hin).
    pose proof (take_framed_unflagged packet c Hc) as Hall.
    rewrite List.Forall_forall in Hall. specialize (Hall _ Hb). cbn in Hall. subst b.
    cbn in Hin. destruct Hin as [[=]|[[= <-]|[]]]. reflexivity. }
  unfold front in Hp. rewrite !in_app_iff in Hp.
  destruct Hp as [Hin|[Hin|[Hin|[Hin|[Hin|Hin]]]]].
  - now destruct Hin.
  - apply (Hflag (first_pass (length packet))); [|exact Hin].
    destruct packet; [now right | left; apply first_pass_lt; cbn; lia].
  - cbn in Hin. intuition discriminate.
  - apply (Hflag (second_pass (length packet))); [|exact Hin].
    destruct packet; [now right | left; apply second_pass_lt; cbn; lia].
  - destruct (len packet <=? BUF_SIZE); cbn in Hin; intuition discriminate.
  - cbn in Hin. intuition discriminate.
Qed.

Lemma no_last_flag_before_done_witness :
  run (reference 5 17 (range 10 14)) 200 (recv (range 10 14)) 1 = small_run
  /\ (forall e t, snd small_run <> Raised e t)
  /\ view (show egress) (fst small_run)
     = [Drove buf.done (PInt 0); Saw buf.m_axis_data 10]
       ++ Saw buf.m_axis_last 0 :: drop 3 (view (show egress) (fst small_run))
  /\ ~ In (Drove buf.done (PInt 1)) [Drove buf.done (PInt 0); Saw buf.m_axis_data 10]
  /\ 0 = 0.
Proof.
  assert (Hrun : run (reference 5 17 (range 10 14)) 200 (recv (range 10 14)) 1 = small_run)
    by (vm_compute; reflexivity).
  assert (Hok : forall e t, snd small_run <> Raised e t) by (intros e t; discriminate).
  assert (Hview : view (show egress) (fst small_run)
     = [Drove buf.done (PInt 0); Saw buf.m_axis_data 10]
       ++ Saw buf.m_axis_last 0 :: drop 3 (view (show egress) (fst small_run)))
    by (vm_compute; reflexivity).
  assert (Hpre : ~ In (Drove buf.done (PInt 1))
                     [Drove buf.done (PInt 0); Saw buf.m_axis_data 10])
    by (intros [[=]|[[=]|[]]]).
  split; [exact Hrun|]. split; [exact Hok|]. split; [exact Hview|]. split; [exact Hpre|].
  exact (no_last_flag_before_done _ _ _ _ _ _ _ _ _ Hrun Hok Hview Hpre).
Defined.

(** X9.  The whole test, end to end.  What [test_replay] shows is its five
    initial assignments and then the three packets received in order.  For
    [0..53]: 51 beats, replay, 52 beats, the 3-cycle wait, replay, [done],
    54 beats.  For [64..127] (64 elements, more than the buffer holds): 51
    beats, replay, 52 beats, no wait, replay, [done], 64 beats.  For
    [128..511]: 51 beats, replay, 52 beats, no wait, replay, [done], 384
    beats.  The last flag is expected on the final beat of each packet only.
    A completed run shows exactly this, any other a prefix of it, up to a
    differing sample on which it raises [AssertionError]. *)
Theorem test_replay_choreography env in_ratio out_ratio fuel now tr o :
  run env fuel (test_replay in_ratio out_ratio) now = (tr, o) ->
  let pulse := [Saw buf.replayable 1; Drove buf.replay (PInt 1); Drove buf.replay (PInt 0)] in
  agree is_saw o (view (show egress) tr)
    ([Drove buf.s_axis_valid (PInt 0); Drove buf.s_axis_last (PInt 0);
      Drove buf.m_axis_ready (PInt 1); Drove buf.replay (PInt 0); Drove buf.done (PInt 0)]
     ++ ([Drove buf.done (PInt 0)] ++ expect 0 51 53 ++ pulse ++ expect 0 52 53
         ++ [Paused 3 true] ++ pulse ++ [Drove buf.done (PInt 1)] ++ expect 0 54 53)
     ++ ([Drove buf.done (PInt 0)] ++ expect 64 51 63 ++ pulse ++ expect 64 52 63
         ++ pulse ++ [Drove buf.done (PInt 1)] ++ expect 64 64 63)
     ++ ([Drove buf.done (PInt 0)] ++ expect 128 51 383 ++ pulse ++ expect 128 52 383
         ++ pulse ++ [Drove buf.done (PInt 1)] ++ expect 128 384 383)).
Proof.
  intros Hrun pulse. apply test_replay_follows in Hrun.
  eapply eq_ind; [exact Hrun|]. vm_compute. reflexivity.
Qed.

Lemma test_replay_choreography_witness :
  run whole_test 8000 (test_replay 1 4) 0 = whole_run
  /\ is_done (snd whole_run) = true
  /\ let pulse :=
       [Saw buf.replayable 1; Drove buf.replay (PInt 1); Drove buf.replay (PInt 0)] in
     view (show egress) (fst whole_run)
     = [Drove buf.s_axis_valid (PInt 0); Drove buf.s_axis_last (PInt 0);
        Drove buf.m_axis_ready (PInt 1); Drove buf.replay (PInt 0); Drove buf.done (PInt 0)]
       ++ ([Drove buf.done (PInt 0)] ++ expect 0 51 53 ++ pulse ++ expect 0 52 53
           ++ [Paused 3 true] ++ pulse ++ [Drove buf.done (PInt 1)] ++ expect 0 54 53)
       ++ ([Drove buf.done (PInt 0)] ++ expect 64 51 63 ++ pulse ++ expect 64 52 63
           ++ pulse ++ [Drove buf.done (PInt 1)] ++ expect 64 64 63)
       ++ ([Drove buf.done (PInt 0)] ++ expect 128 51 383 ++ pulse ++ expect 128 52 383
           ++ pulse ++ [Drove buf.done (PInt 1)] ++ expect 128 384 383).
Proof.
  assert (Hrun : run whole_test 8000 (test_replay 1 4) 0 = whole_run)
    by (vm_compute; reflexivity).
  split; [exact Hrun|]. split; [reflexivity|].
  exact (test_replay_choreography _ _ _ _ _ _ _ Hrun).
Defined.

(** ** What the sender touches, raises and takes *)

Section SenderFootprint.
Context {H : Type} (signals : gmap string H).
Abbreviation ok := (allowed (fun _ a => sender_action signals a)).

Lemma assign_sender_ok key v :
  In key ["data"; "err"; "valid"; "last"]%string -> ok (assign signals key v).
Proof.
  intros Hin. apply allowed_getitem_then. intros h Hh.
  apply allowed_set_value. intros hist t. now exists key.
Qed.

Lemma send_packet_sender_ok packet ratio : ok (send_packet signals packet ratio).
Proof.
  apply allowed_for_each. intros [val lst].
  apply allowed_bind; [|intros _].
  { destruct (bool_decide _); [destruct val|];
      repeat (apply allowed_bind; [|intros _]); apply assign_sender_ok; cbn; auto. }
  apply allowed_bind; [apply assign_sender_ok; cbn; auto | intros _].
  apply allowed_bind; [apply assign_sender_ok; cbn; auto | intros _].
  apply allowed_bind; [|intros _].
  { apply allowed_getitem_then. intros c Hc. now apply allowed_await. }
  apply allowed_bind; [|intros _].
  { apply allowed_iter. intros _. apply allowed_bind; [|intros [|]; apply allowed_ret].
    apply allowed_bind; [|intros _].
    - apply allowed_getitem_then. intros c Hc. now apply allowed_await.
    - apply allowed_getitem_then. intros r Hr.
      apply allowed_bind; [now apply allowed_get_value | intros z; apply allowed_ret]. }
  apply allowed_bind; [apply assign_sender_ok; cbn; auto | intros _].
  destruct (negb (ratio =? 1)); [|apply allowed_ret].
  apply allowed_getitem_then. intros c Hc. now apply allowed_await.
Qed.

End SenderFootprint.

(** X10.  [send_packet] touches only the handles of the dict it is given,
    each in its role, whatever the dict and the packet: it assigns only the
    handles under ['data'], ['err'], ['valid'] and ['last'], samples only
    the one under ['ready'], waits only on edges of the one under ['clk'],
    and starts nothing.  It never assigns ['ready'] and never samples what
    it drives. *)
Theorem send_packet_footprint {H : Type} (signals : gmap string H)
    packet ratio env fuel now tr o :
  run env fuel (send_packet signals packet ratio) now = (tr, o) ->
  Forall (sender_action signals) tr.
Proof. apply (allowed_Forall (sender_action signals)), send_packet_sender_ok. Qed.

Lemma send_packet_footprint_witness :
  run always_ready 40 (send_packet ingress_signals [PInt 7; PInt 8] 1) 1 = two_beats_run
  /\ Forall (sender_action ingress_signals) (fst two_beats_run).
Proof.
  assert (Hrun : run always_ready 40 (send_packet ingress_signals [PInt 7; PInt 8] 1) 1
                 = two_beats_run) by (vm_compute; reflexivity).
  split; [exact Hrun|].
  exact (send_packet_footprint _ _ _ _ _ _ _ _ Hrun).
Defined.

Lemma send_packet_raises {H} (signals : gmap string H) packet ratio :
  raises_only (send_error signals packet) (send_packet signals packet ratio).
Proof.
  assert (Hreq : forall key, In key required ->
            signals !! key = None -> forall env, send_error signals packet env (KeyError key)).
  { intros key Hin Hkey env. now split. }
  assert (Hflag : forall key (v : pyval), In key required -> (v = PInt 0 \/ v = PInt 1 \/ exists b, v = PBool b) ->
            raises_only (send_error signals packet) (assign signals key v)).
  { intros key v Hin Hv. apply raises_only_assign; [now apply Hreq|].
    intros h env e _. now destruct Hv as [->|[->|[b ->]]]. }
  assert (Hget : forall key, In key required ->
            raises_only (send_error signals packet) (getitem signals key)).
  { intros key Hin. apply raises_only_getitem, Hreq, Hin. }
  assert (Hevent : forall R (e : tbE H R),
            (forall env now, exists p, snd (perform env e now) = inr p) ->
            raises_only (send_error signals packet) (ITree.trigger e)).
  { intros R e He. apply raises_only_trigger. intros env now tr err Hp.
    destruct (He env now) as [p Hq]. rewrite Hp in Hq. discriminate. }
  assert (Hword : forall z, In (PInt z) packet ->
            raises_only (send_error signals packet) (assign signals "data" (PInt z))).
  { intros z Hz. apply raises_only_assign; [apply Hreq; cbn; auto|].
    intros d env e Hd. cbn [rejects].
    destruct (accepts (width env d) z) eqn:Hacc; [discriminate|]. intros [= <-].
    now exists d, z. }
  apply raises_only_for_each. intros [val lst] Hin. apply lookahead_In in Hin.
  apply raises_only_bind; [|intros _].
  { destruct (signals !! "err"%string) as [e|] eqn:Herr.
    - rewrite bool_decide_eq_true_2 by eauto.
      assert (Herr' : forall v, (v = PInt 0 \/ v = PInt 1) ->
                raises_only (send_error signals packet) (assign signals "err" v)).
      { intros v Hv. apply raises_only_assign; [congruence|].
        intros h env x _. now destruct Hv as [->| ->]. }
      destruct val as [|z|b]; (apply raises_only_bind; [|intros _; apply Herr'; auto]).
      + apply Hflag; cbn; auto.
      + now apply Hword.
      + apply Hflag; cbn; eauto.
    - rewrite bool_decide_eq_false_2 by (now intros [x Hx]).
      destruct val as [|z|b].
      + apply raises_only_assign; [apply Hreq; cbn; auto|].
        intros d env e _ [= <-]. now split.
      + now apply Hword.
      + apply Hflag; cbn; eauto. }
  apply raises_only_bind; [apply Hflag; cbn; auto | intros _].
  apply raises_only_bind; [apply Hflag; cbn; eauto | intros _].
  apply raises_only_bind; [|intros _].
  { apply raises_only_bind; [apply Hget; cbn; auto | intros c].
    apply Hevent. now eexists. }
  apply raises_only_bind; [|intros _].
  { apply raises_only_iter. intros _.
    apply raises_only_bind; [|intros [|]; apply raises_only_ret].
    apply raises_only_bind; [|intros _].
    - apply raises_only_bind; [apply Hget; cbn; auto | intros c].
      apply Hevent. now eexists.
    - apply raises_only_bind; [apply Hget; cbn; auto 6 | intros r].
      apply raises_only_bind; [apply Hevent; now eexists | intros z; apply raises_only_ret]. }
  apply raises_only_bind; [apply Hflag; cbn; auto | intros _].
  destruct (negb (ratio =? 1)); [|apply raises_only_ret].
  apply raises_only_bind; [apply Hget; cbn; auto | intros c].
  apply Hevent. now eexists.
Qed.

(** X11.  What [send_packet] can raise, and when.  [KeyError], only for one
    of the keys ['data'], ['valid'], ['last'], ['clk'], ['ready'] that the
    dict does not hold; ['err'] is looked up only after it was found to be
    there.  [TypeError], only when the dict has no ['err'] and the packet
    holds a [None], which is then assigned to data as it is.
    [OverflowError], only for an int of the packet that the data signal is
    too narrow for.  It never raises [AssertionError].  So on a dict with
    the five keys, a packet of ints that fit the data signal is sent
    without an exception. *)
Theorem send_packet_exceptions {H : Type} (signals : gmap string H)
    packet ratio env fuel now tr e t :
  run env fuel (send_packet signals packet ratio) now = (tr, Raised e t) ->
  match e with
  | KeyError key =>
      In key ["data"; "valid"; "last"; "clk"; "ready"]%string /\ signals !! key = None
  | TypeError => signals !! "err"%string = None /\ In PNone packet
  | OverflowError =>
      exists d z, signals !! "data"%string = Some d /\ In (PInt z) packet
                  /\ accepts (width env d) z = false
  | AssertionError => False
  end.
Proof. exact (send_packet_raises signals packet ratio env fuel now tr e t). Qed.

Lemma send_packet_exceptions_witness :
  run always_ready 10 (send_packet broken_signals [PInt 1] 1) 1 = broken_run
  /\ broken_run = ([Drive 1 "data"%string (PInt 1)], Raised (KeyError "valid") 1)
  /\ In "valid"%string ["data"; "valid"; "last"; "clk"; "ready"]%string
  /\ broken_signals !! "valid"%string = None.
Proof.
  assert (Hrun : run always_ready 10 (send_packet broken_signals [PInt 1] 1) 1 = broken_run)
    by (vm_compute; reflexivity).
  split; [exact Hrun|]. split; [reflexivity|].
  exact (send_packet_exceptions broken_signals [PInt 1] 1 always_ready 10 1
           [Drive 1 "data"%string (PInt 1)] (KeyError "valid") 1 Hrun).
Defined.

(** A [None] without ['err'] raises [TypeError]; an int of ten bits on the
    nine-bit data signal raises [OverflowError]. *)
Example send_packet_raises_type_and_overflow :
  run late_ready 40 (send_packet ingress_signals [PInt 7; PNone] 1) 1
  = ([Drive 1 buf.s_axis_data (PInt 7); Drive 1 buf.s_axis_valid (PInt 1);
      Drive 1 buf.s_axis_last (PBool false);
      Wait 1 2 (RisingEdge buf.clk); Wait 2 3 (FallingEdge buf.clk);
      Sample 3 buf.s_axis_ready 1; Drive 3 buf.s_axis_valid (PInt 0)],
     Raised TypeError 3)
  /\ run late_ready 40 (send_packet ingress_signals [PInt 512] 1) 1
     = ([], Raised OverflowError 1).
Proof. split; vm_compute; reflexivity. Qed.

Lemma send_packet_fails_in {H} env (signals : gmap string H) val rest ratio key now :
  In key required -> signals !! key = None ->
  (forall d, signals !! "data"%string = Some d -> sendable signals env d val) ->
  fails_in 6 (fun e => exists key', e = KeyError key' /\ signals !! key' = None) env
    (send_packet signals (val :: rest) ratio) now.
Proof.
  intros Hin Hkey Hsend. unfold send_packet.
  set (P := fun e => exists key', e = KeyError key' /\ signals !! key' = None).
  assert (Hmissing : forall k, signals !! k = None -> P (KeyError k)).
  { intros k Hk. now exists k. }
  assert (Hl : exists lst l, lookahead (val :: rest) = (val, lst) :: l).
  { destruct rest as [|y l]; now eexists _, _. }
  destruct Hl as (lst & l & ->). cbn [for_each]. apply fails_in_bind_l.
  assert (Hfirst : forall T (k : unit -> itree (tbE H) T) n t,
            (forall h, signals !! "data"%string = Some h -> fails_in n P env (k tt) t) ->
            fails_in (2 + n) P env
              (ITree.bind
                 (if bool_decide (is_Some (signals !! "err"%string)) then
                    match val with
                    | PNone =>
                        assign signals "data" (PInt 0) ;;;
                        assign signals "err" (PInt 1)
                    | _ =>
                        assign signals "data" val ;;;
                        assign signals "err" (PInt 0)
                    end
                  else assign signals "data" val) k) t).
  { intros T k n t Hk. unfold sendable in Hsend.
    destruct (signals !! "err"%string) as [e|] eqn:Herr.
    - rewrite bool_decide_eq_true_2 by eauto.
      assert (Hboth : forall v w,
                (forall d, signals !! "data"%string = Some d ->
                   rejects (width env d) v = None) ->
                rejects (width env e) w = None ->
                fails_in (2 + n) P env
                  (ITree.bind (assign signals "data" v ;;; assign signals "err" w) k) t).
      { intros v w Hv Hw. unfold assign at 1 2, getitem.
        destruct (signals !! "data"%string) as [d|] eqn:Hd.
        - rewrite Herr.
          apply (fails_in_bind_r _ _ _ _ 2 n t [Drive t d v; Drive t e w] tt t).
          + apply (returns_in_bind _ _ _ 1 1 t [Drive t d v] tt t [Drive t e w]).
            * apply (returns_in_bind _ _ _ 0 1 t [] d t); [apply returns_in_ret|].
              apply returns_in_trigger. cbn [perform]. now rewrite (Hv d).
            * apply (returns_in_bind _ _ _ 0 1 t [] e t); [apply returns_in_ret|].
              apply returns_in_trigger. cbn [perform]. now rewrite Hw.
          + intros u s z [[=]|[[=]|[]]].
          + now apply (Hk d).
        - apply (fails_in_le _ _ _ 0); [lia|]. do 3 apply fails_in_bind_l.
          now apply fails_in_raise, Hmissing. }
      destruct val; apply Hboth; try reflexivity; exact Hsend.
    - rewrite bool_decide_eq_false_2 by (now intros [x Hx]).
      apply (fails_in_le _ _ _ (S n)); [lia|].
      apply (fails_in_assign_then P env signals Hmissing); [|exact Hk].
      intros d Hd. exact (Hsend d Hd). }
  apply (Hfirst _ _ 4%nat). intros d Hd.
  apply (fails_in_assign_then P env signals Hmissing); [reflexivity|]. intros v Hv.
  apply (fails_in_assign_then P env signals Hmissing); [reflexivity|]. intros la Hla.
  apply (fails_in_await_then P env signals Hmissing RisingEdge). intros c Hc.
  apply (fails_in_le _ _ _ 1); [lia|]. apply fails_in_bind_l.
  apply fails_in_iter, fails_in_bind_l.
  apply (fails_in_await_then P env signals Hmissing FallingEdge). intros c' _.
  assert (Hready : signals !! "ready"%string = None).
  { destruct Hin as [<-|[<-|[<-|[<-|[<-|[]]]]]]; congruence. }
  unfold getitem. rewrite Hready. apply fails_in_bind_l.
  now apply fails_in_raise, Hmissing.
Qed.

(** X12.  A dict that lacks one of the five keys makes [send_packet] fail on
    the first element of a packet, if that element is one the data signal
    takes (or a [None] to be sent as an error beat): within six steps it
    raises [KeyError] for a key the dict does not hold (the first one it
    needs and does not find), before it has sampled ready even once, so
    before any beat was transferred.  It does not hang, and it sends nothing
    of the rest of the packet.  (A first element that the data signal
    refuses raises [TypeError] or [OverflowError] instead, if ['data'] is
    there.) *)
Theorem send_packet_missing_signal {H : Type} (signals : gmap string H)
    val rest ratio key env fuel now :
  In key ["data"; "valid"; "last"; "clk"; "ready"]%string ->
  signals !! key = None ->
  (forall d, signals !! "data"%string = Some d -> sendable signals env d val) ->
  (6 <= fuel)%nat ->
  exists tr key' t,
    run env fuel (send_packet signals (val :: rest) ratio) now
    = (tr, Raised (KeyError key') t)
    /\ signals !! key' = None
    /\ forall u s z, ~ In (Sample u s z) tr.
Proof.
  intros Hin Hkey Hsend Hfuel.
  destruct (send_packet_fails_in env signals val rest ratio key now Hin Hkey Hsend
              fuel Hfuel) as (tr & e & t & Hrun & (key' & -> & Hkey') & Hq).
  now exists tr, key', t.
Qed.

Lemma send_packet_missing_signal_witness :
  In "ready"%string ["data"; "valid"; "last"; "clk"; "ready"]%string
  /\ broken_signals !! "ready"%string = None
  /\ (forall d, broken_signals !! "data"%string = Some d ->
        sendable broken_signals always_ready d (PInt 1))
  /\ (6 <= 10)%nat
  /\ exists tr key' t,
       run always_ready 10 (send_packet broken_signals [PInt 1] 1) 1
       = (tr, Raised (KeyError key') t)
       /\ broken_signals !! key' = None
       /\ forall u s z, ~ In (Sample u s z) tr.
Proof.
  assert (Hin : In "ready"%string ["data"; "valid"; "last"; "clk"; "ready"]%string)
    by (simpl; auto 6).
  assert (Hkey : broken_signals !! "ready"%string = None) by (vm_compute; reflexivity).
  assert (Hsend : forall d, broken_signals !! "data"%string = Some d ->
                    sendable broken_signals always_ready d (PInt 1))
    by (intros d _; vm_compute; reflexivity).
  assert (Hfuel : (6 <= 10)%nat) by lia.
  split; [exact Hin|]. split; [exact Hkey|]. split; [exact Hsend|]. split; [exact Hfuel|].
  exact (send_packet_missing_signal broken_signals (PInt 1) [] 1 "ready" always_ready 10 1
           Hin Hkey Hsend Hfuel).
Defined.

Section Duration.
Context {H : Type} (signals : gmap string H) (clk data valid last ready : H).
Hypothesis Hclk : signals !! "clk"%string = Some clk.
Hypothesis Hdata : signals !! "data"%string = Some data.
Hypothesis Hvalid : signals !! "valid"%string = Some valid.
Hypothesis Hlast : signals !! "last"%string = Some last.
Hypothesis Hready : signals !! "ready"%string = Some ready.
Context (env : device H).
Hypothesis Halways : forall t, Nat.odd t = true -> truthy (env t ready) = true.

Lemma assign_returns key h v now :
  signals !! key = Some h -> rejects (width env h) v = None ->
  returns env (assign signals key v) now tt now.
Proof.
  intros Hkey Hv. unfold assign, getitem. rewrite Hkey.
  eapply returns_bind; [apply returns_ret|].
  eapply returns_trigger. cbn [perform]. now rewrite Hv.
Qed.

(** The assignments that put one element on the data signal. *)
Lemma data_returns val now :
  sendable signals env data val ->
  returns env
    (if bool_decide (is_Some (signals !! "err"%string)) then
       match val with
       | PNone =>
           assign signals "data" (PInt 0) ;;;
           assign signals "err" (PInt 1)
       | _ =>
           assign signals "data" val ;;;
           assign signals "err" (PInt 0)
       end
     else
       assign signals "data" val)
    now tt now.
Proof.
  unfold sendable. intros Hsend.
  destruct (signals !! "err"%string) as [e|] eqn:Herr.
  - rewrite bool_decide_eq_true_2 by eauto.
    destruct val;
      (eapply returns_bind;
       [eapply assign_returns; [eassumption | first [reflexivity | exact Hsend]] |]);
      eapply assign_returns; [eassumption | reflexivity | eassumption | reflexivity
                             | eassumption | reflexivity].
  - rewrite bool_decide_eq_false_2 by (now intros [x Hx]).
    eapply assign_returns; [eassumption | exact Hsend].
Qed.

Lemma await_returns (g : H -> trigger H) now :
  returns env (c <- getitem signals "clk" ;; await (g c)) now tt (resume (g clk) now).
Proof.
  unfold getitem. rewrite Hclk.
  eapply returns_bind; [apply returns_ret | now eapply returns_trigger].
Qed.

(** One element, offered at a falling edge to a receiver that is ready at
    every falling edge, takes [ratio] clock cycles. *)
Lemma beat_returns val lst ratio now :
  sendable signals env data val ->
  1 <= ratio -> Nat.odd now = true ->
  returns env
    ((if bool_decide (is_Some (signals !! "err"%string)) then
       match val with
       | PNone =>
           assign signals "data" (PInt 0) ;;;
           assign signals "err" (PInt 1)
       | _ =>
           assign signals "data" val ;;;
           assign signals "err" (PInt 0)
       end
     else
       assign signals "data" val) ;;;
    assign signals "valid" (PInt 1) ;;;
    assign signals "last" (PBool lst) ;;;
    (c <- getitem signals "clk" ;; await (RisingEdge c)) ;;;
    loop_until (
      (c <- getitem signals "clk" ;; await (FallingEdge c)) ;;;
      (r <- getitem signals "ready" ;; z <- get_value r ;; Ret (truthy z))) ;;;
    assign signals "valid" (PInt 0) ;;;
    if negb (ratio =? 1) then
      c <- getitem signals "clk" ;; await (ClockCycles c (ratio - 1) false)
    else Ret tt)
    now tt (now + 2 * Z.to_nat ratio)%nat.
Proof.
  intros Hsend Hratio Hodd.
  eapply returns_bind; [now apply data_returns|].
  eapply returns_bind; [eapply assign_returns; [eassumption | reflexivity]|].
  eapply returns_bind; [eapply assign_returns; [eassumption | reflexivity]|].
  eapply returns_bind; [apply (await_returns RisingEdge)|]. cbn [resume].
  rewrite (next_rising_of_odd now Hodd).
  assert (Heven : Nat.even (now + 1) = true).
  { rewrite Nat.add_1_r, Nat.even_succ. exact Hodd. }
  assert (Hodd2 : Nat.odd (now + 2) = true).
  { replace (now + 2)%nat with (now + 2 * 1)%nat by lia. now rewrite odd_add_2. }
  eapply returns_bind.
  { apply returns_iter_done. eapply returns_bind.
    - eapply returns_bind; [apply (await_returns FallingEdge)|]. cbn [resume].
      rewrite (next_falling_of_even _ Heven).
      replace (now + 1 + 1)%nat with (now + 2)%nat by lia.
      unfold getitem. rewrite Hready.
      eapply returns_bind; [apply returns_ret|].
      eapply returns_bind; [now eapply returns_trigger|].
      rewrite (Halways _ Hodd2). apply (returns_ret env true).
    - apply returns_ret. }
  cbn beta iota.
  eapply returns_bind; [eapply assign_returns; [eassumption | reflexivity]|].
  destruct (Z.eqb_spec ratio 1) as [->|Hne]; cbn [negb].
  - replace (now + 2 * Z.to_nat 1)%nat with (now + 2)%nat by lia. apply returns_ret.
  - replace (now + 2 * Z.to_nat ratio)%nat
      with (resume (ClockCycles clk (ratio - 1) false) (now + 2)).
    + apply (await_returns (fun c => ClockCycles c (ratio - 1) false)).
    + cbn [resume]. rewrite (iter_next_falling _ _ Hodd2). lia.
Qed.

End Duration.

(** X13.  The pace of the sender.  Started at a falling edge with a [ratio]
    of at least 1, with a packet every element of which the data signal
    takes (or is a [None] to be sent as an error beat), against a receiver
    whose ready is high at every falling edge, [send_packet] returns, and
    takes exactly [ratio] clock cycles an element: each element is held over
    one rising edge, accepted at the next falling edge, and followed by
    [ratio - 1] idle cycles; a packet of [n] elements takes [n * ratio]
    cycles, that is [2 * ratio * n] edges. *)
Theorem send_packet_duration {H : Type} (signals : gmap string H)
    (clk data valid last ready : H) packet ratio env now :
  signals !! "clk"%string = Some clk ->
  signals !! "data"%string = Some data ->
  signals !! "valid"%string = Some valid ->
  signals !! "last"%string = Some last ->
  signals !! "ready"%string = Some ready ->
  Forall (sendable signals env data) packet ->
  1 <= ratio ->
  Nat.odd now = true ->
  (forall t, Nat.odd t = true -> truthy (env t ready) = true) ->
  returns env (send_packet signals packet ratio) now tt
    (now + 2 * Z.to_nat ratio * length packet)%nat.
Proof.
  intros Hclk Hdata Hvalid Hlast Hready Hsend Hratio Hodd Halways.
  rewrite <- (length_framed packet), <- lookahead_framed. unfold send_packet.
  assert (Hall : forall val lst, In (val, lst) (lookahead packet) ->
            sendable signals env data val).
  { intros val lst Hin. apply lookahead_In in Hin.
    exact (proj1 (List.Forall_forall _ _) Hsend val Hin). }
  clear Hsend. revert now Hodd Hall.
  induction (lookahead packet) as [|[val lst] l IH]; intros now Hodd Hall;
    cbn [for_each length].
  - rewrite Nat.mul_0_r, Nat.add_0_r. apply returns_ret.
  - eapply returns_bind.
    + apply (beat_returns signals clk data valid last ready); try assumption.
      apply (Hall val lst). now left.
    + replace (now + 2 * Z.to_nat ratio * S (length l))%nat
        with (now + 2 * Z.to_nat ratio + 2 * Z.to_nat ratio * length l)%nat by lia.
      apply IH; [now rewrite odd_add_2|].
      intros v b Hin. apply (Hall v b). now right.
Qed.

Lemma send_packet_duration_witness :
  ingress_signals !! "clk"%string = Some buf.clk
  /\ ingress_signals !! "data"%string = Some buf.s_axis_data
  /\ ingress_signals !! "valid"%string = Some buf.s_axis_valid
  /\ ingress_signals !! "last"%string = Some buf.s_axis_last
  /\ ingress_signals !! "ready"%string = Some buf.s_axis_ready
  /\ Forall (sendable ingress_signals always_ready buf.s_axis_data) [PInt 7; PInt 8; PInt 9]
  /\ 1 <= 4
  /\ Nat.odd 1 = true
  /\ (forall t, Nat.odd t = true -> truthy (always_ready t buf.s_axis_ready) = true)
  /\ returns always_ready (send_packet ingress_signals [PInt 7; PInt 8; PInt 9] 4) 1 tt 25.
Proof.
  assert (Hsend : Forall (sendable ingress_signals always_ready buf.s_axis_data)
                    [PInt 7; PInt 8; PInt 9])
    by (repeat (apply List.Forall_cons; [vm_compute; reflexivity|]); apply List.Forall_nil).
  assert (Hratio : 1 <= 4) by lia.
  assert (Hready : forall t, Nat.odd t = true ->
                     truthy (always_ready t buf.s_axis_ready) = true)
    by (intros t _; reflexivity).
  repeat (split; [first [exact Hsend | exact Hratio | exact Hready | reflexivity]|]).
  exact (send_packet_duration ingress_signals buf.clk buf.s_axis_data buf.s_axis_valid
           buf.s_axis_last buf.s_axis_ready [PInt 7; PInt 8; PInt 9] 4 always_ready 1
           eq_refl eq_refl eq_refl eq_refl eq_refl Hsend Hratio eq_refl Hready).
Defined.

(** ** What [send] offers *)

Lemma filter_flat_map {A B} (keep : B -> bool) (f : A -> list B) (g : A -> list B) l :
  (forall x, List.filter keep (f x) = g x) ->
  List.filter keep (flat_map f l) = flat_map g l.
Proof.
  intros Hf. induction l as [|x l IH]; cbn; [reflexivity|].
  now rewrite List.filter_app, Hf, IH.
Qed.

Lemma flat_map_singleton {A B} (f : A -> B) (l : list A) :
  flat_map (fun x => [f x]) l = map f l.
Proof. induction l as [|x l IH]; cbn; [reflexivity | now rewrite IH]. Qed.

Lemma map_fst_framed {A} (l : list A) : map fst (framed l) = l.
Proof.
  apply list_eq. intros i. unfold framed.
  rewrite list_lookup_fmap, list_lookup_imap. now destruct (l !! i).
Qed.

Lemma send_sends in_ratio :
  sends (send in_ratio)
    (flat_map (fun packet =>
        flat_map (beat_steps buf.clk buf.s_axis_data buf.s_axis_valid buf.s_axis_last
                    buf.s_axis_ready None in_ratio) (lookahead (map PInt packet)))
       packets).
Proof.
  apply sends_for_each. intros packet.
  exact (send_packet_sends ingress_signals buf.clk buf.s_axis_data buf.s_axis_valid
           buf.s_axis_last buf.s_axis_ready eq_refl eq_refl eq_refl eq_refl eq_refl
           (map PInt packet) in_ratio).
Qed.

(** What [send()] can be refused: a word of a packet, by a data signal of
    less than nine bits. *)
Lemma send_rejected in_ratio (env : device buf.handle) s v e :
  In (Drove s v)
    (flat_map (fun packet =>
        flat_map (beat_steps buf.clk buf.s_axis_data buf.s_axis_valid buf.s_axis_last
                    buf.s_axis_ready None in_ratio) (lookahead (map PInt packet)))
       packets) ->
  rejects (width env s) v = Some e ->
  e = OverflowError /\ (width env buf.s_axis_data < 9)%positive.
Proof.
  intros Hin Hrej.
  apply in_flat_map in Hin as (packet & Hpacket & Hin).
  apply in_flat_map in Hin as ([val lst] & Hval & Hin).
  apply lookahead_In, in_map_iff in Hval as (z & <- & Hz).
  assert (Hz' : 0 <= z <= 511).
  { destruct Hpacket as [<-|[<-|[<-|[]]]]; apply range_In in Hz; lia. }
  unfold beat_steps, data_drives in Hin. cbn [fst snd app In] in Hin.
  assert (Hword : s = buf.s_axis_data /\ v = PInt z).
  { destruct Hin as [Hin|[Hin|[Hin|[Hin|[Hin|Hin]]]]];
      try (injection Hin as <- <-; try discriminate; now split);
      try discriminate.
    destruct (negb (in_ratio =? 1)); cbn in Hin; [destruct Hin as [Hin|[]]|destruct Hin];
      discriminate. }
  destruct Hword as [-> ->]. cbn [rejects] in Hrej.
  destruct (accepts (width env buf.s_axis_data) z) eqn:Hacc; [discriminate|].
  injection Hrej as <-. split; [reflexivity|].
  destruct (Pos.ltb_spec (width env buf.s_axis_data) 9) as [Hlt|Hge]; [exact Hlt|].
  exfalso. assert (Htrue : accepts (width env buf.s_axis_data) z = true).
  { apply accepts_range.
    assert (Hlow : 0 < 2 ^ (Z.pos (width env buf.s_axis_data) - 1))
      by (apply Z.pow_pos_nonneg; lia).
    assert (Hhigh : 2 ^ 9 <= 2 ^ Z.pos (width env buf.s_axis_data))
      by (apply Z.pow_le_mono_r; lia).
    change (2 ^ 9) with 512 in Hhigh. lia. }
  congruence.
Qed.

Lemma words_of_packet in_ratio (packet : list Z) :
  List.filter is_word
    (flat_map (beat_steps buf.clk buf.s_axis_data buf.s_axis_valid buf.s_axis_last
                 buf.s_axis_ready None in_ratio) (lookahead (map PInt packet)))
  = map (fun w => Drove buf.s_axis_data (PInt w)) packet.
Proof.
  rewrite (filter_flat_map _ _ (fun b => [Drove buf.s_axis_data (fst b)])).
  - rewrite flat_map_singleton, lookahead_framed, <- (map_map fst), map_fst_framed.
    apply map_map.
  - intros [x b]. unfold beat_steps, data_drives. cbn.
    now destruct (negb (in_ratio =? 1)).
Qed.

(** X14.  What [send()] puts on the ingress data signal: the words of the
    three packets, [0..53], then [64..127], then [128..511], each word
    assigned once, in order, 502 in all, whatever [in_ratio] is and however
    long the buffer keeps ready low.  [send()] raises nothing on a buffer
    whose data signal has the nine bits these words need; on a narrower one
    it raises [OverflowError], and nothing else ever.  A run that completes
    has assigned all of the words; any other run a prefix. *)
Theorem send_offers_packets_in_order env in_ratio fuel now tr o :
  run env fuel (send in_ratio) now = (tr, o) ->
  let words := List.filter is_word (view (show ready_high) tr) in
  let expected :=
    map (fun w => Drove buf.s_axis_data (PInt w))
      (range 0 54 ++ range 64 128 ++ range 128 512) in
  (forall e t, o = Raised e t ->
     e = OverflowError /\ (width env buf.s_axis_data < 9)%positive)
  /\ words `prefix_of` expected
  /\ (is_done o = true -> words = expected).
Proof.
  intros Hrun words expected. apply send_sends in Hrun.
  assert (Heq : List.filter is_word
            (flat_map (fun packet =>
                flat_map (beat_steps buf.clk buf.s_axis_data buf.s_axis_valid buf.s_axis_last
                            buf.s_axis_ready None in_ratio) (lookahead (map PInt packet)))
               packets)
          = expected).
  { unfold expected, packets. cbn [flat_map]. rewrite app_nil_r.
    now rewrite !List.filter_app, !words_of_packet, !map_app. }
  destruct o as [r t f|e t|]; cbn [offered] in Hrun.
  - unfold words. rewrite Hrun, Heq. split; [now intros e t0 [=]|]. now split.
  - destruct Hrun as (s & v & rest & Hsent & Hrej). split; [|split; [|discriminate]].
    + intros e' t' [= <- _]. apply (send_rejected in_ratio env s v e); [|exact Hrej].
      rewrite Hsent, in_app_iff. right. now left.
    + unfold words. rewrite <- Heq, Hsent, List.filter_app. now apply prefix_app_r.
  - split; [now intros e t0 [=]|]. split; [|discriminate].
    destruct Hrun as [k Hk]. unfold words. rewrite <- Heq, Hk, List.filter_app.
    now apply prefix_app_r.
Qed.

Lemma send_offers_packets_in_order_witness :
  run always_ready 6000 (send 1) 1 = send_run
  /\ is_done (snd send_run) = true
  /\ List.filter is_word (view (show ready_high) (fst send_run))
     = map (fun w => Drove buf.s_axis_data (PInt w))
         (range 0 54 ++ range 64 128 ++ range 128 512).
Proof.
  assert (Hrun : run always_ready 6000 (send 1) 1 = send_run) by (vm_compute; reflexivity).
  split; [exact Hrun|]. split; [reflexivity|].
  exact (proj2 (proj2 (send_offers_packets_in_order _ _ _ _ _ _ Hrun)) eq_refl).
Defined.

(** ** A buffer that streams, and one that never takes *)

Lemma handshake_returns_now env now :
  both_high env now = true -> returns env handshake now tt now.
Proof.
  intros Hboth. apply returns_iter_done.
  eapply returns_bind; [apply handshake_cond_returns|].
  rewrite Hboth. apply returns_ret.
Qed.

Lemma streams_tail env now b bs :
  streams env now (b :: bs) -> streams env (next_rising now) bs.
Proof.
  intros Hs i c Hc. rewrite <- !Nat.iter_succ_r. apply (Hs (S i) c Hc).
Qed.

Lemma recv_beats_return env (packet : list Z) (l : list (Z * Z)) now :
  streams env now (map (fun p : Z * Z => (snd p, fst p =? len packet - 1)) l) ->
  returns env
    (for_each l (fun '(i, val) =>
       handshake ;;;
       (d <- get_value buf.m_axis_data ;; py_assert (d =? val)) ;;;
       (l <- get_value buf.m_axis_last ;; py_assert (eq_bool l (i =? len packet - 1))) ;;;
       await (RisingEdge buf.clk)))
    now tt (Nat.iter (length l) next_rising now).
Proof.
  revert now. induction l as [|[i val] l IH]; intros now Hs; cbn [for_each length].
  - apply returns_ret.
  - destruct (Hs 0%nat _ eq_refl) as (Hboth & Hdata & Hlast). cbn in Hboth, Hdata, Hlast.
    rewrite Nat.iter_succ_r.
    eapply returns_bind; [|apply IH; exact (streams_tail _ _ _ _ Hs)].
    eapply returns_bind; [now apply handshake_returns_now|].
    eapply returns_bind.
    { eapply returns_bind; [now eapply returns_trigger|].
      rewrite Hdata, Z.eqb_refl. apply returns_ret. }
    eapply returns_bind.
    { eapply returns_bind; [now eapply returns_trigger|].
      rewrite Hlast. unfold eq_bool. rewrite Z.eqb_refl. apply returns_ret. }
    now eapply returns_trigger.
Qed.

(** X15.  [recv_len] accepts a buffer that streams.  If, from the edge at
    which [recv_len(length)] is called, the buffer presents the beats of the
    slice [packet[:length]] one at each rising edge, with valid and ready
    high and with data and last as the packet has them, then [recv_len]
    passes every assertion and returns, having taken one beat a clock cycle:
    it returns at the rising edge that follows the last beat. *)
Theorem recv_len_accepts_stream env packet length now :
  let bs := take (List.length (slice_to packet length)) (framed packet) in
  streams env now bs ->
  returns env (recv_len packet length) now tt (Nat.iter (List.length bs) next_rising now).
Proof.
  intros bs Hs. unfold recv_len.
  assert (Hbs : bs = map (fun p : Z * Z => (snd p, fst p =? len packet - 1))
                       (enumerate (slice_to packet length))).
  { unfold bs, slice_to. destruct (length <? 0);
      now rewrite length_take, <- (length_framed packet), <- take_take,
        (take_ge (framed packet) (List.length (framed packet))), enumerate_take_framed by lia. }
  replace (List.length bs) with (List.length (enumerate (slice_to packet length)))
    by (now rewrite Hbs, length_map).
  apply recv_beats_return. now rewrite <- Hbs.
Qed.

Lemma recv_len_accepts_stream_witness :
  streams (reference 99 99 (range 10 14)) 1
    (take (List.length (slice_to (range 10 14) 2)) (framed (range 10 14)))
  /\ returns (reference 99 99 (range 10 14)) (recv_len (range 10 14) 2) 1 tt 4.
Proof.
  assert (Hs : streams (reference 99 99 (range 10 14)) 1
            (take (List.length (slice_to (range 10 14) 2)) (framed (range 10 14)))).
  { intros i b. destruct i as [|[|i]]; cbn; intros [= <-]; vm_compute; auto. }
  split; [exact Hs|].
  exact (recv_len_accepts_stream (reference 99 99 (range 10 14)) (range 10 14) 2 1 Hs).
Defined.

Section SenderWaits.
Context {H : Type} (signals : gmap string H) (clk data valid last ready : H).
Hypothesis Hclk : signals !! "clk"%string = Some clk.
Hypothesis Hdata : signals !! "data"%string = Some data.
Hypothesis Hvalid : signals !! "valid"%string = Some valid.
Hypothesis Hlast : signals !! "last"%string = Some last.
Hypothesis Hready : signals !! "ready"%string = Some ready.
Context (env : device H).
Hypothesis Hnever : forall t, truthy (env t ready) = false.

Lemma poll_stalls now :
  stalls env
    (loop_until (
      (c <- getitem signals "clk" ;; await (FallingEdge c)) ;;;
      (r <- getitem signals "ready" ;; z <- get_value r ;; Ret (truthy z)))) now.
Proof.
  apply (stalls_iter env _ (fun _ _ => True)); [|exact I].
  intros [] t _. exists tt, (next_falling t). split; [|exact I].
  eapply returns_bind.
  - eapply returns_bind; [apply (await_returns signals clk Hclk env FallingEdge)|].
    unfold getitem. rewrite Hready.
    eapply returns_bind; [apply returns_ret|].
    eapply returns_bind; [now eapply returns_trigger|].
    rewrite Hnever. apply (returns_ret env false).
  - apply returns_ret.
Qed.

Lemma send_packet_stalls val rest ratio now :
  sendable signals env data val ->
  stalls env (send_packet signals (val :: rest) ratio) now.
Proof.
  intros Hsend. unfold send_packet.
  assert (Hl : exists lst l, lookahead (val :: rest) = (val, lst) :: l).
  { destruct rest as [|y l]; now eexists _, _. }
  destruct Hl as (lst & l & ->). cbn [for_each]. apply stalls_bind_l.
  eapply stalls_bind_r; [now apply (data_returns signals data Hdata env)|].
  eapply stalls_bind_r;
    [eapply (assign_returns signals env); [eassumption | reflexivity]|].
  eapply stalls_bind_r;
    [eapply (assign_returns signals env); [eassumption | reflexivity]|].
  eapply stalls_bind_r; [apply (await_returns signals clk Hclk env RisingEdge)|].
  apply stalls_bind_l, poll_stalls.
Qed.

End SenderWaits.

(** X16.  The sender never gives up on a beat.  On a dict with the five
    keys and distinct handles, with a packet whose first element the data
    signal takes (or a [None] to be sent as an error beat), and against a
    ready that is never high, [send_packet] neither returns nor raises, and
    it never takes valid back: whatever it assigns to the valid handle is 1,
    so the first element stays on offer for as long as the run goes on. *)
Theorem send_packet_waits_for_ready {H : Type} (signals : gmap string H)
    (clk data valid last ready : H) val rest ratio env fuel now :
  signals !! "clk"%string = Some clk ->
  signals !! "data"%string = Some data ->
  signals !! "valid"%string = Some valid ->
  signals !! "last"%string = Some last ->
  signals !! "ready"%string = Some ready ->
  data <> valid -> last <> valid -> signals !! "err"%string <> Some valid ->
  sendable signals env data val ->
  (forall t, truthy (env t ready) = false) ->
  snd (run env fuel (send_packet signals (val :: rest) ratio) now) = OutOfFuel
  /\ forall t v, In (Drive t valid v)
                   (fst (run env fuel (send_packet signals (val :: rest) ratio) now)) ->
                 v = PInt 1.
Proof.
  intros Hclk Hdata Hvalid Hlast Hready Hdv Hlv Hev Hsend Hnever. split.
  - now apply (send_packet_stalls signals clk data valid last ready).
  - intros t v Hin.
    destruct (run env fuel (send_packet signals (val :: rest) ratio) now)
      as [tr o] eqn:Hrun.
    cbn [fst] in Hin. apply in_split in Hin as (h0 & h1 & Htr).
    destruct (send_packet_guard signals clk data valid last ready
                Hclk Hdata Hvalid Hlast Hready (conj Hdv (conj Hlv Hev)) (val :: rest) ratio
                env fuel now [] tr o (or_introl eq_refl) (safe_nil _) Hrun) as [Hsafe _].
    cbn [app] in Hsafe. destruct (safe_split _ _ _ _ _ Hsafe Htr) as [Hg _].
    destruct (Hg t v eq_refl) as [->|[_ (h & z & -> & Hz)]]; [reflexivity|].
    assert (z = env t ready) as ->.
    { apply (run_samples env fuel _ now tr o Hrun). rewrite Htr.
      rewrite !in_app_iff. left. right. now left. }
    rewrite Hnever in Hz. discriminate.
Qed.

Lemma send_packet_waits_for_ready_witness :
  ingress_signals !! "clk"%string = Some buf.clk
  /\ ingress_signals !! "data"%string = Some buf.s_axis_data
  /\ ingress_signals !! "valid"%string = Some buf.s_axis_valid
  /\ ingress_signals !! "last"%string = Some buf.s_axis_last
  /\ ingress_signals !! "ready"%string = Some buf.s_axis_ready
  /\ buf.s_axis_data <> buf.s_axis_valid
  /\ buf.s_axis_last <> buf.s_axis_valid
  /\ ingress_signals !! "err"%string <> Some buf.s_axis_valid
  /\ sendable ingress_signals never_beat buf.s_axis_data (PInt 7)
  /\ (forall t, truthy (never_beat t buf.s_axis_ready) = false)
  /\ snd (run never_beat 500 (send_packet ingress_signals [PInt 7] 1) 1) = OutOfFuel
  /\ forall t v, In (Drive t buf.s_axis_valid v)
                   (fst (run never_beat 500 (send_packet ingress_signals [PInt 7] 1) 1)) ->
                 v = PInt 1.
Proof.
  assert (Hdv : buf.s_axis_data <> buf.s_axis_valid) by discriminate.
  assert (Hlv : buf.s_axis_last <> buf.s_axis_valid) by discriminate.
  assert (Hev : ingress_signals !! "err"%string <> Some buf.s_axis_valid)
    by (vm_compute; discriminate).
  assert (Hsend : sendable ingress_signals never_beat buf.s_axis_data (PInt 7))
    by (vm_compute; reflexivity).
  assert (Hnever : forall t, truthy (never_beat t buf.s_axis_ready) = false)
    by (intros t; reflexivity).
  do 5 (split; [reflexivity|]).
  split; [exact Hdv|]. split; [exact Hlv|]. split; [exact Hev|]. split; [exact Hsend|].
  split; [exact Hnever|].
  exact (send_packet_waits_for_ready ingress_signals buf.clk buf.s_axis_data
           buf.s_axis_valid buf.s_axis_last buf.s_axis_ready (PInt 7) [] 1 never_beat 500 1
           eq_refl eq_refl eq_refl eq_refl eq_refl Hdv Hlv Hev Hsend Hnever).
Defined.
